(** * orgmodeparser: a shallow embedding of [orgmodeparser.py]

    The tokenizer [OrgParseIter.__next__], the node classes, the tree
    builder [MinimalOrgParser.__init__] with its local [parse_block], and
    the serializer [MinimalOrgParser.dumps] are embedded as functions on
    explicit state.  Python [str] values are lists of characters; the
    character set is restricted to the code points 0..255. *)

From Stdlib Require Import String Ascii List Arith Bool Lia.
Import ListNotations.
Open Scope char_scope.
Open Scope nat_scope.
Open Scope list_scope.

(** ** Python strings *)

Definition str := list ascii.

(** A string literal. *)
Definition py (s : string) : str := list_ascii_of_string s.

(** [str.isspace] on one character: the code points below 256 that
    Python classifies as whitespace. *)
Definition whitespace : list ascii :=
  map ascii_of_nat [9; 10; 11; 12; 13; 28; 29; 30; 31; 32; 133; 160].

Definition isspace (c : ascii) : bool := existsb (Ascii.eqb c) whitespace.

Fixpoint lstrip (s : str) : str :=
  match s with
  | c :: s' => if isspace c then lstrip s' else s
  | [] => []
  end.

Definition rstrip (s : str) : str := rev (lstrip (rev s)).

Definition strip (s : str) : str := lstrip (rstrip s).

(** [s[i:j]] for [0 <= i] and [0 <= j]. *)
Definition slice (s : str) (i j : nat) : str := firstn (j - i) (skipn i s).

(** [s.find(c, start)]: [None] stands for the result [-1]. *)
Fixpoint find_from (c : ascii) (rest : str) (pos : nat) : option nat :=
  match rest with
  | [] => None
  | x :: rest' => if Ascii.eqb x c then Some pos else find_from c rest' (S pos)
  end.

Definition find (c : ascii) (s : str) (start : nat) : option nat :=
  find_from c (skipn start s) start.

(** [s.split(sep)] for a one-character separator. *)
Fixpoint split_acc (sep : ascii) (s : str) (cur : str) : list str :=
  match s with
  | [] => [rev cur]
  | c :: s' =>
      if Ascii.eqb c sep then rev cur :: split_acc sep s' []
      else split_acc sep s' (c :: cur)
  end.

Definition split (sep : ascii) (s : str) : list str := split_acc sep s [].

(** [sep.join(parts)]. *)
Fixpoint join (sep : str) (parts : list str) : str :=
  match parts with
  | [] => []
  | [p] => p
  | p :: rest => p ++ sep ++ join sep rest
  end.

(** [s.startswith(c)] for a one-character prefix. *)
Definition startswith (s : str) (c : ascii) : bool :=
  match s with
  | x :: _ => Ascii.eqb x c
  | [] => false
  end.

(** [l.pop()]: the last element and the list without it. *)
Definition pop {A : Type} (l : list A) : option (list A * A) :=
  match rev l with
  | [] => None
  | x :: r => Some (rev r, x)
  end.

(** ** Exceptions *)

Inductive exn : Type :=
  StopIteration | IndexError | AttributeError | RecursionError.

Inductive result (A : Type) : Type :=
| Ok (a : A)
| Raise (e : exn).
Arguments Ok {A} a.
Arguments Raise {A} e.

(** ** Tokens: [OrgParseIter.TokenInfo] *)

Inductive TokenType : Type := HEADLINE | HLEXIT | TEXT | COMMENT | DIRECTIVE.

Record TokenInfo : Type := mkTokenInfo {
  type : TokenType;
  line : nat;
  value : option str }.

(** ** The tokenizer state: [OrgParseIter]

    [fileobj] holds the lines not read yet.  The field [buflen] of the
    source is assigned once, [self.buflen = len(self.buf)], right after
    [self.buf]; it is the derived quantity [buflen] below. *)

Record OrgParseIter : Type := mkOrgParseIter {
  fileobj : list str;
  buf : option str;
  bufpos : nat;
  level : nat;
  oldlevel : nat;
  hold : list TokenInfo;
  lineno : nat }.

Definition buflen (self : OrgParseIter) : nat :=
  match buf self with
  | Some b => length b
  | None => 0
  end.

(** [OrgParseIter.__init__]. *)
Definition OrgParseIter_init (f : list str) : OrgParseIter :=
  mkOrgParseIter f None 0 0 0 [] 0.

Definition set_hold (self : OrgParseIter) (h : list TokenInfo) : OrgParseIter :=
  mkOrgParseIter (fileobj self) (buf self) (bufpos self) (level self)
                 (oldlevel self) h (lineno self).

Definition set_bufpos (self : OrgParseIter) (p : nat) : OrgParseIter :=
  mkOrgParseIter (fileobj self) (buf self) p (level self)
                 (oldlevel self) (hold self) (lineno self).

Definition set_levels (self : OrgParseIter) (lv old : nat) : OrgParseIter :=
  mkOrgParseIter (fileobj self) (buf self) (bufpos self) lv old
                 (hold self) (lineno self).

(** [while pos < buflen and p(buf[pos]): pos += 1], run on the part of
    the buffer from [pos] on; the result is the final position. *)
Fixpoint scan_while (p : ascii -> bool) (rest : str) (pos : nat) : nat :=
  match rest with
  | c :: rest' => if p c then scan_while p rest' (S pos) else pos
  | [] => pos
  end.

Definition is_star (c : ascii) : bool := Ascii.eqb c "*".

(** The local function [__skip_space]. *)
Definition skip_space (b : str) (pos : nat) : nat :=
  scan_while isspace (skipn pos b) pos.

Definition ctl_chars : str := py "_ABCDEFGHIJKLMNOPQRSTUVWXYZ".

Definition is_ctl_char (c : ascii) : bool := existsb (Ascii.eqb c) ctl_chars.

(** The local function [__is_ctl_word]: the loop visits the characters
    [buf[frompos]], ..., [buf[topos - 1]]. *)
Definition is_ctl_word (b : str) (frompos topos : nat) : bool :=
  forallb is_ctl_char (slice b frompos topos).

(** The new nesting level for a run of [r] heading markers. *)
Definition new_level (lv r : nat) : nat :=
  if lv <? r then lv + 1
  else if r <? lv then r
  else lv.

(** The branch [if self.buf.startswith('*')] of [__next__]. *)
Definition next_headline (self : OrgParseIter) (b : str)
  : result (TokenInfo * OrgParseIter) :=
  let n := length b in
  let pos := scan_while is_star (skipn (bufpos self) b) (bufpos self) in
  let plain :=
    Ok (mkTokenInfo TEXT (lineno self) (Some b), set_bufpos self n) in
  if n <=? pos then plain
  else
    match nth_error b pos with
    | None => Raise IndexError
    | Some c =>
        if negb (isspace c) then plain
        else
          let old := level self in
          let lv := new_level (level self) pos in
          let pos' := skip_space b pos in
          let headtkn := mkTokenInfo HEADLINE (lineno self) (Some (skipn pos' b)) in
          let self1 := set_bufpos (set_levels self lv old) n in
          if lv <=? old then
            let exits :=
              repeat (mkTokenInfo HLEXIT (lineno self) None) (old - lv) in
            Ok (mkTokenInfo HLEXIT (lineno self) None,
                set_hold self1 ((hold self1 ++ [headtkn]) ++ exits))
          else Ok (headtkn, self1)
    end.

(** The tail shared by the comment and the text branch:
    [bufpos = self.bufpos; self.bufpos = self.buflen; return ...]. *)
Definition next_rest (self : OrgParseIter) (b : str) (tkn : TokenType) (pos : nat)
  : result (TokenInfo * OrgParseIter) :=
  Ok (mkTokenInfo tkn (lineno self) (Some (skipn pos b)),
      set_bufpos self (length b)).

(** The branch [if self.buf.startswith('#')] of [__next__]. *)
Definition next_comment (self : OrgParseIter) (b : str)
  : result (TokenInfo * OrgParseIter) :=
  let n := length b in
  let bufpos0 := bufpos self + 1 in
  let fallback := next_rest self b COMMENT (skip_space b bufpos0) in
  if bufpos0 <? n + 3 then
    match nth_error b bufpos0 with
    | None => Raise IndexError
    | Some c =>
        if Ascii.eqb c "+" then
          let pos := bufpos0 + 1 in
          if n <=? pos then fallback
          else
            match find ":" b pos with
            | None => fallback
            | Some colonpos =>
                if negb (is_ctl_word b pos colonpos) then fallback
                else
                  let texttkn :=
                    mkTokenInfo TEXT (lineno self)
                                (Some (strip (skipn (colonpos + 1) b))) in
                  Ok (mkTokenInfo DIRECTIVE (lineno self)
                                  (Some (slice b (bufpos0 + 1) colonpos)),
                      set_hold (set_bufpos self n) (hold self ++ [texttkn]))
            end
        else fallback
    end
  else fallback.

(** [__next__] from the test [if self.buflen == 0] on, with the buffer
    [b] in place. *)
Definition next_scan (self : OrgParseIter) (b : str)
  : result (TokenInfo * OrgParseIter) :=
  if length b =? 0 then Ok (mkTokenInfo TEXT (lineno self) (Some []), self)
  else if startswith b "*" then next_headline self b
  else if startswith b "#" then next_comment self b
  else next_rest self b TEXT (bufpos self).

(** [OrgParseIter.__next__]. *)
Definition next (self : OrgParseIter) : result (TokenInfo * OrgParseIter) :=
  match pop (hold self) with
  | Some (h, t) => Ok (t, set_hold self h)
  | None =>
      let read :=
        match fileobj self with
        | [] =>
            match pop (hold self) with
            | Some (h, t) => Ok (t, set_hold self h)
            | None => Raise StopIteration
            end
        | l :: more =>
            let b := rstrip l in
            next_scan (mkOrgParseIter more (Some b) 0 (level self)
                                      (oldlevel self) (hold self)
                                      (S (lineno self))) b
        end in
      match buf self with
      | None => read
      | Some b => if length b <=? bufpos self then read else next_scan self b
      end
  end.

(** ** Regular expressions: the fragment of [re] used by [__RX_HEADLINE]

    A backtracking matcher in continuation-passing style.  [groups] maps a
    group number to the text it captured, if it took part in the match. *)

Inductive regex : Type :=
| RChar (c : ascii)              (* a literal character *)
| RAny                           (* [.]: any character but a newline *)
| RSpace                         (* [\s] *)
| RNonSpace                      (* [\S] *)
| RBol                           (* [^] *)
| REol                           (* [$] *)
| REmpty
| RSeq (r1 r2 : regex)
| RAlt (r1 r2 : regex)           (* [r1|r2] *)
| ROpt (r : regex)               (* [r?] *)
| RStar (r : regex)              (* [r*] *)
| RLazyStar (r : regex)          (* [r*?] *)
| RGroup (n : nat) (r : regex).  (* the capturing group number [n] *)

(** [r+]. *)
Definition RPlus (r : regex) : regex := RSeq r (RStar r).

Definition rseq (rs : list regex) : regex := fold_right RSeq REmpty rs.

Definition rlit (s : string) : regex := rseq (map RChar (py s)).

Definition newline : ascii := "010".

Definition groups : Type := nat -> option str.

Definition no_groups : groups := fun _ => None.

Definition set_group (n : nat) (s : str) (g : groups) : groups :=
  fun m => if m =? n then Some s else g m.

Section Matcher.

(** The whole subject string: [^] needs to know where it starts. *)
Variable subject : str.

Definition cont : Type := str -> groups -> option groups.

Definition one_char (p : ascii -> bool) (k : cont) (s : str) (g : groups)
  : option groups :=
  match s with
  | x :: s' => if p x then k s' g else None
  | [] => None
  end.

(** [rmatch r k s g]: match [r] at the front of [s], then go on with
    [k] on what is left; alternatives are tried in Python's order, the
    first success wins.  An iteration of a star that consumes nothing
    ends the repetition. *)
Fixpoint rmatch (r : regex) (k : cont) (s : str) (g : groups) {struct r}
  : option groups :=
  match r with
  | RChar c => one_char (fun x => Ascii.eqb x c) k s g
  | RAny => one_char (fun x => negb (Ascii.eqb x newline)) k s g
  | RSpace => one_char isspace k s g
  | RNonSpace => one_char (fun x => negb (isspace x)) k s g
  | RBol => if length s =? length subject then k s g else None
  | REol =>
      match s with
      | [] => k s g
      | [x] => if Ascii.eqb x newline then k s g else None
      | _ => None
      end
  | REmpty => k s g
  | RSeq r1 r2 => rmatch r1 (fun s' g' => rmatch r2 k s' g') s g
  | RAlt r1 r2 =>
      match rmatch r1 k s g with
      | Some res => Some res
      | None => rmatch r2 k s g
      end
  | ROpt r1 =>
      match rmatch r1 k s g with
      | Some res => Some res
      | None => k s g
      end
  | RStar r1 =>
      (fix loop (fuel : nat) (s : str) (g : groups) {struct fuel} :=
         match fuel with
         | 0 => k s g
         | S fuel' =>
             match rmatch r1 (fun s' g' =>
                                if length s' <? length s
                                then loop fuel' s' g' else None) s g with
             | Some res => Some res
             | None => k s g
             end
         end) (length s) s g
  | RLazyStar r1 =>
      (fix loop (fuel : nat) (s : str) (g : groups) {struct fuel} :=
         match k s g with
         | Some res => Some res
         | None =>
             match fuel with
             | 0 => None
             | S fuel' =>
                 rmatch r1 (fun s' g' =>
                              if length s' <? length s
                              then loop fuel' s' g' else None) s g
             end
         end) (length s) s g
  | RGroup n r1 =>
      rmatch r1 (fun s' g' =>
                   k s' (set_group n (firstn (length s - length s') s) g')) s g
  end.

End Matcher.

(** [pattern.match(text)]: anchored at the start of [text] only. *)
Definition re_match (r : regex) (text : str) : option groups :=
  rmatch text r (fun _ g => Some g) text no_groups.

(** ** The node classes

    [OrgNode] and its subclasses share the fields [text] and [children];
    [cls] is the class of the instance with the fields that class adds. *)

Inductive NodeClass : Type :=
| Headline (done : option bool) (priority : option str) (tags : list str)
| Text
| Comment
| Directive (name : str)
| Parser.

#[warnings="-register-all"] Inductive OrgNode : Type :=
| mkNode (cls : NodeClass) (text : str) (children : list OrgNode).

Definition cls (n : OrgNode) : NodeClass := let (c, _, _) := n in c.
Definition text (n : OrgNode) : str := let (_, t, _) := n in t.
Definition children (n : OrgNode) : list OrgNode := let (_, _, ch) := n in ch.

(** [node.children.append(child)]. *)
Definition append_child (node child : OrgNode) : OrgNode :=
  mkNode (cls node) (text node) (children node ++ [child]).

(** [isinstance(child, OrgHeadlineNode)]. *)
Definition is_headline (n : OrgNode) : bool :=
  match cls n with
  | Headline _ _ _ => true
  | _ => false
  end.

Definition str_eqb (a b : str) : bool :=
  if list_eq_dec Ascii.ascii_dec a b then true else false.

(** [OrgHeadlineNode.__RX_HEADLINE], group by group:
    - start of text;
    - group 1, optional: group 2 (optional, TODO or DONE), then
      whitespace, once or more;
    - group 3, optional: an opening bracket and a hash, group 4 (one of
      A, B, C), a closing bracket, then whitespace, once or more;
    - group 5, optional: any characters, as few as possible;
    - group 6, optional: a colon, group 7 (non-whitespace characters, as
      many as possible), a colon;
    - whitespace, any number; end of text. *)
Definition RX_HEADLINE : regex :=
  rseq [ RBol;
         ROpt (RGroup 1 (RSeq (ROpt (RGroup 2 (RAlt (rlit "TODO") (rlit "DONE"))))
                              (RPlus RSpace)));
         ROpt (RGroup 3 (rseq [ rlit "[#";
                                RGroup 4 (RAlt (RChar "A") (RAlt (RChar "B") (RChar "C")));
                                RChar "]";
                                RPlus RSpace ]));
         ROpt (RGroup 5 (RLazyStar RAny));
         ROpt (RGroup 6 (rseq [ RChar ":"; RGroup 7 (RStar RNonSpace); RChar ":" ]));
         RStar RSpace;
         REol ].

(** [OrgHeadlineNode.__init__].  [rm.group(5).strip()] raises
    [AttributeError] when group 5 took no part in the match. *)
Definition OrgHeadlineNode (text : str) : result OrgNode :=
  match re_match RX_HEADLINE text with
  | Some rm =>
      let done :=
        match rm 2 with
        | Some sdone =>
            if str_eqb sdone (py "DONE") then Some true
            else if str_eqb sdone (py "TODO") then Some false
            else None
        | None => None
        end in
      let priority := rm 4 in
      let tags :=
        match rm 7 with
        | Some stags => split ":" stags
        | None => []
        end in
      match rm 5 with
      | Some title => Ok (mkNode (Headline done priority tags) (strip title) [])
      | None => Raise AttributeError
      end
  | None => Ok (mkNode (Headline None None []) text [])
  end.

Definition OrgTextNode (text : str) : OrgNode := mkNode Text text [].

Definition OrgCommentNode (text : str) : OrgNode := mkNode Comment text [].

Definition OrgDirectiveNode (text name : str) : OrgNode :=
  mkNode (Directive name) text [].

(** [__str__], by class. *)
Definition node_str (n : OrgNode) : str :=
  match cls n with
  | Headline done priority tags =>
      (match done with
       | None => []
       | Some false => py "TODO "
       | Some true => py "DONE "
       end)
      ++ (match priority with
          | None => []
          | Some p => py "[#" ++ p ++ py "] "
          end)
      ++ text n
      ++ (match tags with
          | [] => []
          | _ => py " :" ++ join (py ":") tags ++ py ":"
          end)
  | Text => text n
  | Comment => py "# " ++ text n
  | Directive name => py "#+" ++ name ++ py ": " ++ text n
  | Parser => text n
  end.

(** ** The tree builder

    A token's [value] is [None] for [HLEXIT] tokens only, and the builder
    never reads the value of an [HLEXIT] token; [the] reads a value that
    is present. *)
Definition the (v : option str) : str :=
  match v with
  | Some s => s
  | None => []
  end.

(** The local function [parse_block] of [MinimalOrgParser.__init__], from
    one iteration of its [for] loop on: [prefix] and [dname] are its local
    variables, [destnode] the node whose children it appends to.  The
    result [None] means that [fuel] ran out.  The [for] statement ends
    the loop when [__next__] raises [StopIteration].

    [parse_block] calls itself once for every level of nesting, and the
    interpreter bounds the depth of nested calls
    ([sys.getrecursionlimit()], 1000 unless it is changed).  [room] is
    the number of nested calls of [parse_block] that the interpreter can
    still take, each with the calls that it makes in turn; the nested
    call that exceeds it ends in [RecursionError], which nothing in the
    program catches. *)
Fixpoint parse_loop (fuel : nat) (orgiter : OrgParseIter) (destnode : OrgNode)
  (level room : nat) (prefix : option TokenType) (dname : option str)
  {struct fuel} : option (result (OrgNode * OrgParseIter)) :=
  match fuel with
  | 0 => None
  | S fuel' =>
      match next orgiter with
      | Raise StopIteration => Some (Ok (destnode, orgiter))
      | Raise e => Some (Raise e)
      | Ok (nfo, orgiter1) =>
          match type nfo with
          | HEADLINE =>
              match OrgHeadlineNode (the (value nfo)) with
              | Raise e => Some (Raise e)
              | Ok child =>
                  match room with
                  | 0 => Some (Raise RecursionError)
                  | S room' =>
                      match parse_loop fuel' orgiter1 child (level + 1) room'
                                       None None with
                      | Some (Ok (child', orgiter2)) =>
                          parse_loop fuel' orgiter2 (append_child destnode child')
                                     level room prefix dname
                      | other => other
                      end
                  end
              end
          | HLEXIT => Some (Ok (destnode, orgiter1))
          | COMMENT =>
              parse_loop fuel' orgiter1
                         (append_child destnode (OrgCommentNode (the (value nfo))))
                         level room prefix dname
          | DIRECTIVE =>
              parse_loop fuel' orgiter1 destnode level room
                         (Some DIRECTIVE) (value nfo)
          | TEXT =>
              let node :=
                match prefix with
                | Some DIRECTIVE => OrgDirectiveNode (the (value nfo)) (the dname)
                | _ => OrgTextNode (the (value nfo))
                end in
              parse_loop fuel' orgiter1 (append_child destnode node)
                         level room None dname
          end
      end
  end.

Definition parse_block (fuel : nat) (orgiter : OrgParseIter) (destnode : OrgNode)
  (level room : nat) : option (result (OrgNode * OrgParseIter)) :=
  parse_loop fuel orgiter destnode level room None None.

(** [MinimalOrgParser.__init__] on the lines of the opened file; [limit]
    is the room for nested calls of [parse_block] at the outermost call:
    the deepest nesting of headings that the interpreter can take. *)
Definition MinimalOrgParser (fuel limit : nat) (filename : str)
  (orgfile : list str) : option (result OrgNode) :=
  let self := mkNode Parser filename [] in
  match parse_block fuel (OrgParseIter_init orgfile) self 0 limit with
  | None => None
  | Some (Ok (self', _)) => Some (Ok self')
  | Some (Raise StopIteration) => Some (Ok self)
  | Some (Raise e) => Some (Raise e)
  end.

(** ** The serializer *)

(** [MinimalOrgParser.__dumps_node]. *)
Fixpoint dumps_node (node : OrgNode) (level : nat) {struct node} : str :=
  match node with
  | mkNode _ _ chs =>
      join [newline]
           (flat_map
              (fun child =>
                 let c := if is_headline child
                          then repeat "*" level ++ py " " else [] in
                 (c ++ node_str child)
                   :: match children child with
                      | [] => []
                      | _ => [dumps_node child (level + 1)]
                      end)
              chs)
  end.

(** [MinimalOrgParser.dumps]. *)
Definition dumps (self : OrgNode) (level : nat) : str := dumps_node self level.

(** The whole run of a tokenizer: the tokens it yields and the exception
    that ends the iteration; the result is [None] when [fuel] calls were
    not enough. *)
Fixpoint tokens (fuel : nat) (orgiter : OrgParseIter)
  : option (list TokenInfo * exn) :=
  match fuel with
  | 0 => None
  | S fuel' =>
      match next orgiter with
      | Raise e => Some ([], e)
      | Ok (nfo, orgiter1) =>
          match tokens fuel' orgiter1 with
          | Some (l, e) => Some (nfo :: l, e)
          | None => None
          end
      end
  end.

(** [n] calls of [__next__] in a row: the tokens they return and the
    state they leave; the first exception ends the run. *)
Fixpoint take_tokens (n : nat) (orgiter : OrgParseIter)
  : result (list TokenInfo * OrgParseIter) :=
  match n with
  | 0 => Ok ([], orgiter)
  | S n' =>
      match next orgiter with
      | Raise e => Raise e
      | Ok (nfo, orgiter1) =>
          match take_tokens n' orgiter1 with
          | Ok (l, orgiter2) => Ok (nfo :: l, orgiter2)
          | Raise e => Raise e
          end
      end
  end.

(** The states a tokenizer over the lines [f] goes through. *)
Inductive reachable (f : list str) : OrgParseIter -> Prop :=
| reach_init : reachable f (OrgParseIter_init f)
| reach_next self nfo self' :
    reachable f self -> next self = Ok (nfo, self') -> reachable f self'.

(** The current line has been used up: the next call reads a line. *)
Definition consumed (self : OrgParseIter) : Prop :=
  match buf self with
  | None => True
  | Some b => length b <= bufpos self
  end.

(** The length of the longest prefix whose characters satisfy [p]. *)
Fixpoint prefix_len (p : ascii -> bool) (s : str) : nat :=
  match s with
  | c :: s' => if p c then S (prefix_len p s') else 0
  | [] => 0
  end.

Definition is_lower (c : ascii) : bool :=
  (97 <=? nat_of_ascii c) && (nat_of_ascii c <=? 122).

Definition exit_token (ln : nat) : TokenInfo := mkTokenInfo HLEXIT ln None.

(** ** Sample inputs *)

(** The first four lines of the end-to-end example. *)
Definition example_lines : list str :=
  map py ["* Top"; "** Sub"; "text1"; "* Next"]%string.

(** The tokenizer after [n] successful calls of [__next__]. *)
Definition after (n : nat) (orgiter : OrgParseIter) : OrgParseIter :=
  match take_tokens n orgiter with
  | Ok (_, orgiter') => orgiter'
  | Raise _ => orgiter
  end.

(** The value of a comment token as the specification words it: the line
    without the marker and without at most one space after it. *)
Definition comment_value_as_specified (b : str) : str :=
  match b with
  | "#" :: " " :: s => s
  | "#" :: s => s
  | _ => b
  end.

(** ** The serializer, line by line *)

(** The line [__dumps_node] writes for [child] at nesting level [level]. *)
Definition node_line (level : nat) (child : OrgNode) : str :=
  (if is_headline child then repeat "*" level ++ py " " else []) ++ node_str child.

(** The lines that [__dumps_node] joins for the children of [node], with
    the lines of nested calls spliced in. *)
Fixpoint dump_lines (node : OrgNode) (level : nat) {struct node} : list str :=
  match node with
  | mkNode _ _ chs =>
      flat_map (fun child => node_line level child :: dump_lines child (level + 1)) chs
  end.

Definition dump_forest (chs : list OrgNode) (level : nat) : list str :=
  flat_map (fun child => node_line level child :: dump_lines child (level + 1)) chs.

(** ** Lines and tokenizer states

    [plain_line b]: the tokenizer takes the line [b] for text: it is
    empty, or starts with neither marker, or starts with a run of heading
    markers that no whitespace follows. *)
Inductive plain_line : str -> Prop :=
| plain_empty : plain_line []
| plain_other c t : c <> "*" -> c <> "#" -> plain_line (c :: t)
| plain_stars_only r : 1 <= r -> plain_line (repeat "*" r)
| plain_stars r c t :
    1 <= r -> c <> "*" -> isspace c = false -> plain_line (repeat "*" r ++ c :: t).

(** The tokenizer is between two lines, at level [lv], with [ls] to read. *)
Definition idle (self : OrgParseIter) (lv : nat) (ls : list str) : Prop :=
  hold self = [] /\ consumed self /\ level self = lv /\ fileobj self = ls.

(** The tokenizer has read a heading of level [r] and still holds its
    token under [c] closing signals. *)
Definition pending (self : OrgParseIter) (r c : nat) (title : str) (ls : list str)
  : Prop :=
  exists ln,
    hold self = mkTokenInfo HEADLINE ln (Some title) :: repeat (exit_token ln) c
    /\ consumed self /\ level self = r /\ fileobj self = ls.

(** The tokenizer has nothing left to give. *)
Definition exhausted (self : OrgParseIter) : Prop :=
  hold self = [] /\ consumed self /\ fileobj self = [].

(** [node] after [kids] were appended to its children. *)
Definition with_children (node : OrgNode) (kids : list OrgNode) : OrgNode :=
  mkNode (cls node) (text node) (children node ++ kids).

(** [parse_loop], started in [self] for the node [dest], appends [kids]
    and leaves the tokenizer in [self'], whenever [fuel0] or more steps
    are allowed. *)
Definition runs_to (self : OrgParseIter) (dest : OrgNode) (lvl room : nat)
  (dname : option str) (kids : list OrgNode) (self' : OrgParseIter) (fuel0 : nat)
  : Prop :=
  forall fuel, fuel0 <= fuel ->
    parse_loop fuel self dest lvl room None dname
      = Some (Ok (with_children dest kids, self')).

(** A document with all four kinds of node, with trailing whitespace,
    with a tag group set off by several spaces, and with a directive
    without arguments. *)
Definition example_document : list str :=
  map py ["* Top"; "** Sub"; "text1  "; ""; "* Next"; "#+NAME: foo";
          "# a remark"; "** TODO [#A] Buy milk :errand:";
          "* Buy milk   :errand:"; "#+OPTIONS:"]%string.

(** Whether a match attempt succeeded. *)
Definition matched (o : option groups) : bool :=
  match o with
  | Some _ => true
  | None => false
  end.

(** The parts of [RX_HEADLINE]: the keyword, the priority cookie, the
    title, and what follows the title. *)
Definition RX_KEYWORD : regex :=
  ROpt (RGroup 1 (RSeq (ROpt (RGroup 2 (RAlt (rlit "TODO") (rlit "DONE"))))
                       (RPlus RSpace))).

Definition RX_PRIORITY : regex :=
  ROpt (RGroup 3 (rseq [ rlit "[#";
                         RGroup 4 (RAlt (RChar "A") (RAlt (RChar "B") (RChar "C")));
                         RChar "]";
                         RPlus RSpace ])).

Definition RX_TITLE : regex := ROpt (RGroup 5 (RLazyStar RAny)).

Definition RX_TAIL : regex :=
  rseq [ ROpt (RGroup 6 (rseq [ RChar ":"; RGroup 7 (RStar RNonSpace); RChar ":" ]));
         RStar RSpace;
         REol ].

(** The continuation [pattern.match] ends with. *)
Definition accept : str -> groups -> option groups := fun _ g => Some g.

(** ** [OrgNode.find_child_by_text]

    [NodeType] names the classes that [childtype] can be compared with:
    the four node classes, the parser class, and [OrgNodeT] for the base
    class [OrgNode], of which the tree holds no direct instance. *)
Inductive NodeType : Type :=
| OrgNodeT
| OrgHeadlineNodeT
| OrgTextNodeT
| OrgCommentNodeT
| OrgDirectiveNodeT
| MinimalOrgParserT.

(** [type(child)]. *)
Definition type_of (n : OrgNode) : NodeType :=
  match cls n with
  | Headline _ _ _ => OrgHeadlineNodeT
  | Text => OrgTextNodeT
  | Comment => OrgCommentNodeT
  | Directive _ => OrgDirectiveNodeT
  | Parser => MinimalOrgParserT
  end.

(** [a is b] on classes. *)
Definition NodeType_is (a b : NodeType) : bool :=
  match a, b with
  | OrgNodeT, OrgNodeT | OrgHeadlineNodeT, OrgHeadlineNodeT
  | OrgTextNodeT, OrgTextNodeT | OrgCommentNodeT, OrgCommentNodeT
  | OrgDirectiveNodeT, OrgDirectiveNodeT
  | MinimalOrgParserT, MinimalOrgParserT => true
  | _, _ => false
  end.

(** The test that lets the loop of [find_child_by_text] return [child]:
    neither [continue] is taken. *)
Definition child_matches (txt : str) (childtype : option NodeType) (child : OrgNode)
  : bool :=
  if negb (str_eqb (text child) txt) then false
  else
    match childtype with
    | Some ct => if negb (NodeType_is (type_of child) ct) then false else true
    | None => true
    end.

(** The loop of [find_child_by_text] over the children that are left;
    [None] is the [None] a Python function returns when it falls off its
    end. *)
Fixpoint find_in (chs : list OrgNode) (txt : str) (childtype : option NodeType)
  : option OrgNode :=
  match chs with
  | [] => None
  | child :: rest =>
      if child_matches txt childtype child then Some child
      else find_in rest txt childtype
  end.

Definition find_child_by_text (self : OrgNode) (txt : str)
  (childtype : option NodeType) : option OrgNode :=
  find_in (children self) txt childtype.

(** ** What the tokenizer keeps true *)

(** A heading title as the tokenizer hands it on: not empty, and without
    whitespace at either end. *)
Definition title_ok (v : option str) : Prop :=
  exists s, v = Some s /\ s <> [] /\ lstrip s = s /\ rstrip s = s.

(** The pending buffer holds nothing, or one TEXT token, or one HEADLINE
    token under closing signals, no more of them than levels were given
    up by the line read last. *)
Definition hold_shape (self : OrgParseIter) : Prop :=
  hold self = []
  \/ (exists t, hold self = [t] /\ type t = TEXT)
  \/ (exists h rest,
        hold self = h :: rest /\ type h = HEADLINE
        /\ Forall (fun t => type t = HLEXIT) rest
        /\ level self + length rest <= oldlevel self
        /\ oldlevel self < lineno self).

Record tokenizer_inv (f : list str) (self : OrgParseIter) : Prop := mk_tokenizer_inv {
  inv_lineno : lineno self <= length f;
  inv_fileobj : fileobj self = skipn (lineno self) f;
  inv_hold_line :
    Forall (fun t => line t = lineno self /\ 1 <= lineno self) (hold self);
  inv_hold_title :
    Forall (fun t => type t = HEADLINE -> title_ok (value t)) (hold self);
  inv_shape : hold_shape self;
  inv_level : level self <= lineno self;
  inv_oldlevel : oldlevel self <= lineno self }.

(** ** What a line becomes

    [heading_run b]: the number of heading markers of the line [b], if
    the tokenizer takes [b] for a heading: a run of markers with a
    whitespace character right after it. *)
Definition heading_run (b : str) : option nat :=
  if startswith b "*" then
    let r := prefix_len is_star b in
    match nth_error b r with
    | Some c => if isspace c then Some r else None
    | None => None
    end
  else None.

(** The nesting level once the line [b] has been read at level [lv]. *)
Definition level_after (lv : nat) (b : str) : nat :=
  match heading_run b with
  | Some r => new_level lv r
  | None => lv
  end.

(** The lines of an input, trailing whitespace stripped, each with the
    nesting level in force once it has been read; [lv] is the level
    before the first of them. *)
Fixpoint trace (lv : nat) (ls : list str) : list (nat * str) :=
  match ls with
  | [] => []
  | l :: ls' =>
      (level_after lv (rstrip l), rstrip l) :: trace (level_after lv (rstrip l)) ls'
  end.

(** The control word and the arguments of the directive that the line
    [#cw] is, if it is one. *)
Definition directive_parts (cw : str) : option (str * str) :=
  match cw with
  | c :: w =>
      if Ascii.eqb c "+" then
        match find ":" w 0 with
        | Some i =>
            if forallb is_ctl_char (firstn i w)
            then Some (firstn i w, strip (skipn (S i) w))
            else None
        | None => None
        end
      else None
  | [] => None
  end.

(** [line_node b n]: [n] is the node that the line [b] becomes, with
    whatever children a heading has collected. *)
Inductive line_node : str -> OrgNode -> Prop :=
| ln_text b :
    startswith b "#" = false -> heading_run b = None ->
    line_node b (mkNode Text b [])
| ln_comment cw :
    cw <> [] -> directive_parts cw = None ->
    line_node ("#" :: cw) (mkNode Comment (lstrip cw) [])
| ln_directive cw name args :
    directive_parts cw = Some (name, args) ->
    line_node ("#" :: cw) (mkNode (Directive name) args [])
| ln_heading b r node kids :
    heading_run b = Some r ->
    OrgHeadlineNode (lstrip (skipn r b)) = Ok node ->
    line_node b (with_children node kids).

(** The nodes below [node] in document order, each with its depth; the
    children of [node] are at depth [depth]. *)
Fixpoint nodes_below (node : OrgNode) (depth : nat) {struct node}
  : list (nat * OrgNode) :=
  match node with
  | mkNode _ _ chs =>
      flat_map (fun child => (depth, child) :: nodes_below child (depth + 1)) chs
  end.

Definition forest_nodes (chs : list OrgNode) (depth : nat) : list (nat * OrgNode) :=
  flat_map (fun child => (depth, child) :: nodes_below child (depth + 1)) chs.

(** The node [snd q] at depth [fst q] is the node of the line [snd p],
    where it belongs: a heading at the depth that is its level, any
    other node one below the level in force. *)
Definition placed (p : nat * str) (q : nat * OrgNode) : Prop :=
  line_node (snd p) (snd q)
  /\ fst q = if is_headline (snd q) then fst p else fst p + 1.

(** The line that makes [__next__] raise. *)
Definition marker_only (b : str) : Prop := b = ["#"].

(** The states of the loop of a [parse_block] call at depth [d], for any
    input: the lines still to be turned into nodes come with their
    levels. *)
Inductive frame2 (d : nat) (self : OrgParseIter) : list (nat * str) -> Prop :=
| frame2_idle ls : idle self d ls -> frame2 d self (trace d ls)
| frame2_pending r c b title ls :
    pending self r c title ls -> r + c = d + 1 -> 1 <= r ->
    (exists r', heading_run b = Some r' /\ title = lstrip (skipn r' b)) ->
    frame2 d self ((r, b) :: trace r ls).

Definition frame_result2 (d : nat) (rem : list (nat * str)) (kids : list OrgNode)
  (self' : OrgParseIter) : Prop :=
  exists done rest,
    rem = done ++ rest
    /\ Forall2 placed done (forest_nodes kids (d + 1))
    /\ ((exhausted self' /\ rest = [])
        \/ (exists d', d = S d' /\ frame2 d' self' rest)).

(** A computation that gives [IndexError] whenever [fuel0] or more steps
    are allowed. *)
Definition raises_from (fuel0 : nat)
  (run : nat -> option (result (OrgNode * OrgParseIter))) : Prop :=
  forall fuel, fuel0 <= fuel -> run fuel = Some (Raise IndexError).

(** A computation that gives the node [dest] with [kids] appended, and
    the tokenizer state [self'], whenever [fuel0] or more steps are
    allowed. *)
Definition returns_from (fuel0 : nat)
  (run : nat -> option (result (OrgNode * OrgParseIter)))
  (dest : OrgNode) (kids : list OrgNode) (self' : OrgParseIter) : Prop :=
  forall fuel, fuel0 <= fuel -> run fuel = Some (Ok (with_children dest kids, self')).

(** What a [parse_block] call at depth [d] comes to, with the lines [rem]
    to go: it raises, on a line that is the marker alone, or it returns
    as [frame_result2] says. *)
Definition frame_outcome (d : nat) (rem : list (nat * str))
  (run : nat -> option (result (OrgNode * OrgParseIter))) (dest : OrgNode) : Prop :=
  (Exists (fun p => marker_only (snd p)) rem /\ exists fuel0, raises_from fuel0 run)
  \/ (exists kids self' fuel0,
        returns_from fuel0 run dest kids self' /\ frame_result2 d rem kids self').

(** The line that [dumps] writes for the line [snd p] read into level
    [fst p]: a heading gets as many markers as its level, one space and
    the rendered title; a directive its control word, a colon, one space
    and its stripped arguments; a comment the marker, one space and its
    text without leading whitespace; a text line stays as it is. *)
Definition normal_line (p : nat * str) : str :=
  match heading_run (snd p) with
  | Some r =>
      match OrgHeadlineNode (lstrip (skipn r (snd p))) with
      | Ok node => repeat "*" (fst p) ++ py " " ++ node_str node
      | Raise _ => []
      end
  | None =>
      match snd p with
      | "#" :: cw =>
          match directive_parts cw with
          | Some (name, args) => py "#+" ++ name ++ py ": " ++ args
          | None => py "# " ++ lstrip cw
          end
      | _ => snd p
      end
  end.


(** [nesting_within limit lines]: no line of the input is read into a
    nesting level above [limit]. *)
Definition nesting_within (limit : nat) (lines : list str) : Prop :=
  Forall (fun p => fst p <= limit) (trace 0 lines).

(** ** What a match consists of

    [derives subject r s g s' g']: one way in which [r] matches at the
    front of [s]: it takes the characters of [s] in front of [s'] and
    turns the groups [g] into [g'].  The matcher [rmatch] finds one of
    these ways, or none. *)
Inductive derives (subject : str)
  : regex -> str -> groups -> str -> groups -> Prop :=
| d_char c s g : derives subject (RChar c) (c :: s) g s g
| d_any x s g : x <> newline -> derives subject RAny (x :: s) g s g
| d_space x s g : isspace x = true -> derives subject RSpace (x :: s) g s g
| d_nonspace x s g :
    isspace x = false -> derives subject RNonSpace (x :: s) g s g
| d_bol s g : length s = length subject -> derives subject RBol s g s g
| d_eol_end g : derives subject REol [] g [] g
| d_eol_newline g : derives subject REol [newline] g [newline] g
| d_empty s g : derives subject REmpty s g s g
| d_seq r1 r2 s g s1 g1 s2 g2 :
    derives subject r1 s g s1 g1 -> derives subject r2 s1 g1 s2 g2 ->
    derives subject (RSeq r1 r2) s g s2 g2
| d_alt_left r1 r2 s g s' g' :
    derives subject r1 s g s' g' -> derives subject (RAlt r1 r2) s g s' g'
| d_alt_right r1 r2 s g s' g' :
    derives subject r2 s g s' g' -> derives subject (RAlt r1 r2) s g s' g'
| d_opt_some r s g s' g' :
    derives subject r s g s' g' -> derives subject (ROpt r) s g s' g'
| d_opt_none r s g : derives subject (ROpt r) s g s g
| d_star_end r s g : derives subject (RStar r) s g s g
| d_star_more r s g s1 g1 s2 g2 :
    derives subject r s g s1 g1 -> derives subject (RStar r) s1 g1 s2 g2 ->
    derives subject (RStar r) s g s2 g2
| d_lazy_end r s g : derives subject (RLazyStar r) s g s g
| d_lazy_more r s g s1 g1 s2 g2 :
    derives subject r s g s1 g1 -> derives subject (RLazyStar r) s1 g1 s2 g2 ->
    derives subject (RLazyStar r) s g s2 g2
| d_group n r s g s' g' :
    derives subject r s g s' g' ->
    derives subject (RGroup n r) s g s'
            (set_group n (firstn (length s - length s') s) g').

(** Whitespace only. *)
Definition blank (w : str) : bool := forallb isspace w.

(** No whitespace. *)
Definition solid (w : str) : bool := forallb (fun c => negb (isspace c)) w.

(** The parts of a heading title that a match of [RX_HEADLINE] tells
    apart, each with the group that records it: the keyword with the
    whitespace after it (group 2 has the keyword), the priority cookie
    with the whitespace after it (group 4 has the letter), and what
    follows the title text (group 7 has the tags between the outer
    colons). *)
Inductive keyword_part : str -> option str -> Prop :=
| kw_absent : keyword_part [] None
| kw_blank w : w <> [] -> blank w = true -> keyword_part w None
| kw_word k w :
    k = py "TODO" \/ k = py "DONE" -> w <> [] -> blank w = true ->
    keyword_part (k ++ w) (Some k).

Inductive priority_part : str -> option str -> Prop :=
| prio_absent : priority_part [] None
| prio_cookie c w :
    c = "A" \/ c = "B" \/ c = "C" -> w <> [] -> blank w = true ->
    priority_part ("[" :: "#" :: c :: "]" :: w) (Some [c]).

Inductive tail_part : str -> option str -> Prop :=
| tail_blank w : blank w = true -> tail_part w None
| tail_tags X w :
    solid X = true -> blank w = true ->
    tail_part (":" :: X ++ ":" :: w) (Some X).

(** ** Inputs that the serializer gives back

    [drop_prefix p s]: what follows [p] in [s], if [s] starts with [p]. *)
Fixpoint drop_prefix (p s : str) : option str :=
  match p, s with
  | [], _ => Some s
  | c :: p', x :: s' => if Ascii.eqb c x then drop_prefix p' s' else None
  | _ :: _, [] => None
  end.

Fixpoint after_any (words : list str) (s : str) : option str :=
  match words with
  | [] => None
  | w :: words' =>
      match drop_prefix w s with
      | Some r => Some r
      | None => after_any words' s
      end
  end.

Definition keywords : list str := [py "TODO"; py "DONE"].

Definition cookies : list str := [py "[#A]"; py "[#B]"; py "[#C]"].

Definition starts_blank (s : str) : bool :=
  match s with
  | c :: _ => isspace c
  | [] => false
  end.

(** [marked words s]: [s] starts with one of [words] and whitespace
    follows the word; the result is what follows the word. *)
Definition marked (words : list str) (s : str) : option str :=
  match after_any words s with
  | Some r => if starts_blank r then Some r else None
  | None => None
  end.

(** One space, and no whitespace after it. *)
Definition one_space (r : str) : bool :=
  match r with
  | c :: r' => Ascii.eqb c " " && negb (starts_blank r')
  | [] => false
  end.

(** [single_spaced title]: a keyword at the start of the title is
    followed by exactly one space, and so is a priority cookie at the
    start of the title or right after the keyword. *)
Definition single_spaced (title : str) : bool :=
  match marked keywords title with
  | Some r =>
      one_space r
      && match marked cookies (tl r) with
         | Some r2 => one_space r2
         | None => true
         end
  | None =>
      match marked cookies title with
      | Some r2 => one_space r2
      | None => true
      end
  end.

(** A tag group: colons around characters that are not whitespace. *)
Definition tag_group (g : str) : Prop :=
  exists X, g = ":" :: X ++ [":"] /\ solid X = true.

(** [same_title a b]: the titles [a] and [b] are equal, or they differ
    only in the whitespace in front of the tag group that ends both. *)
Definition same_title (a b : str) : Prop :=
  a = b
  \/ exists p w w' g,
       a = p ++ w ++ g /\ b = p ++ w' ++ g
       /\ blank w = true /\ blank w' = true /\ tag_group g.

(** [same_line a b]: the lines [a] and [b] are equal up to trailing
    whitespace and up to the whitespace in front of a tag group at their
    end. *)
Definition same_line (a b : str) : Prop := same_title (rstrip a) (rstrip b).

(** [canonical lv ls]: read at nesting level [lv], every line of [ls],
    once its trailing whitespace is gone, is
    - a text line; or
    - a comment line with exactly one space between the marker and a
      text that does not start with whitespace; or
    - a directive line: marker, sigil, a control word of upper-case
      letters and underscores, a colon, and then nothing or one space
      and arguments that do not start with whitespace; or
    - a heading line: [r] markers, one space, and a title that does not
      start with whitespace and is [single_spaced], with [r] at most one
      more than the level before the line. *)
Inductive canonical : nat -> list str -> Prop :=
| canon_nil lv : canonical lv []
| canon_text lv l ls :
    plain_line (rstrip l) -> canonical lv ls -> canonical lv (l :: ls)
| canon_comment lv l t ls :
    rstrip l = "#" :: " " :: t -> lstrip t = t ->
    canonical lv ls -> canonical lv (l :: ls)
| canon_directive lv l name rest ls :
    rstrip l = "#" :: "+" :: name ++ ":" :: rest ->
    forallb is_ctl_char name = true ->
    rest = [] \/ (exists args, rest = " " :: args /\ lstrip args = args) ->
    canonical lv ls -> canonical lv (l :: ls)
| canon_heading lv l r title ls :
    rstrip l = repeat "*" r ++ " " :: title ->
    1 <= r -> r <= lv + 1 -> lstrip title = title ->
    single_spaced title = true ->
    canonical r ls -> canonical lv (l :: ls).
(** * Properties *)

(** ** Strings *)

Lemma pop_nil (A : Type) : pop (@nil A) = None.
Proof. reflexivity. Qed.

Lemma pop_snoc (A : Type) (l : list A) (x : A) : pop (l ++ [x]) = Some (l, x).
Proof. unfold pop. rewrite rev_app_distr. simpl. now rewrite rev_involutive. Qed.

Lemma pop_none (A : Type) (l : list A) : pop l = None -> l = [].
Proof.
  destruct l as [|a l] using rev_ind; [reflexivity|].
  now rewrite pop_snoc.
Qed.

Lemma scan_while_prefix_len p rest pos :
  scan_while p rest pos = pos + prefix_len p rest.
Proof.
  revert pos. induction rest as [|c rest IH]; intros pos; simpl.
  - lia.
  - destruct (p c); [rewrite IH|]; lia.
Qed.

Lemma skipn_add (A : Type) (n m : nat) (l : list A) :
  skipn (n + m) l = skipn m (skipn n l).
Proof.
  revert l. induction n as [|n IH]; intros l; simpl; [reflexivity|].
  destruct l; [now rewrite skipn_nil | apply IH].
Qed.

Lemma skipn_prefix_len_lstrip s : skipn (prefix_len isspace s) s = lstrip s.
Proof.
  induction s as [|c s IH]; simpl; [reflexivity|].
  destruct (isspace c); simpl; [apply IH | reflexivity].
Qed.

Lemma skip_space_skipn b pos : skipn (skip_space b pos) b = lstrip (skipn pos b).
Proof.
  unfold skip_space. rewrite scan_while_prefix_len, skipn_add.
  apply skipn_prefix_len_lstrip.
Qed.

Lemma isspace_not_star c : isspace c = true -> is_star c = false.
Proof.
  destruct c as [[] [] [] [] [] [] [] []]; vm_compute; congruence.
Qed.

Lemma is_lower_not_ctl c : is_lower c = true -> is_ctl_char c = false.
Proof.
  destruct c as [[] [] [] [] [] [] [] []]; vm_compute; congruence.
Qed.

Lemma prefix_len_stars r c t :
  is_star c = false -> prefix_len is_star (repeat "*" r ++ c :: t) = r.
Proof.
  intros Hc. induction r as [|r IH]; simpl.
  - now rewrite Hc.
  - now rewrite IH.
Qed.

Lemma prefix_len_stars_end r : prefix_len is_star (repeat "*" r) = r.
Proof. induction r as [|r IH]; simpl; [reflexivity | now rewrite IH]. Qed.

Lemma nth_error_stars r c t : nth_error (repeat "*" r ++ c :: t) r = Some c.
Proof.
  rewrite nth_error_app2; rewrite repeat_length; [|lia].
  now rewrite Nat.sub_diag.
Qed.

Lemma skipn_stars r (t : str) : skipn r (repeat "*" r ++ t) = t.
Proof.
  rewrite skipn_app, repeat_length, Nat.sub_diag.
  rewrite skipn_all2; [reflexivity | rewrite repeat_length; lia].
Qed.

Lemma lstrip_space c s : isspace c = true -> lstrip (c :: s) = lstrip s.
Proof. intros H. simpl. now rewrite H. Qed.

(** ** One call of [__next__] *)

Ltac case_scrutinee H :=
  match type of H with
  | context [match ?x with _ => _ end] =>
      lazymatch x with
      | context [match _ with _ => _ end] => fail
      | _ => let E := fresh "E" in destruct x eqn:E
      end
  | context [if ?x then _ else _] =>
      lazymatch x with
      | context [if _ then _ else _] => fail
      | _ => let E := fresh "E" in destruct x eqn:E
      end
  end.

Lemma next_pop self h t :
  hold self = h ++ [t] -> next self = Ok (t, set_hold self h).
Proof. intros H. unfold next. now rewrite H, pop_snoc. Qed.

Lemma next_pop_single self t :
  hold self = [t] -> next self = Ok (t, set_hold self []).
Proof. intros H. now apply (next_pop self []). Qed.

Lemma next_read self l more :
  hold self = [] -> consumed self -> fileobj self = l :: more ->
  next self =
    next_scan (mkOrgParseIter more (Some (rstrip l)) 0 (level self)
                              (oldlevel self) [] (S (lineno self)))
              (rstrip l).
Proof.
  intros Hh Hc Hf. unfold next, consumed in *. rewrite Hh, Hf. simpl.
  destruct (buf self) as [b|]; [|reflexivity].
  apply Nat.leb_le in Hc. now rewrite Hc.
Qed.

Lemma next_eof self :
  hold self = [] -> consumed self -> fileobj self = [] ->
  next self = Raise StopIteration.
Proof.
  intros Hh Hc Hf. unfold next, consumed in *. rewrite Hh, Hf. simpl.
  destruct (buf self) as [b|]; [|reflexivity].
  apply Nat.leb_le in Hc. now rewrite Hc.
Qed.

(** Every token in the pending buffer is a heading, a closing signal or
    a text, and only closing signals lack a value. *)
Definition held (t : TokenInfo) : Prop :=
  type t <> DIRECTIVE /\ type t <> COMMENT /\ (type t = HLEXIT \/ value t <> None).

Lemma next_scan_inv self b nfo self' :
  buf self = Some b -> hold self = [] ->
  next_scan self b = Ok (nfo, self') ->
  consumed self' /\ Forall held (hold self') /\ (type nfo = HLEXIT \/ value nfo <> None).
Proof.
  intros Hb Hh H. unfold consumed.
  unfold next_scan, next_headline, next_comment, next_rest in H.
  repeat case_scrutinee H; inversion H; subst; clear H; simpl;
    rewrite ?Hb, ?Hh; simpl;
    repeat split; try lia; try (right; discriminate); try (now left);
    try (apply Nat.eqb_eq in E; lia); try (now constructor).
  - constructor; [unfold held; simpl; repeat split; try discriminate; right; discriminate|].
    apply Forall_forall. intros x Hx. apply repeat_spec in Hx. subst x.
    unfold held; simpl. repeat split; try discriminate. now left.
  - constructor; [|constructor].
    unfold held; simpl; repeat split; try discriminate. right; discriminate.
Qed.

Lemma next_inv self nfo self' :
  consumed self -> Forall held (hold self) -> next self = Ok (nfo, self') ->
  consumed self' /\ Forall held (hold self') /\ (type nfo = HLEXIT \/ value nfo <> None).
Proof.
  intros Hc Hh H. unfold next in H.
  destruct (pop (hold self)) as [[h t]|] eqn:Ep.
  - inversion H; subst; clear H.
    assert (Hs : hold self = h ++ [nfo]).
    { destruct (hold self) as [|a l] using rev_ind; [discriminate|].
      rewrite pop_snoc in Ep. now inversion Ep. }
    rewrite Hs in Hh. apply Forall_app in Hh as [Hh1 Hh2].
    repeat split; [exact Hc | exact Hh1 |].
    inversion Hh2; subst. unfold held in *. tauto.
  - apply pop_none in Ep.
    destruct (fileobj self) as [|l more] eqn:Ef.
    + simpl in H.
      destruct (buf self) as [b|] eqn:Eb; [|discriminate].
      destruct (length b <=? bufpos self); [discriminate|].
      now apply (next_scan_inv self b).
    + simpl in H. rewrite Ep in H.
      destruct (buf self) as [b|] eqn:Eb.
      * destruct (length b <=? bufpos self).
        -- now apply next_scan_inv in H.
        -- now apply (next_scan_inv self b).
      * now apply next_scan_inv in H.
Qed.

Lemma reachable_inv f self :
  reachable f self -> consumed self /\ Forall held (hold self).
Proof.
  induction 1 as [|self nfo self' _ [IHc IHh] Hn].
  - split; [exact I | constructor].
  - destruct (next_inv _ _ _ IHc IHh Hn) as (? & ? & _). now split.
Qed.

(** A token other than a closing signal carries a value. *)
Lemma reachable_value f self nfo self' :
  reachable f self -> next self = Ok (nfo, self') ->
  type nfo <> HLEXIT -> value nfo <> None.
Proof.
  intros Hr Hn Ht. destruct (reachable_inv _ _ Hr) as [Hc Hh].
  destruct (next_inv _ _ _ Hc Hh Hn) as (_ & _ & [?|?]); [contradiction | assumption].
Qed.

(** ** Heading lines *)

Lemma repeat_snoc (A : Type) (x : A) (n : nat) : repeat x (S n) = repeat x n ++ [x].
Proof. induction n as [|n IH]; simpl in *; [reflexivity | now rewrite <- IH]. Qed.

Lemma next_scan_heading more b lv old ln r c t :
  b = repeat "*" r ++ c :: t -> 1 <= r -> isspace c = true ->
  next_scan (mkOrgParseIter more (Some b) 0 lv old [] ln) b =
    if new_level lv r <=? lv
    then Ok (exit_token ln,
             mkOrgParseIter more (Some b) (length b) (new_level lv r) lv
               (mkTokenInfo HEADLINE ln (Some (lstrip t))
                  :: repeat (exit_token ln) (lv - new_level lv r)) ln)
    else Ok (mkTokenInfo HEADLINE ln (Some (lstrip t)),
             mkOrgParseIter more (Some b) (length b) (new_level lv r) lv [] ln).
Proof.
  intros Hb Hr Hc.
  assert (Hlen : length b = r + S (length t)).
  { subst b. rewrite length_app, repeat_length. reflexivity. }
  unfold next_scan.
  destruct (length b =? 0) eqn:E0; [apply Nat.eqb_eq in E0; lia|].
  assert (Hs : startswith b "*" = true).
  { subst b. destruct r; [lia | reflexivity]. }
  rewrite Hs. unfold next_headline. cbn [bufpos lineno level hold skipn].
  rewrite scan_while_prefix_len. cbn [Nat.add].
  assert (Hp : prefix_len is_star b = r).
  { subst b. apply prefix_len_stars. now apply isspace_not_star. }
  rewrite Hp.
  destruct (length b <=? r) eqn:E1; [apply Nat.leb_le in E1; lia|].
  assert (Hn : nth_error b r = Some c) by (subst b; apply nth_error_stars).
  rewrite Hn, Hc. cbn [negb].
  rewrite skip_space_skipn.
  assert (Hk : skipn r b = c :: t) by (subst b; apply skipn_stars).
  rewrite Hk, (lstrip_space _ _ Hc).
  destruct (new_level lv r <=? lv); reflexivity.
Qed.

Lemma next_heading self l more r c t :
  hold self = [] -> consumed self -> fileobj self = l :: more ->
  rstrip l = repeat "*" r ++ c :: t -> 1 <= r -> isspace c = true ->
  next self =
    if new_level (level self) r <=? level self
    then Ok (exit_token (S (lineno self)),
             mkOrgParseIter more (Some (rstrip l)) (length (rstrip l))
               (new_level (level self) r) (level self)
               (mkTokenInfo HEADLINE (S (lineno self)) (Some (lstrip t))
                  :: repeat (exit_token (S (lineno self)))
                            (level self - new_level (level self) r))
               (S (lineno self)))
    else Ok (mkTokenInfo HEADLINE (S (lineno self)) (Some (lstrip t)),
             mkOrgParseIter more (Some (rstrip l)) (length (rstrip l))
               (new_level (level self) r) (level self) [] (S (lineno self))).
Proof.
  intros Hh Hc Hf Hb Hr Hs.
  rewrite (next_read _ _ _ Hh Hc Hf).
  now apply next_scan_heading with (c := c).
Qed.

Lemma set_hold_set_hold self h1 h2 : set_hold (set_hold self h1) h2 = set_hold self h2.
Proof. reflexivity. Qed.

Lemma take_tokens_S n self :
  take_tokens (S n) self =
    match next self with
    | Raise e => Raise e
    | Ok (nfo, o1) =>
        match take_tokens n o1 with
        | Ok (l, o2) => Ok (nfo :: l, o2)
        | Raise e => Raise e
        end
    end.
Proof. reflexivity. Qed.

(** A queued heading under [c] closing signals comes out after them. *)
Lemma take_tokens_pending self x h c :
  hold self = h :: repeat x c ->
  take_tokens (S c) self = Ok (repeat x c ++ [h], set_hold self []).
Proof.
  revert self. induction c as [|c IH]; intros self Hh.
  - simpl. rewrite (next_pop self [] h) by exact Hh. reflexivity.
  - rewrite repeat_snoc, app_comm_cons in Hh.
    rewrite take_tokens_S, (next_pop _ _ _ Hh).
    rewrite (IH (set_hold self (h :: repeat x c))) by reflexivity.
    rewrite set_hold_set_hold.
    replace (x :: repeat x c ++ [h]) with (repeat x (S c) ++ [h]) by reflexivity.
    reflexivity.
Qed.

(** The tokens of a heading line that does not go deeper: the closing
    signals, one more than the levels given up, then the heading. *)
Lemma heading_line_tokens self l more r c t :
  hold self = [] -> consumed self -> fileobj self = l :: more ->
  rstrip l = repeat "*" r ++ c :: t -> 1 <= r -> isspace c = true ->
  r <= level self ->
  take_tokens (level self - r + 2) self =
    Ok (repeat (exit_token (S (lineno self))) (level self - r + 1)
          ++ [mkTokenInfo HEADLINE (S (lineno self)) (Some (lstrip t))],
        mkOrgParseIter more (Some (rstrip l)) (length (rstrip l)) r (level self)
                       [] (S (lineno self))).
Proof.
  intros Hh Hc Hf Hb Hr Hs Hle.
  replace (level self - r + 2) with (S (S (level self - r))) by lia.
  replace (level self - r + 1) with (S (level self - r)) by lia.
  rewrite take_tokens_S, (next_heading _ _ _ _ _ _ Hh Hc Hf Hb Hr Hs).
  assert (Hnl : new_level (level self) r = r).
  { unfold new_level.
    destruct (level self <? r) eqn:E1; [apply Nat.ltb_lt in E1; lia|].
    destruct (r <? level self) eqn:E2; [reflexivity|].
    apply Nat.ltb_ge in E1, E2. lia. }
  rewrite Hnl.
  destruct (r <=? level self) eqn:E; [|apply Nat.leb_gt in E; lia].
  erewrite take_tokens_pending by reflexivity.
  reflexivity.
Qed.

(** ** Comment and directive lines *)

Lemma find_from_shift c rest pos :
  find_from c rest pos = option_map (Nat.add pos) (find_from c rest 0).
Proof.
  revert pos. induction rest as [|x rest IH]; intros pos; simpl; [reflexivity|].
  destruct (Ascii.eqb x c); simpl; [f_equal; lia|].
  rewrite IH, (IH 1). destruct (find_from c rest 0); simpl; [f_equal; lia | reflexivity].
Qed.

Lemma find_none c (s : str) : ~ In c s -> find c s 0 = None.
Proof.
  unfold find. simpl. induction s as [|x s IH]; intros Hn; simpl; [reflexivity|].
  destruct (Ascii.eqb x c) eqn:E.
  - apply Ascii.eqb_eq in E. subst. exfalso. apply Hn. now left.
  - rewrite find_from_shift, IH; [reflexivity|]. intros Hi. apply Hn. now right.
Qed.

Lemma find_first c (pre post : str) :
  ~ In c pre -> find c (pre ++ c :: post) 0 = Some (length pre).
Proof.
  unfold find. simpl. induction pre as [|x pre IH]; intros Hn; simpl.
  - now rewrite Ascii.eqb_refl.
  - destruct (Ascii.eqb x c) eqn:E.
    + apply Ascii.eqb_eq in E. subst. exfalso. apply Hn. now left.
    + rewrite find_from_shift, IH; [reflexivity|]. intros Hi. apply Hn. now right.
Qed.

(** What [__next__] does with a fresh line that starts with the comment
    marker and has at least one more character. *)
Lemma next_scan_hash more lv old ln c w :
  next_scan (mkOrgParseIter more (Some ("#" :: c :: w)) 0 lv old [] ln)
            ("#" :: c :: w) =
    let after := mkOrgParseIter more (Some ("#" :: c :: w))
                                (length ("#" :: c :: w)) lv old in
    let fallback :=
      Ok (mkTokenInfo COMMENT ln (Some (lstrip (c :: w))), after [] ln) in
    if Ascii.eqb c "+" then
      match find ":" w 0 with
      | None => fallback
      | Some i =>
          if forallb is_ctl_char (firstn i w)
          then Ok (mkTokenInfo DIRECTIVE ln (Some (firstn i w)),
                   after [mkTokenInfo TEXT ln (Some (strip (skipn (S i) w)))] ln)
          else fallback
      end
    else fallback.
Proof.
  unfold next_scan, next_comment, next_rest, set_hold, set_bufpos.
  cbn [length Nat.eqb startswith bufpos lineno hold fileobj buf level
       oldlevel nth_error app].
  change (Ascii.eqb "#" "*") with false. change (Ascii.eqb "#" "#") with true.
  cbv iota zeta. cbn [Nat.add nth_error].
  rewrite skip_space_skipn. cbn [skipn].
  destruct (_ <? _) eqn:E1; [| apply Nat.ltb_ge in E1; cbn in E1; lia].
  destruct (Ascii.eqb c "+"); [|reflexivity].
  unfold find. cbn [skipn]. rewrite (find_from_shift _ w 2).
  destruct w as [|x w']; [reflexivity|].
  destruct (_ <=? 2) eqn:E2; [apply Nat.leb_le in E2; cbn in E2; lia|].
  destruct (find_from ":" (x :: w') 0) as [i|]; [|reflexivity].
  cbn [option_map]. unfold is_ctl_word, slice.
  replace (2 + i - 2) with i by lia.
  replace (2 + i + 1) with (S (S (S i))) by lia. cbn [skipn].
  destruct (forallb is_ctl_char (firstn i (x :: w'))); reflexivity.
Qed.

Lemma next_hash self l more c w :
  hold self = [] -> consumed self -> fileobj self = l :: more ->
  rstrip l = "#" :: c :: w ->
  next self =
    let after := mkOrgParseIter more (Some (rstrip l)) (length (rstrip l))
                                (level self) (oldlevel self) in
    let fallback :=
      Ok (mkTokenInfo COMMENT (S (lineno self)) (Some (lstrip (c :: w))),
          after [] (S (lineno self))) in
    if Ascii.eqb c "+" then
      match find ":" w 0 with
      | None => fallback
      | Some i =>
          if forallb is_ctl_char (firstn i w)
          then Ok (mkTokenInfo DIRECTIVE (S (lineno self)) (Some (firstn i w)),
                   after [mkTokenInfo TEXT (S (lineno self))
                                      (Some (strip (skipn (S i) w)))]
                         (S (lineno self)))
          else fallback
      end
    else fallback.
Proof.
  intros Hh Hc Hf Hb. rewrite (next_read _ _ _ Hh Hc Hf), Hb.
  apply next_scan_hash.
Qed.

(** ** The claims about heading lines *)

Lemma reachable_take_tokens f n self l self' :
  reachable f self -> take_tokens n self = Ok (l, self') -> reachable f self'.
Proof.
  revert self l self'. induction n as [|n IH]; intros self l self' Hr H.
  - inversion H; subst. exact Hr.
  - rewrite take_tokens_S in H.
    destruct (next self) as [[nfo o1]|e] eqn:En; [|discriminate].
    destruct (take_tokens n o1) as [[l1 o2]|e] eqn:Et; [|discriminate].
    inversion H; subst. eapply IH; [|exact Et].
    eapply reach_next; eassumption.
Qed.

Lemma reachable_after f n :
  (exists l self', take_tokens n (OrgParseIter_init f) = Ok (l, self')) ->
  reachable f (after n (OrgParseIter_init f)).
Proof.
  intros (l & self' & H). unfold after. rewrite H.
  eapply reachable_take_tokens; [apply reach_init | exact H].
Qed.

Lemma new_level_cases lv r :
  (lv < r -> new_level lv r = lv + 1) /\
  (r < lv -> new_level lv r = r) /\
  (r = lv -> new_level lv r = lv).
Proof.
  unfold new_level.
  destruct (Nat.ltb_spec lv r); destruct (Nat.ltb_spec r lv);
    repeat split; intros; lia.
Qed.

(** C1, with the count the code has.  A heading line of [j] markers read
    at nesting level [k], with [j < k], makes the tokenizer emit exactly
    [k - j + 1]
    closing signals and then the heading token: one signal for the
    subtree of each level from [k] down to [j], the old level-[j] heading
    included.  After them the pending buffer is empty and the level is
    [j]. *)
Theorem C1_descent_emits_k_minus_j_plus_one_exits f self l more j c t :
  reachable f self -> hold self = [] -> fileobj self = l :: more ->
  rstrip l = repeat "*" j ++ c :: t -> isspace c = true ->
  1 <= j -> j < level self ->
  exists self',
    take_tokens (level self - j + 2) self =
      Ok (repeat (exit_token (S (lineno self))) (level self - j + 1)
            ++ [mkTokenInfo HEADLINE (S (lineno self)) (Some (lstrip t))],
          self')
    /\ hold self' = [] /\ level self' = j /\ fileobj self' = more.
Proof.
  intros Hr Hh Hf Hb Hc Hj Hlt.
  destruct (reachable_inv _ _ Hr) as [Hcons _].
  assert (Hle : j <= level self) by lia.
  eexists. split.
  - exact (heading_line_tokens self l more j c t Hh Hcons Hf Hb Hj Hc Hle).
  - repeat split.
Qed.

Lemma C1_descent_witness :
  level (after 3 (OrgParseIter_init example_lines)) = 2 /\
  exists self',
    take_tokens 3 (after 3 (OrgParseIter_init example_lines)) =
      Ok ([exit_token 4; exit_token 4; mkTokenInfo HEADLINE 4 (Some (py "Next"))],
          self')
    /\ hold self' = [] /\ level self' = 1 /\ fileobj self' = [].
Proof.
  split; [reflexivity|].
  apply (C1_descent_emits_k_minus_j_plus_one_exits example_lines
           (after 3 (OrgParseIter_init example_lines))
           (py "* Next") [] 1 " " (py "Next")).
  - apply reachable_after. eexists; eexists; reflexivity.
  - reflexivity.
  - reflexivity.
  - reflexivity.
  - reflexivity.
  - apply le_n.
  - apply le_n.
Defined.

(** C1 with the count [k - j] fails: on the lines [* Top], [** Sub],
    [text1], [* Next] the tokenizer emits two closing signals between the text
    token and the heading token of [Next], not the one that the count
    [k - j] gives for the descent from level 2 to level 1. *)
Lemma C1_counterexample :
  tokens 7 (OrgParseIter_init example_lines) =
    Some ([mkTokenInfo HEADLINE 1 (Some (py "Top"));
           mkTokenInfo HEADLINE 2 (Some (py "Sub"));
           mkTokenInfo TEXT 3 (Some (py "text1"));
           exit_token 4; exit_token 4;
           mkTokenInfo HEADLINE 4 (Some (py "Next"))], StopIteration)
  /\ ~ (forall f self l more j c t,
          reachable f self -> hold self = [] -> fileobj self = l :: more ->
          rstrip l = repeat "*" j ++ c :: t -> isspace c = true ->
          1 <= j -> j < level self ->
          exists self',
            take_tokens (level self - j + 1) self =
              Ok (repeat (exit_token (S (lineno self))) (level self - j)
                    ++ [mkTokenInfo HEADLINE (S (lineno self)) (Some (lstrip t))],
                  self')).
Proof.
  split; [reflexivity|].
  intros H.
  destruct (H example_lines (after 3 (OrgParseIter_init example_lines))
              (py "* Next") [] 1 " " (py "Next")) as [self' H'].
  - apply reachable_after. eexists; eexists; reflexivity.
  - reflexivity.
  - reflexivity.
  - reflexivity.
  - reflexivity.
  - apply le_n.
  - apply le_n.
  - vm_compute in H'. discriminate H'.
Qed.

(** C3.  For a heading line that does not go deeper (its new level is at
    most the old one, so that closing signals are due), the tokens that
    [__next__] returns for the line, up to the call that empties the
    pending buffer, are [n] closing signals followed by the one heading
    token, with [n >= 1] and [n >= 2] for a real dedent: popping the
    pending buffer from its end gives the closing signals back before the
    heading that was queued first. *)
Theorem C3_exits_first_heading_last f self l more r c t :
  reachable f self -> hold self = [] -> fileobj self = l :: more ->
  rstrip l = repeat "*" r ++ c :: t -> isspace c = true ->
  1 <= r -> r <= level self ->
  exists n toks self',
    take_tokens (length toks) self = Ok (toks, self')
    /\ toks = repeat (exit_token (S (lineno self))) n
                ++ [mkTokenInfo HEADLINE (S (lineno self)) (Some (lstrip t))]
    /\ 1 <= n /\ (r < level self -> 2 <= n)
    /\ hold self' = [] /\ fileobj self' = more.
Proof.
  intros Hr Hh Hf Hb Hc Hj Hle.
  destruct (reachable_inv _ _ Hr) as [Hcons _].
  exists (level self - r + 1).
  exists (repeat (exit_token (S (lineno self))) (level self - r + 1)
            ++ [mkTokenInfo HEADLINE (S (lineno self)) (Some (lstrip t))]).
  eexists. split.
  - rewrite length_app, repeat_length. cbn [length].
    replace (level self - r + 1 + 1) with (level self - r + 2) by lia.
    exact (heading_line_tokens self l more r c t Hh Hcons Hf Hb Hj Hc Hle).
  - repeat split; lia.
Qed.

Lemma C3_exits_first_witness :
  exists n toks self',
    take_tokens (length toks) (after 3 (OrgParseIter_init example_lines)) =
      Ok (toks, self')
    /\ toks = repeat (exit_token 4) n ++ [mkTokenInfo HEADLINE 4 (Some (py "Next"))]
    /\ 1 <= n /\ (1 < 2 -> 2 <= n)
    /\ hold self' = [] /\ fileobj self' = [].
Proof.
  apply (C3_exits_first_heading_last example_lines
           (after 3 (OrgParseIter_init example_lines))
           (py "* Next") [] 1 " " (py "Next")).
  - apply reachable_after. eexists; eexists; reflexivity.
  - reflexivity.
  - reflexivity.
  - reflexivity.
  - reflexivity.
  - apply le_n.
  - apply le_S, le_n.
Defined.

(** C4.  When a heading line with a run of [r] markers is read at level
    [lv], the old level is remembered and the new level is [lv + 1] if
    [r > lv] (however large [r] is), [r] if [r < lv], and [lv] if
    [r = lv]; so one heading raises the level by at most 1 and may lower
    it down to any [r >= 1]. *)
Theorem C4_level_law f self l more r c t :
  reachable f self -> hold self = [] -> fileobj self = l :: more ->
  rstrip l = repeat "*" r ++ c :: t -> isspace c = true -> 1 <= r ->
  exists nfo self',
    next self = Ok (nfo, self')
    /\ oldlevel self' = level self
    /\ (level self < r -> level self' = level self + 1)
    /\ (r < level self -> level self' = r)
    /\ (r = level self -> level self' = level self)
    /\ level self' <= level self + 1.
Proof.
  intros Hr Hh Hf Hb Hc Hj.
  destruct (reachable_inv _ _ Hr) as [Hcons _].
  rewrite (next_heading _ _ _ _ _ _ Hh Hcons Hf Hb Hj Hc).
  destruct (new_level_cases (level self) r) as (H1 & H2 & H3).
  destruct (new_level (level self) r <=? level self);
    eexists; eexists; (split; [reflexivity|]); cbn [oldlevel level];
    (repeat split; auto);
    destruct (Nat.lt_trichotomy (level self) r) as [?|[?|?]];
    rewrite ?H1, ?H2, ?H3 by lia; lia.
Qed.

Lemma C4_level_law_witness :
  exists nfo self',
    next (OrgParseIter_init [py "*** Deep"]) = Ok (nfo, self')
    /\ oldlevel self' = 0
    /\ (0 < 3 -> level self' = 0 + 1)
    /\ (3 < 0 -> level self' = 3)
    /\ (3 = 0 -> level self' = 0)
    /\ level self' <= 0 + 1.
Proof.
  apply (C4_level_law [py "*** Deep"] (OrgParseIter_init [py "*** Deep"])
           (py "*** Deep") [] 3 " " (py "Deep")).
  - apply reach_init.
  - reflexivity.
  - reflexivity.
  - reflexivity.
  - reflexivity.
  - apply le_S, le_S, le_n.
Defined.

(** ** The claims about comment and directive lines *)

Lemma next_fresh f self nfo self' :
  reachable f self -> hold self = [] -> next self = Ok (nfo, self') ->
  exists l more,
    fileobj self = l :: more /\
    next_scan (mkOrgParseIter more (Some (rstrip l)) 0 (level self)
                              (oldlevel self) [] (S (lineno self)))
              (rstrip l) = Ok (nfo, self').
Proof.
  intros Hr Hh Hn. destruct (reachable_inv _ _ Hr) as [Hc _].
  destruct (fileobj self) as [|l more] eqn:Hf.
  - rewrite (next_eof _ Hh Hc Hf) in Hn. discriminate.
  - exists l, more. split; [reflexivity|].
    now rewrite <- (next_read _ _ _ Hh Hc Hf).
Qed.

Lemma next_scan_directive self b nfo self' :
  bufpos self = 0 -> hold self = [] ->
  next_scan self b = Ok (nfo, self') -> type nfo = DIRECTIVE ->
  exists cp,
    find ":" b 2 = Some cp
    /\ value nfo = Some (slice b 2 cp)
    /\ line nfo = lineno self
    /\ self' = set_hold (set_bufpos self (length b))
                 [mkTokenInfo TEXT (lineno self)
                              (Some (strip (skipn (cp + 1) b)))].
Proof.
  intros Hp Hh H Ht.
  unfold next_scan, next_headline, next_comment, next_rest in H.
  rewrite Hp, Hh in H. cbn [Nat.add app] in H.
  repeat case_scrutinee H; inversion H; subst; clear H;
    try discriminate Ht.
  eexists. repeat split; reflexivity.
Qed.

(** C7.  Whenever [__next__] returns a DIRECTIVE token, the very next
    call returns a TEXT token of the same line whose value is the
    stripped rest of the line after the colon that ends the control
    word; that call takes it from the pending buffer and leaves the
    buffer empty, so no other token comes between the two. *)
Theorem C7_directive_then_text f self nfo self1 :
  reachable f self -> next self = Ok (nfo, self1) -> type nfo = DIRECTIVE ->
  exists b cp nfo2 self2,
    buf self1 = Some b
    /\ find ":" b 2 = Some cp
    /\ value nfo = Some (slice b 2 cp)
    /\ next self1 = Ok (nfo2, self2)
    /\ type nfo2 = TEXT
    /\ value nfo2 = Some (strip (skipn (cp + 1) b))
    /\ line nfo2 = line nfo
    /\ hold self2 = [].
Proof.
  intros Hr Hn Ht. destruct (reachable_inv _ _ Hr) as [Hc Hh].
  destruct (hold self) as [|x h0] eqn:Eh using rev_ind.
  - destruct (next_fresh _ _ _ _ Hr Eh Hn) as (l & more & Hf & Hs).
    apply next_scan_directive in Hs; [|reflexivity|reflexivity|exact Ht].
    destruct Hs as (cp & Hfind & Hv & Hl & ->).
    exists (rstrip l), cp. eexists. eexists.
    split; [reflexivity|]. split; [exact Hfind|]. split; [exact Hv|].
    split; [apply (next_pop _ []); reflexivity|].
    cbn. repeat split. now rewrite Hl.
  - clear IHh0. rewrite (next_pop _ _ _ Eh) in Hn. inversion Hn; subst.
    apply Forall_app in Hh as [_ Hx]. inversion Hx; subst.
    unfold held in *. tauto.
Qed.

Lemma C7_directive_then_text_witness :
  exists b cp nfo2 self2,
    buf (after 1 (OrgParseIter_init [py "#+NAME: foo"])) = Some b
    /\ find ":" b 2 = Some cp
    /\ value (mkTokenInfo DIRECTIVE 1 (Some (py "NAME"))) = Some (slice b 2 cp)
    /\ next (after 1 (OrgParseIter_init [py "#+NAME: foo"])) = Ok (nfo2, self2)
    /\ type nfo2 = TEXT
    /\ value nfo2 = Some (strip (skipn (cp + 1) b))
    /\ line nfo2 = 1
    /\ hold self2 = [].
Proof.
  apply (C7_directive_then_text [py "#+NAME: foo"]
           (OrgParseIter_init [py "#+NAME: foo"])
           (mkTokenInfo DIRECTIVE 1 (Some (py "NAME")))
           (after 1 (OrgParseIter_init [py "#+NAME: foo"]))).
  - apply reach_init.
  - reflexivity.
  - reflexivity.
Defined.

Lemma forallb_false_in (A : Type) (p : A -> bool) (l : list A) (x : A) :
  In x l -> p x = false -> forallb p l = false.
Proof.
  intros Hi Hp. destruct (forallb p l) eqn:E; [|reflexivity].
  rewrite forallb_forall in E. rewrite (E x Hi) in Hp. discriminate.
Qed.

(** C8.  A line that starts with the comment marker and the directive
    sigil is returned as one COMMENT token, with nothing queued behind
    it, if there is no colon after the sigil, or if the text between the
    sigil and the first colon contains a lowercase letter. *)
Theorem C8_not_a_directive f self l more w :
  reachable f self -> hold self = [] -> fileobj self = l :: more ->
  rstrip l = "#" :: "+" :: w ->
  (~ In ":" w \/
   exists pre post c,
     w = pre ++ ":" :: post /\ ~ In ":" pre /\ In c pre /\ is_lower c = true) ->
  exists self',
    next self = Ok (mkTokenInfo COMMENT (S (lineno self)) (Some ("+" :: w)), self')
    /\ hold self' = [].
Proof.
  intros Hr Hh Hf Hb Hw. destruct (reachable_inv _ _ Hr) as [Hc _].
  rewrite (next_hash _ _ _ _ _ Hh Hc Hf Hb). cbv zeta.
  change (Ascii.eqb "+" "+") with true. cbv iota.
  change (lstrip ("+" :: w)) with ("+" :: w).
  destruct Hw as [Hn | (pre & post & c & -> & Hn & Hi & Hl)].
  - rewrite (find_none _ _ Hn). eexists. split; reflexivity.
  - rewrite (find_first _ _ _ Hn).
    rewrite firstn_app, Nat.sub_diag, firstn_all, firstn_O, app_nil_r.
    rewrite (forallb_false_in _ _ _ c Hi (is_lower_not_ctl _ Hl)).
    eexists. split; reflexivity.
Qed.

Lemma C8_not_a_directive_witness :
  exists self',
    next (OrgParseIter_init [py "#+Name: foo"]) =
      Ok (mkTokenInfo COMMENT 1 (Some (py "+Name: foo")), self')
    /\ hold self' = [].
Proof.
  apply (C8_not_a_directive [py "#+Name: foo"] (OrgParseIter_init [py "#+Name: foo"])
           (py "#+Name: foo") [] (py "Name: foo")).
  - apply reach_init.
  - reflexivity.
  - reflexivity.
  - reflexivity.
  - right. exists (py "Name"), (py " foo"), "a". split; [reflexivity|].
    split; [|split; [|reflexivity]].
    + intros Hin. repeat (destruct Hin as [Hin|Hin]; [discriminate Hin|]). exact Hin.
    + right. left. reflexivity.
Defined.

(** What the code does for C9.  For a line with at least one character
    after the comment marker that [__next__] returns as a COMMENT token,
    the token's value, which becomes the text of the comment node, is
    the rest of the line after the marker with all of its leading
    whitespace removed. *)
Theorem C9_comment_value_lstripped f self l more c w nfo self' :
  reachable f self -> hold self = [] -> fileobj self = l :: more ->
  rstrip l = "#" :: c :: w ->
  next self = Ok (nfo, self') -> type nfo = COMMENT ->
  value nfo = Some (lstrip (c :: w))
  /\ text (OrgCommentNode (the (value nfo))) = lstrip (c :: w).
Proof.
  intros Hr Hh Hf Hb Hn Ht. destruct (reachable_inv _ _ Hr) as [Hc _].
  rewrite (next_hash _ _ _ _ _ Hh Hc Hf Hb) in Hn. cbv zeta in Hn.
  repeat case_scrutinee Hn; inversion Hn; subst; clear Hn;
    try discriminate Ht; split; reflexivity.
Qed.

Lemma C9_comment_value_witness :
  value (mkTokenInfo COMMENT 1 (Some (py "x"))) = Some (lstrip (py "  x"))
  /\ text (OrgCommentNode (the (value (mkTokenInfo COMMENT 1 (Some (py "x"))))))
     = lstrip (py "  x").
Proof.
  apply (C9_comment_value_lstripped [py "#  x"] (OrgParseIter_init [py "#  x"])
           (py "#  x") [] " " (py " x")
           (mkTokenInfo COMMENT 1 (Some (py "x")))
           (after 1 (OrgParseIter_init [py "#  x"]))).
  - apply reach_init.
  - reflexivity.
  - reflexivity.
  - reflexivity.
  - reflexivity.
  - reflexivity.
Defined.

(** The line with two spaces after the marker: the token's value is
    [x]; the marker and one space removed would leave a space in front
    of it. *)
Lemma C9_counterexample :
  exists self',
    next (OrgParseIter_init [py "#  x"]) =
      Ok (mkTokenInfo COMMENT 1 (Some (py "x")), self')
    /\ comment_value_as_specified (rstrip (py "#  x")) = py " x"
    /\ Some (py "x") <> Some (comment_value_as_specified (rstrip (py "#  x"))).
Proof.
  eexists. split; [reflexivity|]. split; [reflexivity|]. discriminate.
Qed.

Lemma lstrip_length s : length (lstrip s) <= length s.
Proof.
  induction s as [|c s IH]; simpl; [lia|].
  destruct (isspace c); simpl; lia.
Qed.

(** C9.  The value of a COMMENT token is documented as the whole line
    without its initial marker and space, and [OrgCommentNode.__str__]
    writes the marker and one space in front of it.  [__next__] removes
    all the whitespace that follows the marker: a line with a second
    whitespace character after the marker becomes a COMMENT token whose
    value is the rest of the line without its leading whitespace, which
    is not the documented value. *)
Theorem C9_comment_value_not_as_documented f self l more c w nfo self' :
  reachable f self -> hold self = [] -> fileobj self = l :: more ->
  rstrip l = "#" :: " " :: c :: w -> isspace c = true ->
  next self = Ok (nfo, self') ->
  type nfo = COMMENT
  /\ value nfo = Some (lstrip w)
  /\ comment_value_as_specified (rstrip l) = c :: w
  /\ value nfo <> Some (comment_value_as_specified (rstrip l)).
Proof.
  intros Hr Hh Hf Hb Hc Hn. destruct (reachable_inv _ _ Hr) as [Hcons _].
  rewrite (next_hash _ _ _ _ _ Hh Hcons Hf Hb) in Hn. cbv zeta in Hn.
  change (Ascii.eqb " " "+") with false in Hn. cbv iota in Hn.
  inversion Hn; subst nfo self'; clear Hn. cbn [type value].
  rewrite Hc, Hb. cbn [comment_value_as_specified].
  split; [reflexivity|]. split; [reflexivity|]. split; [reflexivity|].
  intros H. inversion H as [H1].
  pose proof (lstrip_length w) as Hlen. rewrite H1 in Hlen. cbn [length] in Hlen.
  lia.
Qed.

Lemma C9_comment_value_not_as_documented_witness :
  type (mkTokenInfo COMMENT 1 (Some (py "x"))) = COMMENT
  /\ value (mkTokenInfo COMMENT 1 (Some (py "x"))) = Some (lstrip (py "x"))
  /\ comment_value_as_specified (rstrip (py "#  x")) = py " x"
  /\ value (mkTokenInfo COMMENT 1 (Some (py "x")))
     <> Some (comment_value_as_specified (rstrip (py "#  x"))).
Proof.
  apply (C9_comment_value_not_as_documented
           [py "#  x"] (OrgParseIter_init [py "#  x"])
           (py "#  x") [] " " (py "x")
           (mkTokenInfo COMMENT 1 (Some (py "x")))
           (after 1 (OrgParseIter_init [py "#  x"]))).
  - apply reach_init.
  - reflexivity.
  - reflexivity.
  - reflexivity.
  - reflexivity.
  - reflexivity.
Defined.

(** C10.  A line whose directive sigil is followed at once by a colon is
    a directive: the empty control word passes [__is_ctl_word], the call
    returns a DIRECTIVE token whose value is the empty string, and the
    next call returns the TEXT token with the stripped rest of the line
    after the colon. *)
Theorem C10_empty_control_word f self l more w :
  reachable f self -> hold self = [] -> fileobj self = l :: more ->
  rstrip l = "#" :: "+" :: ":" :: w ->
  is_ctl_word (rstrip l) 2 2 = true
  /\ exists self1 self2,
       next self = Ok (mkTokenInfo DIRECTIVE (S (lineno self)) (Some []), self1)
       /\ next self1 = Ok (mkTokenInfo TEXT (S (lineno self)) (Some (strip w)), self2)
       /\ hold self2 = [].
Proof.
  intros Hr Hh Hf Hb. destruct (reachable_inv _ _ Hr) as [Hc _].
  split; [unfold is_ctl_word, slice; now rewrite Nat.sub_diag|].
  rewrite (next_hash _ _ _ _ _ Hh Hc Hf Hb). cbv zeta.
  change (Ascii.eqb "+" "+") with true. cbv iota.
  change (find ":" (":" :: w) 0) with (Some 0).
  cbn [firstn forallb skipn].
  eexists. eexists. split; [reflexivity|].
  split; [apply (next_pop _ []); reflexivity | reflexivity].
Qed.

Lemma C10_empty_control_word_witness :
  is_ctl_word (rstrip (py "#+: x")) 2 2 = true
  /\ exists self1 self2,
       next (OrgParseIter_init [py "#+: x"]) =
         Ok (mkTokenInfo DIRECTIVE 1 (Some []), self1)
       /\ next self1 = Ok (mkTokenInfo TEXT 1 (Some (strip (py " x"))), self2)
       /\ hold self2 = [].
Proof.
  apply (C10_empty_control_word [py "#+: x"] (OrgParseIter_init [py "#+: x"])
           (py "#+: x") [] (py " x")).
  - apply reach_init.
  - reflexivity.
  - reflexivity.
  - reflexivity.
Defined.

(** ** The claims about whole inputs and about heading titles *)

(** C2.  The line that consists of the comment marker alone makes
    [__next__] raise [IndexError]: the guard before the test for the
    directive sigil lets the index run past the end of the line.  The
    tree builder does not catch it, so the parse of such an input fails
    although the line source did not. *)
Theorem C2_marker_only_line_raises filename fuel limit :
  next (OrgParseIter_init [py "#"]) = Raise IndexError
  /\ MinimalOrgParser (S fuel) limit filename [py "#"] = Some (Raise IndexError).
Proof. split; reflexivity. Qed.

(** C6.  The three heading titles of the specification, as
    [OrgHeadlineNode.__init__] takes them apart; [Some false] is the
    value of [done] for the keyword TODO. *)
Theorem C6_headline_fields :
  OrgHeadlineNode (py "TODO [#A] Buy milk :errand:") =
    Ok (mkNode (Headline (Some false) (Some (py "A")) [py "errand"])
               (py "Buy milk") [])
  /\ OrgHeadlineNode (py "Do it :work:urgent:") =
       Ok (mkNode (Headline None None [py "work"; py "urgent"]) (py "Do it") [])
  /\ OrgHeadlineNode (py "x ::y:") =
       Ok (mkNode (Headline None None [[]; py "y"]) (py "x") []).
Proof. repeat split; vm_compute; reflexivity. Qed.

(** ** The serializer as a list of lines *)

Lemma OrgNode_forall_ind (P : OrgNode -> Prop) :
  (forall c t chs, Forall P chs -> P (mkNode c t chs)) -> forall n, P n.
Proof.
  intros H. fix IH 1. intros [c t chs]. apply H.
  induction chs as [|ch chs IHchs]; constructor; [apply IH | exact IHchs].
Qed.

Lemma join_cons sep x l :
  l <> [] -> join sep (x :: l) = x ++ sep ++ join sep l.
Proof. destruct l; [congruence | reflexivity]. Qed.

Lemma join_app sep l1 l2 :
  l1 <> [] -> l2 <> [] -> join sep (l1 ++ l2) = join sep l1 ++ sep ++ join sep l2.
Proof.
  intros H1 H2. induction l1 as [|x l1 IH]; [congruence|].
  destruct l1 as [|y l1].
  - simpl app. now rewrite join_cons.
  - change ((x :: y :: l1) ++ l2) with (x :: (y :: l1) ++ l2).
    rewrite join_cons by discriminate. rewrite IH by discriminate.
    rewrite (join_cons sep x (y :: l1)) by discriminate.
    now rewrite <- !app_assoc.
Qed.

Lemma dump_lines_forest c t chs level :
  dump_lines (mkNode c t chs) level = dump_forest chs level.
Proof. reflexivity. Qed.

Lemma dump_forest_nil_iff chs level : dump_forest chs level = [] <-> chs = [].
Proof. destruct chs; split; intros H; try reflexivity; discriminate. Qed.

Lemma dumps_node_lines node :
  forall level, dumps_node node level = join [newline] (dump_lines node level).
Proof.
  induction node as [c t chs IH] using OrgNode_forall_ind. intros level.
  cbn [dumps_node dump_lines]. fold (node_line level).
  set (f := fun child : OrgNode =>
              node_line level child
                :: match children child with
                   | [] => []
                   | _ :: _ => [dumps_node child (level + 1)]
                   end).
  set (g := fun child : OrgNode =>
              node_line level child :: dump_lines child (level + 1)).
  assert (H : join [newline] (flat_map f chs) = join [newline] (flat_map g chs)
              /\ (flat_map f chs = [] <-> flat_map g chs = [])).
  { induction chs as [|ch chs IHchs].
    - split; [reflexivity | tauto].
    - inversion IH as [|? ? Hch Hchs]; subst.
      destruct (IHchs Hchs) as [Hj He].
      split; [|split; discriminate].
      cbn [flat_map]. unfold f at 1, g at 1.
      destruct ch as [cc ct cchs]. cbn [children].
      rewrite dump_lines_forest.
      destruct cchs as [|k cchs].
      + cbn [dump_forest flat_map app].
        destruct (flat_map f chs) as [|a l] eqn:Ef.
        * destruct He as [He _]. now rewrite (He eq_refl).
        * destruct (flat_map g chs) as [|a' l'] eqn:Eg.
          { destruct He as [_ He]. discriminate (He eq_refl). }
          rewrite !join_cons by discriminate. now rewrite Hj.
      + rewrite (Hch (level + 1)), dump_lines_forest.
        set (L := dump_forest (k :: cchs) (level + 1)).
        assert (HL : L <> []) by (unfold L; discriminate).
        cbn [app].
        rewrite (join_cons _ (node_line level _) (L ++ _))
          by (destruct L; [congruence | discriminate]).
        rewrite (join_cons _ (node_line level _) (_ :: _)) by discriminate.
        f_equal. f_equal.
        destruct (flat_map f chs) as [|a l] eqn:Ef.
        * destruct He as [He _]. rewrite (He eq_refl), app_nil_r. reflexivity.
        * destruct (flat_map g chs) as [|a' l'] eqn:Eg.
          { destruct He as [_ He]. discriminate (He eq_refl). }
          rewrite join_cons by discriminate.
          rewrite join_app by (assumption || discriminate).
          now rewrite Hj. }
  apply H.
Qed.

(** ** Text lines and whitespace *)

Lemma lstrip_snoc_space x c :
  isspace c = true ->
  lstrip (x ++ [c]) = match lstrip x with [] => [] | y => y ++ [c] end.
Proof.
  intros Hc. induction x as [|a x IH]; simpl.
  - now rewrite Hc.
  - destruct (isspace a); [exact IH | reflexivity].
Qed.

Lemma strip_space_cons c s : isspace c = true -> strip (c :: s) = strip s.
Proof.
  intros Hc. unfold strip, rstrip. cbn [rev].
  rewrite (lstrip_snoc_space _ _ Hc).
  destruct (lstrip (rev s)) as [|a y]; [reflexivity|].
  rewrite rev_app_distr. cbn [rev app]. apply (lstrip_space _ _ Hc).
Qed.

Lemma next_plain self l more :
  hold self = [] -> consumed self -> fileobj self = l :: more ->
  plain_line (rstrip l) ->
  next self =
    Ok (mkTokenInfo TEXT (S (lineno self)) (Some (rstrip l)),
        mkOrgParseIter more (Some (rstrip l)) (length (rstrip l)) (level self)
                       (oldlevel self) [] (S (lineno self))).
Proof.
  intros Hh Hc Hf Hp. rewrite (next_read _ _ _ Hh Hc Hf).
  destruct Hp as [|c t Hs Hm|r Hr|r c t Hr Hs Hw].
  - reflexivity.
  - unfold next_scan. cbn [length Nat.eqb startswith].
    apply Ascii.eqb_neq in Hs, Hm. rewrite Hs, Hm. reflexivity.
  - unfold next_scan.
    destruct (length (repeat "*" r) =? 0) eqn:E0;
      [apply Nat.eqb_eq in E0; rewrite repeat_length in E0; lia|].
    replace (startswith (repeat "*" r) "*") with true by (destruct r; [lia|reflexivity]).
    unfold next_headline. cbn [bufpos skipn lineno].
    rewrite scan_while_prefix_len, prefix_len_stars_end, repeat_length.
    cbn [Nat.add]. now rewrite Nat.leb_refl.
  - unfold next_scan.
    destruct (length (repeat "*" r ++ c :: t) =? 0) eqn:E0;
      [apply Nat.eqb_eq in E0; rewrite length_app in E0; simpl in E0; lia|].
    replace (startswith (repeat "*" r ++ c :: t) "*") with true
      by (destruct r; [lia|reflexivity]).
    unfold next_headline. cbn [bufpos skipn lineno].
    rewrite scan_while_prefix_len, prefix_len_stars by (now apply Ascii.eqb_neq).
    cbn [Nat.add].
    destruct (_ <=? r) eqn:E1;
      [reflexivity|].
    now rewrite nth_error_stars, Hw.
Qed.

Lemma ctl_word_no_colon name : forallb is_ctl_char name = true -> ~ In ":" name.
Proof.
  intros H Hi. rewrite forallb_forall in H. specialize (H _ Hi). discriminate H.
Qed.

Lemma new_level_not_deeper d r : r <= d -> new_level d r = r.
Proof.
  intros H. destruct (new_level_cases d r) as (_ & H2 & H3).
  destruct (Nat.eq_dec r d) as [->|Hne]; [now apply H3 | apply H2; lia].
Qed.

(** ** The tree builder, step by step *)

Lemma parse_loop_S fuel orgiter destnode lvl room prefix dname :
  parse_loop (S fuel) orgiter destnode lvl room prefix dname =
    match next orgiter with
    | Raise StopIteration => Some (Ok (destnode, orgiter))
    | Raise e => Some (Raise e)
    | Ok (nfo, orgiter1) =>
        match type nfo with
        | HEADLINE =>
            match OrgHeadlineNode (the (value nfo)) with
            | Raise e => Some (Raise e)
            | Ok child =>
                match room with
                | 0 => Some (Raise RecursionError)
                | S room' =>
                    match parse_loop fuel orgiter1 child (lvl + 1) room'
                                     None None with
                    | Some (Ok (child', orgiter2)) =>
                        parse_loop fuel orgiter2 (append_child destnode child')
                                   lvl room prefix dname
                    | other => other
                    end
                end
            end
        | HLEXIT => Some (Ok (destnode, orgiter1))
        | COMMENT =>
            parse_loop fuel orgiter1
                       (append_child destnode (OrgCommentNode (the (value nfo))))
                       lvl room prefix dname
        | DIRECTIVE =>
            parse_loop fuel orgiter1 destnode lvl room (Some DIRECTIVE) (value nfo)
        | TEXT =>
            let node :=
              match prefix with
              | Some DIRECTIVE => OrgDirectiveNode (the (value nfo)) (the dname)
              | _ => OrgTextNode (the (value nfo))
              end in
            parse_loop fuel orgiter1 (append_child destnode node)
                       lvl room None dname
        end
    end.
Proof. reflexivity. Qed.

Lemma with_children_nil node : with_children node [] = node.
Proof. destruct node. unfold with_children. cbn. now rewrite app_nil_r. Qed.

Lemma with_children_append node x kids :
  with_children (append_child node x) kids = with_children node (x :: kids).
Proof.
  unfold with_children, append_child. cbn. now rewrite <- app_assoc.
Qed.

Lemma OrgHeadlineNode_new title node :
  OrgHeadlineNode title = Ok node -> children node = [] /\ is_headline node = true.
Proof.
  unfold OrgHeadlineNode. intros H.
  repeat case_scrutinee H; inversion H; subst; split; reflexivity.
Qed.

Lemma runs_to_stop self dest lvl room dname :
  exhausted self -> runs_to self dest lvl room dname [] self 1.
Proof.
  intros (Hh & Hc & Hf) fuel Hfuel.
  destruct fuel as [|fuel]; [lia|].
  now rewrite parse_loop_S, (next_eof _ Hh Hc Hf), with_children_nil.
Qed.

Lemma runs_to_exit self self1 dest lvl room dname nfo :
  next self = Ok (nfo, self1) -> type nfo = HLEXIT ->
  runs_to self dest lvl room dname [] self1 1.
Proof.
  intros Hn Ht fuel Hfuel.
  destruct fuel as [|fuel]; [lia|].
  now rewrite parse_loop_S, Hn, Ht, with_children_nil.
Qed.

Lemma idle_after_line more b lv old ln :
  idle (mkOrgParseIter more (Some b) (length b) lv old [] ln) lv more.
Proof. repeat split. unfold consumed. cbn. lia. Qed.
(** ** Which calls raise *)

Lemma next_scan_fresh_total more b lv old ln :
  (exists nfo self',
     next_scan (mkOrgParseIter more (Some b) 0 lv old [] ln) b = Ok (nfo, self'))
  \/ (b = ["#"] /\
      next_scan (mkOrgParseIter more (Some b) 0 lv old [] ln) b = Raise IndexError).
Proof.
  destruct b as [|x b'].
  - left. eexists. eexists. reflexivity.
  - destruct (Ascii.eqb x "#") eqn:Eh.
    + apply Ascii.eqb_eq in Eh. subst x.
      destruct b' as [|c w]; [right; split; reflexivity|].
      left. rewrite next_scan_hash. cbv zeta.
      destruct (Ascii.eqb c "+"); [|eexists; eexists; reflexivity].
      destruct (find ":" w 0); [|eexists; eexists; reflexivity].
      destruct (forallb _ _); eexists; eexists; reflexivity.
    + left. unfold next_scan. cbn [length Nat.eqb startswith]. rewrite Eh.
      destruct (Ascii.eqb x "*") eqn:Ex; [|eexists; eexists; reflexivity].
      unfold next_headline.
      destruct (_ <=? _) eqn:E1; [eexists; eexists; reflexivity|].
      apply Nat.leb_gt in E1.
      destruct (nth_error _ _) as [c|] eqn:En.
      * destruct (negb (isspace c)); [eexists; eexists; reflexivity|].
        destruct (_ <=? _); eexists; eexists; reflexivity.
      * apply nth_error_None in En. lia.
Qed.

(** A call of [__next__] returns a token, or ends the iteration at the
    end of the input, or raises [IndexError] on a line that is the comment
    marker alone. *)
Lemma next_total f self :
  reachable f self ->
  (exists nfo self', next self = Ok (nfo, self'))
  \/ (next self = Raise StopIteration /\ hold self = [] /\ fileobj self = [])
  \/ (next self = Raise IndexError /\
      exists l more, fileobj self = l :: more /\ rstrip l = ["#"]).
Proof.
  intros Hr. destruct (reachable_inv _ _ Hr) as [Hc _].
  destruct (hold self) as [|x h] eqn:Eh using rev_ind.
  - destruct (fileobj self) as [|l more] eqn:Ef.
    + right. left. split; [now apply next_eof | now split].
    + rewrite (next_read _ _ _ Eh Hc Ef).
      destruct (next_scan_fresh_total more (rstrip l) (level self) (oldlevel self)
                  (S (lineno self))) as [H | [Hb H]].
      * now left.
      * right. right. split; [exact H|]. now exists l, more.
  - left. rewrite (next_pop _ _ _ Eh). eexists. eexists. reflexivity.
Qed.

Lemma OrgHeadlineNode_raises title e :
  OrgHeadlineNode title = Raise e -> e = AttributeError.
Proof.
  unfold OrgHeadlineNode. intros H.
  repeat case_scrutinee H; inversion H; reflexivity.
Qed.

(** The tree builder ends its loop on [StopIteration]; it never passes
    it on. *)
Lemma parse_loop_no_stop fuel :
  forall orgiter destnode lvl room prefix dname,
    parse_loop fuel orgiter destnode lvl room prefix dname
      <> Some (Raise StopIteration).
Proof.
  induction fuel as [|fuel IH]; intros orgiter destnode lvl room prefix dname;
    [discriminate|].
  rewrite parse_loop_S.
  destruct (next orgiter) as [[nfo o1]|[]]; try discriminate.
  destruct (type nfo); try apply IH; try discriminate.
  destruct (OrgHeadlineNode (the (value nfo))) as [child|e] eqn:Eh.
  2:{ apply OrgHeadlineNode_raises in Eh. subst e. discriminate. }
  destruct room as [|room']; [discriminate|].
  destruct (parse_loop fuel o1 child (lvl + 1) room' None None)
    as [[[child' o2]|e]|] eqn:E; [apply IH | | discriminate].
  rewrite <- E. apply IH.
Qed.

(** * Further properties *)

(** ** The matcher *)

Section MatcherFacts.

Variable subject : str.

Lemma matched_orelse (a b : option groups) :
  matched (match a with Some res => Some res | None => b end)
    = matched a || matched b.
Proof. destruct a; reflexivity. Qed.

(** Whether a match succeeds does not depend on what the groups hold. *)
Lemma rmatch_matched_indep r :
  forall k1 k2,
    (forall s g1 g2, matched (k1 s g1) = matched (k2 s g2)) ->
    forall s g1 g2,
      matched (rmatch subject r k1 s g1) = matched (rmatch subject r k2 s g2).
Proof.
  induction r as [c| | | | | | |r1 IH1 r2 IH2|r1 IH1 r2 IH2|r1 IH1|r1 IH1|r1 IH1|n r1 IH1];
    intros k1 k2 Hk s g1 g2; cbn [rmatch];
    try (unfold one_char; destruct s as [|x s]; [reflexivity|];
         match goal with |- context [if ?b then _ else _] => destruct b end;
         [apply Hk | reflexivity]).
  - destruct (length s =? length subject); [apply Hk | reflexivity].
  - destruct s as [|x [|y s]]; [apply Hk | | reflexivity].
    destruct (Ascii.eqb x newline); [apply Hk | reflexivity].
  - apply Hk.
  - apply IH1. intros s' g1' g2'. now apply IH2.
  - rewrite !matched_orelse. f_equal; [now apply IH1 | now apply IH2].
  - rewrite !matched_orelse. f_equal; [now apply IH1 | apply Hk].
  - generalize (length s) as fuel. intros fuel. revert s g1 g2.
    induction fuel as [|fuel IHf]; intros s g1 g2; [apply Hk|].
    rewrite !matched_orelse. f_equal; [|apply Hk].
    apply IH1. intros s' g1' g2'.
    destruct (length s' <? length s); [apply IHf | reflexivity].
  - generalize (length s) as fuel. intros fuel. revert s g1 g2.
    induction fuel as [|fuel IHf]; intros s g1 g2.
    + rewrite !matched_orelse. f_equal. apply Hk.
    + rewrite !matched_orelse. f_equal; [apply Hk|].
      apply IH1. intros s' g1' g2'.
      destruct (length s' <? length s); [apply IHf | reflexivity].
  - apply IH1. intros s' g1' g2'. apply Hk.
Qed.

(** A successful match hands on what its continuation returned. *)
Lemma rmatch_from_cont r :
  forall k s g res,
    rmatch subject r k s g = Some res -> exists s' g', k s' g' = Some res.
Proof.
  induction r as [c| | | | | | |r1 IH1 r2 IH2|r1 IH1 r2 IH2|r1 IH1|r1 IH1|r1 IH1|n r1 IH1];
    intros k s g res; cbn [rmatch];
    try (unfold one_char; destruct s as [|x s]; [discriminate|];
         match goal with |- context [if ?b then _ else _] => destruct b end;
         [eauto | discriminate]).
  - destruct (length s =? length subject); [eauto | discriminate].
  - destruct s as [|x [|y s]]; [eauto | | discriminate].
    destruct (Ascii.eqb x newline); [eauto | discriminate].
  - eauto.
  - intros H. apply IH1 in H. destruct H as (s' & g' & H). now apply IH2 in H.
  - destruct (rmatch subject r1 k s g) eqn:E.
    + intros H. inversion H; subst. now apply IH1 in E.
    + apply IH2.
  - destruct (rmatch subject r1 k s g) eqn:E.
    + intros H. inversion H; subst. now apply IH1 in E.
    + eauto.
  - generalize (length s) as fuel. intros fuel. revert s g.
    induction fuel as [|fuel IHf]; intros s g; [eauto|].
    match goal with |- context [rmatch subject r1 ?kk s g] =>
      destruct (rmatch subject r1 kk s g) eqn:E end; [|eauto].
    intros H. inversion H; subst. apply IH1 in E. destruct E as (s' & g' & E).
    destruct (length s' <? length s); [now apply IHf in E | discriminate].
  - generalize (length s) as fuel. intros fuel. revert s g.
    induction fuel as [|fuel IHf]; intros s g.
    + destruct (k s g) eqn:E; [|discriminate].
      intros H. inversion H; subst. eauto.
    + destruct (k s g) eqn:E.
      * intros H. inversion H; subst. eauto.
      * intros H. apply IH1 in H. destruct H as (s' & g' & H).
        destruct (length s' <? length s); [now apply IHf in H | discriminate].
  - intros H. apply IH1 in H. destruct H as (s' & g' & H). eauto.
Qed.

(** A group that took part in the match stays set. *)
Lemma rmatch_keeps_group n r :
  forall k,
    (forall s g res, k s g = Some res -> g n <> None -> res n <> None) ->
    forall s g res,
      rmatch subject r k s g = Some res -> g n <> None -> res n <> None.
Proof.
  induction r as [c| | | | | | |r1 IH1 r2 IH2|r1 IH1 r2 IH2|r1 IH1|r1 IH1|r1 IH1|m r1 IH1];
    intros k Hk s g; cbn [rmatch];
    try (unfold one_char; destruct s as [|x s]; [intros; discriminate|];
         match goal with |- context [if ?b then _ else _] => destruct b end;
         [apply Hk | intros; discriminate]).
  - destruct (length s =? length subject); [apply Hk | intros; discriminate].
  - destruct s as [|x [|y s]]; [apply Hk | | intros; discriminate].
    destruct (Ascii.eqb x newline); [apply Hk | intros; discriminate].
  - apply Hk.
  - apply IH1. intros s' g' res'. now apply IH2.
  - intros res. destruct (rmatch subject r1 k s g) eqn:E.
    + intros H. inversion H; subst. now apply (IH1 k Hk s g).
    + now apply IH2.
  - intros res. destruct (rmatch subject r1 k s g) eqn:E.
    + intros H. inversion H; subst. now apply (IH1 k Hk s g).
    + apply Hk.
  - generalize (length s) as fuel. intros fuel. revert s g.
    induction fuel as [|fuel IHf]; intros s g res; [apply Hk|].
    match goal with |- context [rmatch subject r1 ?kk s g] =>
      destruct (rmatch subject r1 kk s g) eqn:E end; [|apply Hk].
    intros H. inversion H; subst. revert E. apply IH1.
    intros s' g' res'.
    destruct (length s' <? length s); [apply IHf | intros; discriminate].
  - generalize (length s) as fuel. intros fuel. revert s g.
    induction fuel as [|fuel IHf]; intros s g res.
    + destruct (k s g) eqn:E; [|discriminate].
      intros H. inversion H; subst. now apply (Hk s g).
    + destruct (k s g) eqn:E.
      * intros H. inversion H; subst. now apply (Hk s g).
      * apply IH1. intros s' g' res'.
        destruct (length s' <? length s); [apply IHf | intros; discriminate].
  - apply IH1. intros s' g' res' H Hg. apply Hk in H; [exact H|].
    unfold set_group. destruct (n =? m); [discriminate | exact Hg].
Qed.

End MatcherFacts.

(** ** Heading titles *)

Lemma RX_HEADLINE_parts :
  RX_HEADLINE
    = RSeq RBol (RSeq RX_KEYWORD (RSeq RX_PRIORITY (RSeq RX_TITLE RX_TAIL))).
Proof. reflexivity. Qed.

Lemma rmatch_seq subject r1 r2 k s g :
  rmatch subject (RSeq r1 r2) k s g
    = rmatch subject r1 (fun s' g' => rmatch subject r2 k s' g') s g.
Proof. reflexivity. Qed.

Lemma rmatch_bol subject k g :
  rmatch subject RBol k subject g = k subject g.
Proof. cbn [rmatch]. now rewrite Nat.eqb_refl. Qed.

Lemma rmatch_opt subject r k s g :
  rmatch subject (ROpt r) k s g
    = match rmatch subject r k s g with
      | Some res => Some res
      | None => k s g
      end.
Proof. reflexivity. Qed.

Lemma rmatch_group subject n r k s g :
  rmatch subject (RGroup n r) k s g
    = rmatch subject r
        (fun s' g' => k s' (set_group n (firstn (length s - length s') s) g')) s g.
Proof. reflexivity. Qed.

Lemma rmatch_lazy_first subject r k s g res :
  k s g = Some res -> rmatch subject (RLazyStar r) k s g = Some res.
Proof.
  intros H. cbn [rmatch]. destruct (length s); now rewrite H.
Qed.

Lemma rmatch_opt_skip subject r k s g :
  matched (k s g) = true -> matched (rmatch subject (ROpt r) k s g) = true.
Proof.
  intros H. rewrite rmatch_opt, matched_orelse, H. apply orb_true_r.
Qed.

Lemma matched_tail subject s g1 g2 :
  matched (rmatch subject RX_TAIL accept s g1)
    = matched (rmatch subject RX_TAIL accept s g2).
Proof. apply rmatch_matched_indep. reflexivity. Qed.

(** When the pattern matches, group 5 took part in the match. *)
Lemma headline_group5 text rm :
  re_match RX_HEADLINE text = Some rm -> rm 5 <> None.
Proof.
  unfold re_match. fold accept. rewrite RX_HEADLINE_parts. intros H.
  rewrite rmatch_seq in H. apply rmatch_from_cont in H. destruct H as (s1 & g1 & H).
  rewrite rmatch_seq in H. apply rmatch_from_cont in H. destruct H as (s2 & g2 & H).
  rewrite rmatch_seq in H. apply rmatch_from_cont in H. destruct H as (s3 & g3 & H).
  rewrite rmatch_seq in H. unfold RX_TITLE in H. rewrite rmatch_opt in H.
  assert (Hkeep : forall s g res,
             rmatch text RX_TAIL accept s g = Some res -> g 5 <> None -> res 5 <> None).
  { apply rmatch_keeps_group. intros s g res Hk. now inversion Hk. }
  destruct (rmatch text (RGroup 5 (RLazyStar RAny)) _ s3 g3) as [res|] eqn:E.
  - inversion H; subst res. rewrite rmatch_group in E.
    apply rmatch_from_cont in E. destruct E as (s4 & g4 & E).
    apply Hkeep in E; [exact E|].
    unfold set_group. cbn. discriminate.
  - exfalso. rewrite rmatch_group in E.
    destruct (rmatch text RX_TAIL accept s3
                (set_group 5 (firstn (length s3 - length s3) s3) g3))
      as [res|] eqn:Et.
    + erewrite rmatch_lazy_first in E by exact Et. discriminate.
    + pose proof (matched_tail text s3 g3
                    (set_group 5 (firstn (length s3 - length s3) s3) g3)) as Hm.
      rewrite H, Et in Hm. discriminate.
Qed.

Lemma rmatch_lazy_any_all subject k :
  (forall g, matched (k [] g) = true) ->
  forall s g, ~ In newline s ->
    matched (rmatch subject (RLazyStar RAny) k s g) = true.
Proof.
  intros Hk s. induction s as [|c s IH]; intros g Hn.
  - cbn. rewrite matched_orelse, Hk. reflexivity.
  - change (rmatch subject (RLazyStar RAny) k (c :: s) g) with
      (match k (c :: s) g with
       | Some res => Some res
       | None =>
           one_char (fun x => negb (Ascii.eqb x newline))
             (fun s' g' =>
                if length s' <? length (c :: s)
                then rmatch subject (RLazyStar RAny) k s' g' else None)
             (c :: s) g
       end).
    rewrite matched_orelse. apply orb_true_iff. right.
    unfold one_char.
    destruct (Ascii.eqb c newline) eqn:Ec.
    + apply Ascii.eqb_eq in Ec. subst c. exfalso. apply Hn. now left.
    + cbn [negb length].
      replace (length s <? S (length s)) with true
        by (symmetry; apply Nat.ltb_lt; lia).
      apply IH. intros Hi. apply Hn. now right.
Qed.

(** The pattern matches every title that has no newline in it. *)
Lemma headline_pattern_matches text :
  ~ In newline text -> matched (re_match RX_HEADLINE text) = true.
Proof.
  intros Hn. unfold re_match. fold accept. rewrite RX_HEADLINE_parts.
  rewrite rmatch_seq, rmatch_bol.
  rewrite rmatch_seq. apply rmatch_opt_skip.
  rewrite rmatch_seq. apply rmatch_opt_skip.
  rewrite rmatch_seq. unfold RX_TITLE. rewrite rmatch_opt, matched_orelse.
  apply orb_true_iff. left. rewrite rmatch_group.
  apply rmatch_lazy_any_all; [|exact Hn].
  intros g. reflexivity.
Qed.

Lemma lstrip_fixed_iff s :
  lstrip s = s <-> s = [] \/ exists c t, s = c :: t /\ isspace c = false.
Proof.
  split.
  - destruct s as [|c t]; [now left | right].
    exists c, t. split; [reflexivity|].
    destruct (isspace c) eqn:E; [|reflexivity].
    simpl in H. rewrite E in H.
    pose proof (lstrip_length t) as Hl. rewrite H in Hl. simpl in Hl. lia.
  - intros [-> | (c & t & -> & Hc)]; [reflexivity|].
    simpl. now rewrite Hc.
Qed.

Lemma lstrip_idem s : lstrip (lstrip s) = lstrip s.
Proof.
  induction s as [|c s IH]; simpl; [reflexivity|].
  destruct (isspace c) eqn:E; [exact IH|].
  simpl. now rewrite E.
Qed.

Lemma lstrip_split s :
  exists p, s = p ++ lstrip s /\ forallb isspace p = true.
Proof.
  induction s as [|c s (p & Hp & Hs)]; [now exists []|].
  simpl. destruct (isspace c) eqn:E.
  - exists (c :: p). split; [simpl; now f_equal | simpl; now rewrite E].
  - now exists [].
Qed.

Lemma lstrip_fixed_prefix (a b : str) : lstrip (a ++ b) = a ++ b -> lstrip a = a.
Proof.
  intros H. apply lstrip_fixed_iff.
  destruct a as [|c a]; [now left | right].
  apply lstrip_fixed_iff in H. destruct H as [H | (c' & t & H & Hc)]; [discriminate|].
  inversion H; subst. now exists c', a.
Qed.

Lemma rstrip_fixed_iff s : rstrip s = s <-> lstrip (rev s) = rev s.
Proof.
  unfold rstrip. split; intros H.
  - rewrite <- H at 2. now rewrite rev_involutive.
  - rewrite H. apply rev_involutive.
Qed.

Lemma rstrip_idem s : rstrip (rstrip s) = rstrip s.
Proof. unfold rstrip. now rewrite rev_involutive, lstrip_idem. Qed.

(** A part cut from the end of a string without trailing whitespace has
    no trailing whitespace. *)
Lemma rstrip_fixed_suffix (p s : str) : rstrip (p ++ s) = p ++ s -> rstrip s = s.
Proof.
  rewrite !rstrip_fixed_iff, rev_app_distr. apply lstrip_fixed_prefix.
Qed.

Lemma rstrip_lstrip s : rstrip s = s -> rstrip (lstrip s) = lstrip s.
Proof.
  intros H. destruct (lstrip_split s) as (p & Hp & _).
  apply (rstrip_fixed_suffix p). now rewrite <- Hp.
Qed.

Lemma strip_stripped s : lstrip (strip s) = strip s /\ rstrip (strip s) = strip s.
Proof.
  unfold strip. split; [apply lstrip_idem|].
  apply rstrip_lstrip, rstrip_idem.
Qed.

(** X1.  [OrgHeadlineNode.__init__] never raises: whenever the pattern
    matches, group 5 took part in the match, so [rm.group(5).strip()]
    has a string to work on.  The new node is a heading without
    children. *)
Theorem OrgHeadlineNode_never_raises title :
  exists node,
    OrgHeadlineNode title = Ok node
    /\ children node = [] /\ is_headline node = true.
Proof.
  assert (H : exists node, OrgHeadlineNode title = Ok node).
  { unfold OrgHeadlineNode.
    destruct (re_match RX_HEADLINE title) as [rm|] eqn:E; [|eauto].
    destruct (rm 5) as [t|] eqn:E5; [eauto|].
    exfalso. now apply (headline_group5 _ _ E). }
  destruct H as [node H]. exists node. split; [exact H|].
  now apply OrgHeadlineNode_new with (title := title).
Qed.

(** X2.  The text of a heading node built from a title without a newline
    has no whitespace at either end: the pattern matches every such
    title, and the text is the stripped group 5. *)
Theorem OrgHeadlineNode_text_stripped title node :
  ~ In newline title -> OrgHeadlineNode title = Ok node ->
  matched (re_match RX_HEADLINE title) = true
  /\ lstrip (text node) = text node /\ rstrip (text node) = text node.
Proof.
  intros Hn H. pose proof (headline_pattern_matches _ Hn) as Hm.
  split; [exact Hm|].
  unfold OrgHeadlineNode in H.
  destruct (re_match RX_HEADLINE title) as [rm|]; [|discriminate].
  destruct (rm 5) as [t|]; [|discriminate].
  inversion H; subst. cbn [text]. apply strip_stripped.
Qed.

Ltac not_in_list :=
  let H := fresh in
  intros H; repeat (destruct H as [H|H]; [discriminate H|]); exact H.

Lemma OrgHeadlineNode_text_stripped_witness :
  matched (re_match RX_HEADLINE (py "TODO   Buy milk   :errand:")) = true
  /\ lstrip (py "Buy milk") = py "Buy milk"
  /\ rstrip (py "Buy milk") = py "Buy milk".
Proof.
  apply (OrgHeadlineNode_text_stripped
           (py "TODO   Buy milk   :errand:")
           (mkNode (Headline (Some false) None [py "errand"]) (py "Buy milk") [])).
  - not_in_list.
  - vm_compute. reflexivity.
Defined.

(** ** [find_child_by_text] *)

Lemma str_eqb_eq a b : str_eqb a b = true <-> a = b.
Proof.
  unfold str_eqb. destruct (list_eq_dec ascii_dec a b); split; congruence.
Qed.

Lemma NodeType_is_eq a b : NodeType_is a b = true <-> a = b.
Proof. destruct a, b; split; intros H; try reflexivity; discriminate. Qed.

Lemma child_matches_spec txt childtype child :
  child_matches txt childtype child = true <->
  text child = txt /\ (forall ct, childtype = Some ct -> type_of child = ct).
Proof.
  unfold child_matches.
  destruct (str_eqb (text child) txt) eqn:Et; cbn [negb].
  - apply str_eqb_eq in Et. destruct childtype as [ct|].
    + destruct (NodeType_is (type_of child) ct) eqn:Ec; cbn [negb].
      * apply NodeType_is_eq in Ec. split; [|reflexivity].
        intros _. split; [exact Et|]. intros ct' H. now inversion H; subst.
      * split; [discriminate|]. intros [_ H].
        specialize (H ct eq_refl). apply NodeType_is_eq in H. congruence.
    + split; [|reflexivity]. intros _. split; [exact Et | discriminate].
  - split; [discriminate|]. intros [H _]. apply str_eqb_eq in H. congruence.
Qed.

(** X3.  If [find_child_by_text] returns a node, that node is an
    immediate child of [self], its text is the text asked for, its class
    is exactly [childtype] when one is given, and no child before it
    passes both tests: it is the first match. *)
Theorem find_child_by_text_first_match self txt childtype child :
  find_child_by_text self txt childtype = Some child ->
  exists before rest,
    children self = before ++ child :: rest
    /\ text child = txt
    /\ (forall ct, childtype = Some ct -> type_of child = ct)
    /\ Forall (fun c => child_matches txt childtype c = false) before.
Proof.
  unfold find_child_by_text. generalize (children self) as chs.
  induction chs as [|c chs IH]; cbn [find_in]; [discriminate|].
  destruct (child_matches txt childtype c) eqn:E.
  - intros H. inversion H; subst c. exists [], chs.
    apply child_matches_spec in E. destruct E as [Et Ec].
    repeat split; [exact Et | exact Ec | constructor].
  - intros H. destruct (IH H) as (before & rest & Hc & Ht & Hty & Hb).
    exists (c :: before), rest. rewrite Hc.
    repeat split; [exact Ht | exact Hty | now constructor].
Qed.

Lemma find_child_by_text_first_match_witness :
  exists before rest,
    children (mkNode Parser [] [OrgTextNode (py "a"); OrgCommentNode (py "a");
                               OrgDirectiveNode (py "a") (py "N")])
      = before ++ OrgCommentNode (py "a") :: rest
    /\ text (OrgCommentNode (py "a")) = py "a"
    /\ (forall ct, Some OrgCommentNodeT = Some ct
                   -> type_of (OrgCommentNode (py "a")) = ct)
    /\ Forall (fun c => child_matches (py "a") (Some OrgCommentNodeT) c = false)
              before.
Proof.
  apply (find_child_by_text_first_match
           (mkNode Parser [] [OrgTextNode (py "a"); OrgCommentNode (py "a");
                              OrgDirectiveNode (py "a") (py "N")])
           (py "a") (Some OrgCommentNodeT) (OrgCommentNode (py "a"))).
  reflexivity.
Defined.

(** X4.  [find_child_by_text] returns [None] exactly when no immediate
    child passes both tests; what lies deeper in the tree plays no
    part. *)
Theorem find_child_by_text_none_iff self txt childtype :
  find_child_by_text self txt childtype = None <->
  Forall (fun c => text c <> txt
                   \/ exists ct, childtype = Some ct /\ type_of c <> ct)
         (children self).
Proof.
  unfold find_child_by_text. generalize (children self) as chs.
  induction chs as [|c chs IH]; cbn [find_in].
  - split; [constructor | reflexivity].
  - destruct (child_matches txt childtype c) eqn:E.
    + split; [discriminate|]. intros H. inversion H as [|? ? Hc _]; subst.
      apply child_matches_spec in E. destruct E as [Et Ety].
      destruct Hc as [Hc | (ct & Hct & Hne)]; [contradiction|].
      now specialize (Ety ct Hct).
    + rewrite IH. split; intros H.
      * constructor; [|exact H].
        destruct (list_eq_dec ascii_dec (text c) txt) as [Et|Et]; [|now left].
        right. destruct childtype as [ct|].
        -- exists ct. split; [reflexivity|]. intros Hty.
           assert (Hm : child_matches txt (Some ct) c = true).
           { apply child_matches_spec. split; [exact Et|].
             intros ct' Hs. now inversion Hs; subst. }
           congruence.
        -- assert (Hm : child_matches txt None c = true).
           { apply child_matches_spec. split; [exact Et | discriminate]. }
           congruence.
      * now inversion H.
Qed.

(** X5.  Appending a child changes the answer of [find_child_by_text]
    only when there was none: an earlier match stays the answer, and the
    new child is returned if it is the first to pass the tests. *)
Theorem find_child_by_text_append self x txt childtype :
  find_child_by_text (append_child self x) txt childtype =
    match find_child_by_text self txt childtype with
    | Some child => Some child
    | None => if child_matches txt childtype x then Some x else None
    end.
Proof.
  unfold find_child_by_text, append_child. cbn [children].
  generalize (children self) as chs.
  induction chs as [|c chs IH]; cbn [find_in app]; [reflexivity|].
  destruct (child_matches txt childtype c); [reflexivity | exact IH].
Qed.

(** ** Tags *)

Lemma split_acc_nonempty sep s cur : split_acc sep s cur <> [].
Proof.
  revert cur. induction s as [|c s IH]; intros cur; cbn [split_acc]; [discriminate|].
  destruct (Ascii.eqb c sep); [discriminate | apply IH].
Qed.

Lemma join_split_acc sep s cur :
  join [sep] (split_acc sep s cur) = rev cur ++ s.
Proof.
  revert cur. induction s as [|c s IH]; intros cur; cbn [split_acc].
  - cbn. now rewrite app_nil_r.
  - destruct (Ascii.eqb c sep) eqn:E.
    + apply Ascii.eqb_eq in E. subst c.
      rewrite join_cons by apply split_acc_nonempty.
      rewrite IH. reflexivity.
    + rewrite IH. cbn [rev]. now rewrite <- app_assoc.
Qed.

Lemma split_acc_no_sep sep s cur :
  ~ In sep s -> split_acc sep s cur = [rev cur ++ s].
Proof.
  revert cur. induction s as [|c s IH]; intros cur Hn; cbn [split_acc].
  - now rewrite app_nil_r.
  - destruct (Ascii.eqb c sep) eqn:E.
    + apply Ascii.eqb_eq in E. subst c. exfalso. apply Hn. now left.
    + rewrite IH by (intros Hi; apply Hn; now right).
      cbn [rev]. now rewrite <- app_assoc.
Qed.

Lemma split_acc_app sep (t : str) s cur :
  ~ In sep t ->
  split_acc sep (t ++ sep :: s) cur = (rev cur ++ t) :: split_acc sep s [].
Proof.
  revert cur. induction t as [|c t IH]; intros cur Hn.
  - cbn [app split_acc]. rewrite Ascii.eqb_refl. now rewrite app_nil_r.
  - cbn [app split_acc]. destruct (Ascii.eqb c sep) eqn:E.
    + apply Ascii.eqb_eq in E. subst c. exfalso. apply Hn. now left.
    + rewrite IH by (intros Hi; apply Hn; now right).
      cbn [rev]. now rewrite <- app_assoc.
Qed.

(** X6.  The tag group comes back as it was captured: a heading node
    whose tags are the split of the captured text [stags] renders that
    text between its colons unchanged, empty tags included, and the
    split is never the empty list, so the group is always written. *)
Theorem headline_tag_group_rendered done priority title stags :
  split ":" stags <> []
  /\ exists front,
       node_str (mkNode (Headline done priority (split ":" stags)) title [])
         = front ++ title ++ py " :" ++ stags ++ py ":".
Proof.
  split; [apply split_acc_nonempty|].
  unfold node_str. cbn [cls text].
  eexists (_ ++ _). rewrite <- app_assoc. do 3 f_equal.
  destruct (split ":" stags) eqn:E; [now apply split_acc_nonempty in E|].
  rewrite <- E. unfold split.
  change (py ":") with [":"%char] at 1.
  now rewrite join_split_acc.
Qed.

(** Tags that contain no colon survive joining and splitting: the split
    of a non-empty list of such tags joined by colons is that list. *)
Lemma split_join_tags tags :
  tags <> [] -> Forall (fun t => ~ In ":"%char t) tags ->
  split ":" (join (py ":") tags) = tags.
Proof.
  intros Hne Hall. unfold split. change (py ":") with [":"%char].
  induction tags as [|t tags IH]; [congruence|].
  inversion Hall as [|? ? Ht Hts]; subst.
  destruct tags as [|u tags].
  - cbn [join]. now rewrite split_acc_no_sep.
  - rewrite join_cons by discriminate. cbn [app].
    rewrite split_acc_app by exact Ht. cbn [rev app].
    f_equal. apply IH; [discriminate | exact Hts].
Qed.

(** ** Invariants of the tokenizer *)

Lemma lstrip_blank s : forallb isspace s = true -> lstrip s = [].
Proof.
  induction s as [|c s IH]; simpl; [reflexivity|].
  destruct (isspace c); [exact IH | discriminate].
Qed.

Lemma lstrip_nil_blank s : lstrip s = [] -> forallb isspace s = true.
Proof.
  induction s as [|c s IH]; simpl; [reflexivity|].
  destruct (isspace c); [exact IH | discriminate].
Qed.

Lemma rstrip_blank s : forallb isspace s = true -> rstrip s = [].
Proof.
  intros H. unfold rstrip. rewrite lstrip_blank; [reflexivity|].
  apply forallb_forall. intros x Hx. apply in_rev in Hx.
  rewrite forallb_forall in H. now apply H.
Qed.

Lemma nth_error_skipn (A : Type) (l : list A) n x :
  nth_error l n = Some x -> exists rest, skipn n l = x :: rest.
Proof.
  revert l. induction n as [|n IH]; intros [|a l] H; try discriminate.
  - inversion H; subst. now exists l.
  - now apply IH.
Qed.

Lemma heading_title_ok b pos c :
  rstrip b = b -> nth_error b pos = Some c -> isspace c = true ->
  title_ok (Some (skipn (skip_space b pos) b)).
Proof.
  intros Hb Hn Hc. rewrite skip_space_skipn.
  destruct (nth_error_skipn _ _ _ _ Hn) as [rest Hs].
  assert (Hr : rstrip (skipn pos b) = skipn pos b).
  { apply (rstrip_fixed_suffix (firstn pos b)). now rewrite firstn_skipn. }
  exists (lstrip (skipn pos b)). split; [reflexivity|].
  split; [|split; [apply lstrip_idem | now apply rstrip_lstrip]].
  intros He. apply lstrip_nil_blank, rstrip_blank in He.
  rewrite Hr, Hs in He. discriminate.
Qed.

Lemma skipn_cons_inv (A : Type) n (f : list A) l more :
  skipn n f = l :: more -> skipn (S n) f = more /\ S n <= length f.
Proof.
  revert f. induction n as [|n IH]; intros f H.
  - destruct f; [discriminate|]. inversion H; subst. split; [reflexivity | simpl; lia].
  - destruct f as [|a f]; [discriminate|].
    destruct (IH f H) as [H1 H2]. split; [exact H1 | simpl; lia].
Qed.

Lemma new_level_le lv r : new_level lv r <= lv + 1.
Proof.
  destruct (new_level_cases lv r) as (H1 & H2 & H3).
  destruct (Nat.lt_trichotomy lv r) as [H|[H|H]];
    [rewrite H1 | rewrite H3 | rewrite H2]; lia.
Qed.

Lemma next_scan_fresh_inv f more b lv old ln nfo self' :
  rstrip b = b -> more = skipn ln f -> 1 <= ln -> ln <= length f ->
  lv < ln -> old < ln ->
  next_scan (mkOrgParseIter more (Some b) 0 lv old [] ln) b = Ok (nfo, self') ->
  tokenizer_inv f self'
  /\ line nfo = ln /\ lineno self' = ln
  /\ (type nfo = HEADLINE -> title_ok (value nfo))
  /\ (type nfo = DIRECTIVE ->
      exists name, value nfo = Some name /\ forallb is_ctl_char name = true).
Proof.
  intros Hb Hmore Hln Hlen Hlv Hold H.
  unfold next_scan, next_headline, next_comment, next_rest in H.
  cbn [bufpos lineno level hold oldlevel] in H.
  repeat case_scrutinee H; inversion H; subst nfo self'; clear H;
    (split; [constructor|]);
    cbn [lineno fileobj hold level oldlevel buf bufpos set_hold set_bufpos
         set_levels type value line app];
    try exact Hlen; try exact Hmore; try lia;
    try (now constructor);
    try (now left);
    try (repeat split; try reflexivity; discriminate).
  all: try (eapply Nat.le_trans; [apply new_level_le | lia]).
  - (* the heading is queued: every held token has the line number *)
    constructor; [now split|].
    apply Forall_forall. intros x Hx. apply repeat_spec in Hx. now subst x.
  - constructor; [intros _|].
    + apply negb_false_iff in E3. now apply heading_title_ok with (c := a).
    + apply Forall_forall. intros x Hx. apply repeat_spec in Hx. subst x.
      discriminate.
  - right. right. eexists. eexists. split; [reflexivity|].
    split; [reflexivity|]. split.
    + apply Forall_forall. intros x Hx. apply repeat_spec in Hx. now subst x.
    + unfold set_hold, set_bufpos, set_levels.
      cbn [level oldlevel lineno hold fileobj buf bufpos].
      rewrite repeat_length. apply Nat.leb_le in E4. cbn [skipn] in E4.
      split; lia.
  - (* the heading is returned *)
    repeat split; try reflexivity; try discriminate.
    intros _. apply negb_false_iff in E3. now apply heading_title_ok with (c := a).
  - (* the directive *)
    right. left. eexists. split; reflexivity.
  - repeat split; try reflexivity; try discriminate.
    intros _. eexists. split; [reflexivity|].
    match goal with
    | Hw : negb (is_ctl_word _ _ _) = false |- _ =>
        apply negb_false_iff in Hw; exact Hw
    end.
Qed.

Lemma hold_shape_pop self h0 x :
  hold self = h0 ++ [x] -> hold_shape self -> hold_shape (set_hold self h0).
Proof.
  intros Hh [He | [(t & Ht & _) | (h & rest & Hr & Hty & Hall & Hlv & Hold)]].
  - rewrite He in Hh. now destruct h0.
  - left. rewrite Ht in Hh. destruct h0 as [|a [|a' h0]]; [reflexivity| |]; discriminate.
  - rewrite Hr in Hh. destruct h0 as [|a h0]; [now left|].
    right. right. cbn [app] in Hh. inversion Hh; subst a rest.
    exists h, h0. apply Forall_app in Hall as [Hall _].
    rewrite length_app in Hlv. cbn [length] in Hlv.
    repeat split; try reflexivity; try assumption;
      unfold set_hold; cbn [level oldlevel lineno hold]; lia.
Qed.

Lemma tokenizer_step f self nfo self' :
  reachable f self -> tokenizer_inv f self -> next self = Ok (nfo, self') ->
  tokenizer_inv f self'
  /\ line nfo = lineno self' /\ 1 <= line nfo /\ lineno self <= lineno self'
  /\ (type nfo = HEADLINE -> title_ok (value nfo))
  /\ (type nfo = DIRECTIVE ->
      exists name, value nfo = Some name /\ forallb is_ctl_char name = true).
Proof.
  intros Hr [Hln Hfo Hhl Hht Hsh Hlv Hold] Hn.
  destruct (hold self) as [|x h0] eqn:Eh using rev_ind.
  - destruct (next_fresh _ _ _ _ Hr Eh Hn) as (l & more & Hf & Hs).
    rewrite Hf in Hfo. symmetry in Hfo.
    destruct (skipn_cons_inv _ _ _ _ _ Hfo) as [Hmore Hlen].
    apply (next_scan_fresh_inv f) in Hs;
      [|apply rstrip_idem | now symmetry | lia | exact Hlen | lia | lia].
    destruct Hs as (Hinv & Hl & Hl' & Ht & Hd).
    split; [exact Hinv|]. rewrite Hl, Hl'.
    repeat split; try assumption; lia.
  - clear IHh0. rewrite (next_pop _ _ _ Eh) in Hn. inversion Hn; subst x self'.
    apply Forall_app in Hhl as [Hhl1 Hhl2].
    apply Forall_app in Hht as [Hht1 Hht2].
    inversion Hhl2 as [|? ? [Hl1 Hl2] _]; subst.
    inversion Hht2 as [|? ? Ht _]; subst.
    split; [constructor; try assumption; now apply hold_shape_pop with (x := nfo)|].
    cbn [lineno set_hold]. repeat split; try assumption; try lia.
    intros Hd. destruct (reachable_inv _ _ Hr) as [_ Hheld].
    rewrite Eh in Hheld. apply Forall_app in Hheld as [_ Hheld].
    inversion Hheld as [|? ? [Hnd _] _]; subst. contradiction.
Qed.

Lemma reachable_tokenizer_inv f self : reachable f self -> tokenizer_inv f self.
Proof.
  induction 1 as [|self nfo self' Hr IH Hn].
  - constructor; cbn; try lia; try constructor. reflexivity.
  - now destruct (tokenizer_step _ _ _ _ Hr IH Hn).
Qed.

(** X8.  Every token carries the number of the line it came from,
    counted from 1: it is the number of lines read so far, the lines not
    read yet are the input from that line on, and along the token
    sequence the numbers never go down. *)
Theorem token_line_numbers f self nfo self' :
  reachable f self -> next self = Ok (nfo, self') ->
  1 <= line nfo /\ line nfo <= length f
  /\ line nfo = lineno self'
  /\ fileobj self' = skipn (line nfo) f
  /\ lineno self <= line nfo.
Proof.
  intros Hr Hn.
  destruct (tokenizer_step _ _ _ _ Hr (reachable_tokenizer_inv _ _ Hr) Hn)
    as ([Hln Hfo _ _ _ _ _] & Hl & H1 & Hmono & _).
  rewrite Hl. repeat split; try assumption; lia.
Qed.

Lemma token_line_numbers_witness :
  1 <= line (exit_token 4) /\ line (exit_token 4) <= length example_lines
  /\ line (exit_token 4) = lineno (after 4 (OrgParseIter_init example_lines))
  /\ fileobj (after 4 (OrgParseIter_init example_lines))
     = skipn (line (exit_token 4)) example_lines
  /\ lineno (after 3 (OrgParseIter_init example_lines)) <= line (exit_token 4).
Proof.
  apply (token_line_numbers example_lines
           (after 3 (OrgParseIter_init example_lines)) (exit_token 4)
           (after 4 (OrgParseIter_init example_lines))).
  - apply reachable_after. eexists; eexists; reflexivity.
  - reflexivity.
Defined.

(** X9.  The value of every DIRECTIVE token, which becomes the name of
    the directive node, is made of upper-case letters and underscores
    only. *)
Theorem directive_name_is_control_word f self nfo self' :
  reachable f self -> next self = Ok (nfo, self') -> type nfo = DIRECTIVE ->
  exists name, value nfo = Some name /\ forallb is_ctl_char name = true.
Proof.
  intros Hr Hn Ht.
  destruct (tokenizer_step _ _ _ _ Hr (reachable_tokenizer_inv _ _ Hr) Hn)
    as (_ & _ & _ & _ & _ & Hd).
  now apply Hd.
Qed.

Lemma directive_name_is_control_word_witness :
  exists name,
    value (mkTokenInfo DIRECTIVE 1 (Some (py "NAME"))) = Some name
    /\ forallb is_ctl_char name = true.
Proof.
  apply (directive_name_is_control_word [py "#+NAME: foo"]
           (OrgParseIter_init [py "#+NAME: foo"])
           (mkTokenInfo DIRECTIVE 1 (Some (py "NAME")))
           (after 1 (OrgParseIter_init [py "#+NAME: foo"]))).
  - apply reach_init.
  - reflexivity.
  - reflexivity.
Defined.

(** X10.  The value of every HEADLINE token is a title that is not empty
    and has no whitespace at either end: a run of markers with nothing
    but whitespace after it is no heading. *)
Theorem headline_token_title f self nfo self' :
  reachable f self -> next self = Ok (nfo, self') -> type nfo = HEADLINE ->
  exists title,
    value nfo = Some title
    /\ title <> [] /\ lstrip title = title /\ rstrip title = title.
Proof.
  intros Hr Hn Ht.
  destruct (tokenizer_step _ _ _ _ Hr (reachable_tokenizer_inv _ _ Hr) Hn)
    as (_ & _ & _ & _ & Hh & _).
  now apply Hh.
Qed.

Lemma headline_token_title_witness :
  exists title,
    value (mkTokenInfo HEADLINE 4 (Some (py "Next"))) = Some title
    /\ title <> [] /\ lstrip title = title /\ rstrip title = title.
Proof.
  apply (headline_token_title example_lines
           (after 5 (OrgParseIter_init example_lines))
           (mkTokenInfo HEADLINE 4 (Some (py "Next")))
           (after 6 (OrgParseIter_init example_lines))).
  - apply reachable_after. eexists; eexists; vm_compute; reflexivity.
  - vm_compute. reflexivity.
  - reflexivity.
Defined.

Lemma hold_shape_length self : hold_shape self -> length (hold self) <= S (oldlevel self).
Proof.
  intros [He | [(t & Ht & _) | (h & rest & Hr & _ & _ & Hlv & _)]].
  - rewrite He. cbn. lia.
  - rewrite Ht. cbn. lia.
  - rewrite Hr. cbn. lia.
Qed.

(** X11.  The look-ahead of the tokenizer is bounded.  In every state it
    reaches, the pending buffer holds nothing, or one TEXT token, or one
    HEADLINE token under closing signals, no more of them than the last
    heading gave levels up; so it never holds more tokens than lines were
    read, and the nesting level never exceeds the number of lines read. *)
Theorem pending_buffer_bounded f self :
  reachable f self ->
  hold_shape self
  /\ length (hold self) <= lineno self
  /\ level self <= lineno self.
Proof.
  intros Hr. destruct (reachable_tokenizer_inv _ _ Hr) as [_ _ Hhl _ Hsh Hlv Hold].
  split; [exact Hsh|]. split; [|exact Hlv].
  destruct Hsh as [He | [(t & Ht & _) | (h & rest & Hh & _ & _ & Hl & Ho)]].
  - rewrite He. cbn. lia.
  - rewrite Ht in *. inversion Hhl as [|? ? [_ H1] _]. cbn. lia.
  - rewrite Hh. cbn. lia.
Qed.

Lemma pending_buffer_bounded_witness :
  hold_shape (after 4 (OrgParseIter_init example_lines))
  /\ length (hold (after 4 (OrgParseIter_init example_lines)))
     <= lineno (after 4 (OrgParseIter_init example_lines))
  /\ level (after 4 (OrgParseIter_init example_lines))
     <= lineno (after 4 (OrgParseIter_init example_lines)).
Proof.
  apply (pending_buffer_bounded example_lines).
  apply reachable_after. eexists; eexists; reflexivity.
Defined.

(** X12.  A blank line, empty or made of whitespace only, gives one TEXT
    token with the empty string as its value; nothing is queued and the
    nesting level stays as it was. *)
Theorem blank_line_is_empty_text f self l more :
  reachable f self -> hold self = [] -> fileobj self = l :: more ->
  forallb isspace l = true ->
  exists self',
    next self = Ok (mkTokenInfo TEXT (S (lineno self)) (Some []), self')
    /\ hold self' = [] /\ level self' = level self /\ fileobj self' = more.
Proof.
  intros Hr Hh Hf Hb. destruct (reachable_inv _ _ Hr) as [Hc _].
  assert (Hp : plain_line (rstrip l)).
  { rewrite (rstrip_blank _ Hb). apply plain_empty. }
  rewrite (next_plain _ _ _ Hh Hc Hf Hp), (rstrip_blank _ Hb).
  eexists. repeat split.
Qed.

Lemma blank_line_is_empty_text_witness :
  exists self',
    next (after 1 (OrgParseIter_init [py "* A"; py "   "])) =
      Ok (mkTokenInfo TEXT 2 (Some []), self')
    /\ hold self' = []
    /\ level self' = level (after 1 (OrgParseIter_init [py "* A"; py "   "]))
    /\ fileobj self' = [].
Proof.
  apply (blank_line_is_empty_text [py "* A"; py "   "]
           (after 1 (OrgParseIter_init [py "* A"; py "   "])) (py "   ") []).
  - apply reachable_after. eexists; eexists; reflexivity.
  - reflexivity.
  - reflexivity.
  - reflexivity.
Defined.

(** ** Every line, one by one *)

Lemma star_split b :
  exists t,
    b = repeat "*" (prefix_len is_star b) ++ t
    /\ (t = [] \/ exists c t', t = c :: t' /\ is_star c = false).
Proof.
  induction b as [|x b (t & Hb & Ht)].
  - exists []. split; [reflexivity | now left].
  - cbn [prefix_len]. destruct (is_star x) eqn:E.
    + exists t. split; [|exact Ht].
      apply Ascii.eqb_eq in E. subst x. cbn [repeat app]. now f_equal.
    + exists (x :: b). split; [reflexivity|]. right. now exists x, b.
Qed.

Lemma startswith_star_run b : startswith b "*" = true -> 1 <= prefix_len is_star b.
Proof.
  destruct b as [|x b]; [discriminate|]. cbn [startswith prefix_len].
  unfold is_star. intros ->. lia.
Qed.

(** A heading line is a run of markers, a whitespace character, and the
    rest. *)
Lemma heading_run_some b r :
  heading_run b = Some r ->
  exists c t, b = repeat "*" r ++ c :: t /\ 1 <= r /\ isspace c = true.
Proof.
  unfold heading_run. destruct (startswith b "*") eqn:Es; [|discriminate].
  pose proof (startswith_star_run _ Es) as Hr.
  destruct (star_split b) as (t & Hb & Ht).
  destruct (nth_error b (prefix_len is_star b)) as [c|] eqn:En; [|discriminate].
  destruct (isspace c) eqn:Ec; [|discriminate].
  intros H. inversion H; subst r.
  destruct Ht as [-> | (c' & t' & -> & _)].
  - rewrite app_nil_r in Hb. rewrite Hb in En at 1.
    assert (Hlt : nth_error (repeat "*"%char (prefix_len is_star b))
                            (prefix_len is_star b) <> None) by congruence.
    apply nth_error_Some in Hlt. rewrite repeat_length in Hlt. lia.
  - rewrite Hb in En at 1. rewrite nth_error_stars in En. inversion En; subst c'.
    now exists c, t'.
Qed.

Lemma heading_run_hash cw : heading_run ("#" :: cw) = None.
Proof. reflexivity. Qed.

(** A line that is no heading and does not start with the comment marker
    is a text line. *)
Lemma heading_run_none_plain b :
  startswith b "#" = false -> heading_run b = None -> plain_line b.
Proof.
  intros Hh Hr. destruct b as [|x b']; [apply plain_empty|].
  destruct (Ascii.eqb x "*") eqn:Ex.
  - unfold heading_run in Hr. cbn [startswith] in Hr. rewrite Ex in Hr.
    assert (Hs : startswith (x :: b') "*" = true) by exact Ex.
    pose proof (startswith_star_run _ Hs) as H1.
    destruct (star_split (x :: b')) as (t & Hb & Ht).
    destruct Ht as [-> | (c & t' & -> & Hc)].
    + rewrite app_nil_r in Hb. rewrite Hb. now apply plain_stars_only.
    + rewrite Hb in Hr at 1. rewrite nth_error_stars in Hr.
      rewrite Hb. apply plain_stars; [exact H1 | |].
      * intros ->. discriminate Hc.
      * destruct (isspace c); [discriminate | reflexivity].
  - apply plain_other.
    + intros ->. discriminate Ex.
    + intros ->. discriminate Hh.
Qed.

Lemma level_after_plain lv b : heading_run b = None -> level_after lv b = lv.
Proof. unfold level_after. now intros ->. Qed.

Lemma trace_length lv ls : length (trace lv ls) = length ls.
Proof.
  revert lv. induction ls as [|l ls IH]; intros lv; cbn [trace length];
    [reflexivity | now rewrite IH].
Qed.

Lemma trace_lines lv ls : map snd (trace lv ls) = map rstrip ls.
Proof.
  revert lv. induction ls as [|l ls IH]; intros lv; cbn [trace map];
    [reflexivity | now rewrite IH].
Qed.

Lemma line_node_not_marker_only n : ~ line_node ["#"] n.
Proof.
  intros H. inversion H; subst; try discriminate.
  congruence.
Qed.

(** What the next call does with the line to be read: the five cases. *)
Lemma next_line_cases self lv l more :
  idle self lv (l :: more) ->
  (rstrip l = ["#"] /\ next self = Raise IndexError)
  \/ (exists nfo x,
        next self = Ok (nfo, mkOrgParseIter more (Some (rstrip l))
                                           (length (rstrip l)) lv (oldlevel self) []
                                           (S (lineno self)))
        /\ heading_run (rstrip l) = None
        /\ line_node (rstrip l) x
        /\ children x = [] /\ is_headline x = false
        /\ (type nfo = TEXT /\ x = OrgTextNode (the (value nfo))
            \/ type nfo = COMMENT /\ x = OrgCommentNode (the (value nfo))))
  \/ (exists name args,
        next self = Ok (mkTokenInfo DIRECTIVE (S (lineno self)) (Some name),
                        mkOrgParseIter more (Some (rstrip l)) (length (rstrip l))
                                       lv (oldlevel self)
                                       [mkTokenInfo TEXT (S (lineno self)) (Some args)]
                                       (S (lineno self)))
        /\ heading_run (rstrip l) = None
        /\ line_node (rstrip l) (OrgDirectiveNode args name))
  \/ (exists r,
        heading_run (rstrip l) = Some r
        /\ next self =
             if new_level lv r <=? lv
             then Ok (exit_token (S (lineno self)),
                      mkOrgParseIter more (Some (rstrip l)) (length (rstrip l))
                        (new_level lv r) lv
                        (mkTokenInfo HEADLINE (S (lineno self))
                                     (Some (lstrip (skipn r (rstrip l))))
                           :: repeat (exit_token (S (lineno self)))
                                     (lv - new_level lv r))
                        (S (lineno self)))
             else Ok (mkTokenInfo HEADLINE (S (lineno self))
                                  (Some (lstrip (skipn r (rstrip l)))),
                      mkOrgParseIter more (Some (rstrip l)) (length (rstrip l))
                        (new_level lv r) lv [] (S (lineno self)))).
Proof.
  intros (Hh & Hc & Hlv & Hf).
  destruct (startswith (rstrip l) "#") eqn:Es.
  - destruct (rstrip l) as [|x cw] eqn:Eb; [discriminate|].
    cbn [startswith] in Es. apply Ascii.eqb_eq in Es. subst x.
    destruct cw as [|c w].
    + left. split; [reflexivity|].
      rewrite (next_read _ _ _ Hh Hc Hf), Eb. reflexivity.
    + right. pose proof (next_hash _ _ _ _ _ Hh Hc Hf Eb) as Hn.
      cbv zeta in Hn. rewrite Eb, Hlv in Hn.
      destruct (directive_parts (c :: w)) as [[name args]|] eqn:Ed.
      * right. left. exists name, args.
        pose proof Ed as Ed0. unfold directive_parts in Ed.
        destruct (Ascii.eqb c "+"); [|discriminate].
        destruct (find ":" w 0) as [i|]; [|discriminate].
        destruct (forallb is_ctl_char (firstn i w)); [|discriminate].
        inversion Ed; subst name args.
        split; [exact Hn|]. split; [reflexivity|].
        apply ln_directive. exact Ed0.
      * left. exists (mkTokenInfo COMMENT (S (lineno self)) (Some (lstrip (c :: w)))).
        exists (OrgCommentNode (lstrip (c :: w))).
        split.
        { unfold directive_parts in Ed.
          destruct (Ascii.eqb c "+"); [|exact Hn].
          destruct (find ":" w 0) as [i|]; [|exact Hn].
          destruct (forallb is_ctl_char (firstn i w)); [discriminate | exact Hn]. }
        split; [reflexivity|].
        split; [apply ln_comment; [discriminate | exact Ed]|].
        split; [reflexivity|]. split; [reflexivity|].
        right. split; reflexivity.
  - destruct (heading_run (rstrip l)) as [r|] eqn:Er.
    + right. right. right. exists r. split; [reflexivity|].
      destruct (heading_run_some _ _ Er) as (c & t & Hb & Hr & Hsp).
      assert (Hval : lstrip (skipn r (rstrip l)) = lstrip t).
      { rewrite Hb, skipn_stars. now apply lstrip_space. }
      rewrite Hval, (next_heading _ _ _ _ _ _ Hh Hc Hf Hb Hr Hsp), Hlv.
      reflexivity.
    + right. left.
      exists (mkTokenInfo TEXT (S (lineno self)) (Some (rstrip l))).
      exists (OrgTextNode (rstrip l)).
      rewrite (next_plain _ _ _ Hh Hc Hf (heading_run_none_plain _ Es Er)), Hlv.
      split; [reflexivity|]. split; [reflexivity|].
      split; [now apply ln_text|].
      split; [reflexivity|]. split; [reflexivity|].
      left. split; reflexivity.
Qed.

(** ** The tree builder on any input *)

Lemma forest_nodes_cons x kids depth :
  forest_nodes (x :: kids) depth =
    (depth, x) :: nodes_below x (depth + 1) ++ forest_nodes kids depth.
Proof. reflexivity. Qed.

Lemma nodes_below_with_children node kids depth :
  nodes_below (with_children node kids) depth
    = forest_nodes (children node ++ kids) depth.
Proof. reflexivity. Qed.

Lemma nodes_below_leaf x depth : children x = [] -> nodes_below x depth = [].
Proof. destruct x as [c t chs]. cbn. now intros ->. Qed.

Lemma is_headline_with_children node kids :
  is_headline (with_children node kids) = is_headline node.
Proof. destruct node. reflexivity. Qed.

Lemma frame_result2_leaf d p x rem kids self' :
  placed p (d + 1, x) -> children x = [] ->
  frame_result2 d rem kids self' ->
  frame_result2 d (p :: rem) (x :: kids) self'.
Proof.
  intros Hp Hx (done & rest & Hrem & Hall & Hend).
  exists (p :: done), rest. split; [now rewrite Hrem|]. split; [|exact Hend].
  rewrite forest_nodes_cons, (nodes_below_leaf _ _ Hx). now constructor.
Qed.

Lemma frame_result2_exit d d' rem self' :
  d = S d' -> frame2 d' self' rem -> frame_result2 d rem [] self'.
Proof.
  intros Hd Hf. exists [], rem. split; [reflexivity|]. split; [constructor|].
  right. now exists d'.
Qed.

Lemma outcome_leaf d self self1 nfo x p rem dest lvl room dname :
  next self = Ok (nfo, self1) ->
  (type nfo = TEXT /\ x = OrgTextNode (the (value nfo))
   \/ type nfo = COMMENT /\ x = OrgCommentNode (the (value nfo))) ->
  children x = [] -> placed p (d + 1, x) ->
  frame_outcome d rem
    (fun fuel => parse_loop fuel self1 (append_child dest x) lvl room None dname)
    (append_child dest x) ->
  frame_outcome d (p :: rem)
    (fun fuel => parse_loop fuel self dest lvl room None dname) dest.
Proof.
  intros Hn Hx Hch Hp [[Hbad (fuel0 & Hrun)] | (kids & self' & fuel0 & Hrun & Hres)].
  - left. split; [now apply Exists_cons_tl|].
    exists (S fuel0). intros fuel Hfuel. destruct fuel as [|fuel]; [lia|].
    rewrite parse_loop_S, Hn.
    destruct Hx as [[Ht ->] | [Ht ->]]; rewrite Ht; cbv zeta; apply Hrun; lia.
  - right. exists (x :: kids), self', (S fuel0). split.
    + intros fuel Hfuel. destruct fuel as [|fuel]; [lia|].
      rewrite parse_loop_S, Hn. rewrite <- with_children_append.
      destruct Hx as [[Ht ->] | [Ht ->]]; rewrite Ht; cbv zeta; apply Hrun; lia.
    + now apply frame_result2_leaf.
Qed.

Lemma outcome_directive d self self1 ln name args p rem dest lvl room dname :
  next self = Ok (mkTokenInfo DIRECTIVE ln (Some name), self1) ->
  hold self1 = [mkTokenInfo TEXT ln (Some args)] ->
  placed p (d + 1, OrgDirectiveNode args name) ->
  frame_outcome d rem
    (fun fuel => parse_loop fuel (set_hold self1 [])
                            (append_child dest (OrgDirectiveNode args name))
                            lvl room None (Some name))
    (append_child dest (OrgDirectiveNode args name)) ->
  frame_outcome d (p :: rem)
    (fun fuel => parse_loop fuel self dest lvl room None dname) dest.
Proof.
  intros Hn Hh Hp [[Hbad (fuel0 & Hrun)] | (kids & self' & fuel0 & Hrun & Hres)].
  - left. split; [now apply Exists_cons_tl|].
    exists (S (S fuel0)). intros fuel Hfuel.
    destruct fuel as [|[|fuel]]; [lia | lia |].
    rewrite parse_loop_S, Hn. cbn [type value].
    rewrite parse_loop_S, (next_pop_single _ _ Hh). cbn [type value the].
    cbv zeta. apply Hrun. lia.
  - right. exists (OrgDirectiveNode args name :: kids), self', (S (S fuel0)). split.
    + intros fuel Hfuel. destruct fuel as [|[|fuel]]; [lia | lia |].
      rewrite parse_loop_S, Hn. cbn [type value].
      rewrite parse_loop_S, (next_pop_single _ _ Hh). cbn [type value the].
      cbv zeta. rewrite <- with_children_append. apply Hrun. lia.
    + now apply frame_result2_leaf.
Qed.

Lemma outcome_exit d d' self self1 nfo rem dest lvl room dname :
  next self = Ok (nfo, self1) -> type nfo = HLEXIT ->
  d = S d' -> frame2 d' self1 rem ->
  frame_outcome d rem
    (fun fuel => parse_loop fuel self dest lvl room None dname) dest.
Proof.
  intros Hn Ht Hd Hf. right. exists [], self1, 1. split.
  - intros fuel Hfuel. now apply (runs_to_exit self self1 dest lvl room dname nfo).
  - now apply frame_result2_exit with (d' := d').
Qed.

Lemma Exists_marker_app (done rest : list (nat * str)) :
  Exists (fun p => marker_only (snd p)) rest ->
  Exists (fun p => marker_only (snd p)) (done ++ rest).
Proof. intros H. apply Exists_app. now right. Qed.

Section FrameStep2.

Variable n : nat.

Hypothesis IH :
  forall d room self rem, length rem < n -> frame2 d self rem ->
  Forall (fun p => fst p <= d + room) rem ->
  forall dest lvl dname,
    frame_outcome d rem
      (fun fuel => parse_loop fuel self dest lvl room None dname) dest.

(** The heading token has been taken, on any input, and there is room
    for the nested call. *)
Lemma heading_step2 d room self1 ls b r' node dest lvl dname :
  idle self1 (d + 1) ls -> length ls < n ->
  heading_run b = Some r' -> OrgHeadlineNode (lstrip (skipn r' b)) = Ok node ->
  Forall (fun p => fst p <= d + 1 + room) (trace (d + 1) ls) ->
  frame_outcome d ((d + 1, b) :: trace (d + 1) ls)
    (fun fuel =>
       match parse_loop fuel self1 node (lvl + 1) room None None with
       | Some (Ok (child', o2)) =>
           parse_loop fuel o2 (append_child dest child') lvl (S room) None dname
       | other => other
       end)
    dest.
Proof.
  intros Hidle Hlen Hrun Hnode Hbound.
  destruct (OrgHeadlineNode_new _ _ Hnode) as [Hch Hhd].
  assert (Hlen' : length (trace (d + 1) ls) < n) by now rewrite trace_length.
  destruct (IH (d + 1) room self1 _ Hlen' (frame2_idle _ _ _ Hidle) Hbound
               node (lvl + 1) None)
    as [[Hbad (fuel_c & Hrun_c)]
       | (kids_c & self2 & fuel_c & Hrun_c & (done_c & rest_c & Hrem & Hall_c & Hend_c))].
  - left. split; [now apply Exists_cons_tl|].
    exists fuel_c. intros fuel Hfuel. now rewrite Hrun_c.
  - assert (Hplaced : placed (d + 1, b) (d + 1, with_children node kids_c)).
    { split; cbn [fst snd].
      - now apply ln_heading with (r := r').
      - now rewrite is_headline_with_children, Hhd. }
    assert (Hsub : nodes_below (with_children node kids_c) (d + 1 + 1)
                   = forest_nodes kids_c (d + 1 + 1)).
    { now rewrite nodes_below_with_children, Hch. }
    destruct Hend_c as [[Hex ->] | (d' & Hd' & Hf2)].
    + right. exists [with_children node kids_c], self2, (fuel_c + 1). split.
      * intros fuel Hfuel. rewrite Hrun_c by lia.
        rewrite (runs_to_stop self2 _ lvl (S room) dname Hex) by lia.
        now rewrite with_children_nil, <- with_children_append, with_children_nil.
      * exists ((d + 1, b) :: done_c), []. rewrite Hrem.
        split; [reflexivity|]. split; [|now left].
        rewrite forest_nodes_cons, Hsub. cbn [forest_nodes flat_map].
        rewrite app_nil_r. now constructor.
    + assert (d' = d) by lia. subst d'.
      assert (Hlen2 : length rest_c < n).
      { rewrite Hrem, length_app in Hlen'. lia. }
      assert (Hbound2 : Forall (fun p => fst p <= d + S room) rest_c).
      { rewrite Hrem in Hbound. apply Forall_app in Hbound.
        destruct Hbound as [_ Hb2]. eapply Forall_impl; [|exact Hb2].
        cbn beta. intros p Hp. lia. }
      destruct (IH d (S room) self2 rest_c Hlen2 Hf2 Hbound2
                   (append_child dest (with_children node kids_c)) lvl dname)
        as [[Hbad (fuel_2 & Hrun_2)]
           | (kids2 & self3 & fuel_2 & Hrun_2 & (done2 & rest2 & Hrem2 & Hall2 & Hend2))].
      * left. split.
        { apply Exists_cons_tl. rewrite Hrem. now apply Exists_marker_app. }
        exists (fuel_c + fuel_2). intros fuel Hfuel.
        rewrite Hrun_c by lia. apply Hrun_2. lia.
      * right. exists (with_children node kids_c :: kids2), self3, (fuel_c + fuel_2).
        split.
        { intros fuel Hfuel. rewrite Hrun_c by lia.
          rewrite <- with_children_append. apply Hrun_2. lia. }
        exists ((d + 1, b) :: done_c ++ done2), rest2.
        split; [rewrite Hrem, Hrem2; cbn [app]; now rewrite <- app_assoc|].
        split; [|exact Hend2].
        rewrite forest_nodes_cons, Hsub. constructor; [exact Hplaced|].
        now apply Forall2_app.
Qed.

End FrameStep2.

(** The [parse_block] call for a node of depth [d], on any input that
    stays within the room for nested calls: it raises on a line that is
    the marker alone, or it returns with one node for every line it has
    used, placed where the line's level puts it. *)
Lemma parse_frame2 n :
  forall d room self rem, length rem < n -> frame2 d self rem ->
  Forall (fun p => fst p <= d + room) rem ->
  forall dest lvl dname,
    frame_outcome d rem
      (fun fuel => parse_loop fuel self dest lvl room None dname) dest.
Proof.
  induction n as [|n IH]; intros d room self rem Hlen Hf Hbound dest lvl dname;
    [lia|].
  destruct Hf as [ls Hidle | r c b title ls Hpend Hrc Hr1 (r' & Hrun & Htitle)].
  - destruct ls as [|l more].
    + (* end of input *)
      right. exists [], self, 1. split.
      * destruct Hidle as (Hh & Hc & _ & Hfo).
        apply (runs_to_stop self dest lvl room dname). now repeat split.
      * exists [], []. split; [reflexivity|]. split; [constructor|].
        left. destruct Hidle as (Hh & Hc & _ & Hfo). now repeat split.
    + cbn [trace length] in Hlen, Hbound |- *. rewrite trace_length in Hlen.
      pose proof (Forall_inv Hbound) as Hhead. cbn [fst] in Hhead.
      pose proof (Forall_inv_tail Hbound) as Htail.
      destruct (next_line_cases _ _ _ _ Hidle)
        as [[Hb Hn]
           | [(nfo & x & Hn & Hr & Hln & Hch & Hhd & Hx)
             | [(name & args & Hn & Hr & Hln)
               | (r & Hr & Hn)]]].
      * (* the marker alone *)
        left. split; [apply Exists_cons_hd; exact Hb|].
        exists 1. intros fuel Hfuel. destruct fuel as [|fuel]; [lia|].
        now rewrite parse_loop_S, Hn.
      * (* a text or a comment *)
        rewrite (level_after_plain _ _ Hr) in Htail |- *.
        eapply outcome_leaf with (nfo := nfo) (x := x);
          [exact Hn | exact Hx | exact Hch | |].
        -- split; cbn [fst snd]; [exact Hln | now rewrite Hhd].
        -- apply IH; [rewrite trace_length; lia | | exact Htail].
           apply frame2_idle, idle_after_line.
      * (* a directive *)
        rewrite (level_after_plain _ _ Hr) in Htail |- *.
        eapply outcome_directive; [exact Hn | reflexivity | |].
        -- split; cbn [fst snd]; [exact Hln | reflexivity].
        -- apply IH; [rewrite trace_length; lia | | exact Htail].
           apply frame2_idle. unfold set_hold.
           cbn [fileobj buf bufpos level oldlevel lineno].
           apply idle_after_line.
      * (* a heading *)
        unfold level_after in Hhead, Htail |- *. rewrite Hr in Hhead, Htail |- *.
        destruct (OrgHeadlineNode_never_raises (lstrip (skipn r (rstrip l))))
          as (node & Hnode & _).
        destruct (Nat.ltb_spec d r) as [Hdeep | Hshallow].
        -- (* deeper *)
           assert (Hnl : new_level d r = d + 1).
           { destruct (new_level_cases d r) as (H1 & _). now apply H1. }
           rewrite Hnl in Hn, Hhead, Htail |- *.
           replace (d + 1 <=? d) with false in Hn
             by (symmetry; apply Nat.leb_gt; lia).
           destruct room as [|room']; [lia|].
           assert (Hbound' : Forall (fun p => fst p <= d + 1 + room')
                                    (trace (d + 1) more)).
           { eapply Forall_impl; [|exact Htail]. cbn beta. intros p Hp. lia. }
           pose proof (heading_step2 n IH d room' _ more (rstrip l) r node
                         dest lvl dname
                         (idle_after_line more (rstrip l) (d + 1) d
                                          (S (lineno self)))
                         ltac:(lia) Hr Hnode Hbound') as Hstep.
           destruct Hstep as [[Hbad (fuel0 & Hrun0)]
                             | (kids & self' & fuel0 & Hrun0 & Hres)].
           ++ left. split; [exact Hbad|]. exists (S fuel0).
              intros fuel Hfuel. destruct fuel as [|fuel]; [lia|].
              rewrite parse_loop_S, Hn. cbn [type value the]. rewrite Hnode.
              apply Hrun0. lia.
           ++ right. exists kids, self', (S fuel0). split; [|exact Hres].
              intros fuel Hfuel. destruct fuel as [|fuel]; [lia|].
              rewrite parse_loop_S, Hn. cbn [type value the]. rewrite Hnode.
              apply Hrun0. lia.
        -- (* the same level or a shallower one *)
           rewrite (new_level_not_deeper _ _ Hshallow) in Hn |- *.
           replace (r <=? d) with true in Hn by (symmetry; apply Nat.leb_le; lia).
           destruct (heading_run_some _ _ Hr) as (_ & _ & _ & Hr1 & _).
           destruct d as [|d']; [lia|].
           eapply outcome_exit; [exact Hn | reflexivity | reflexivity |].
           apply (frame2_pending d' _ r (S d' - r) (rstrip l)
                                 (lstrip (skipn r (rstrip l))) more);
             [|lia | exact Hr1 | now exists r].
           exists (S (lineno self)). repeat split. unfold consumed. cbn. lia.
  - destruct Hpend as (ln & Hh & Hc & Hlv & Hfo).
    cbn [length] in Hlen. rewrite trace_length in Hlen.
    pose proof (Forall_inv Hbound) as Hhead. cbn [fst] in Hhead.
    pose proof (Forall_inv_tail Hbound) as Htail.
    destruct c as [|c].
    + (* the heading is next *)
      assert (Hr : r = d + 1) by lia. rewrite Hr in *. clear Hr.
      pose proof (next_pop_single self _ Hh) as Hn.
      destruct (OrgHeadlineNode_never_raises title) as (node & Hnode & _).
      assert (Hidle : idle (set_hold self []) (d + 1) ls) by (now repeat split).
      rewrite Htitle in Hnode.
      destruct room as [|room']; [lia|].
      assert (Hbound' : Forall (fun p => fst p <= d + 1 + room')
                               (trace (d + 1) ls)).
      { eapply Forall_impl; [|exact Htail]. cbn beta. intros p Hp. lia. }
      pose proof (heading_step2 n IH d room' _ ls b r' node dest lvl dname
                    Hidle ltac:(lia) Hrun Hnode Hbound') as Hstep.
      destruct Hstep as [[Hbad (fuel0 & Hrun0)]
                        | (kids & self' & fuel0 & Hrun0 & Hres)].
      * left. split; [exact Hbad|]. exists (S fuel0).
        intros fuel Hfuel. destruct fuel as [|fuel]; [lia|].
        rewrite parse_loop_S, Hn. cbn [type value the].
        rewrite Htitle, Hnode. apply Hrun0. lia.
      * right. exists kids, self', (S fuel0). split; [|exact Hres].
        intros fuel Hfuel. destruct fuel as [|fuel]; [lia|].
        rewrite parse_loop_S, Hn. cbn [type value the].
        rewrite Htitle, Hnode. apply Hrun0. lia.
    + (* a closing signal is next *)
      rewrite repeat_snoc, app_comm_cons in Hh.
      pose proof (next_pop self _ _ Hh) as Hn.
      destruct d as [|d']; [lia|].
      eapply outcome_exit; [exact Hn | reflexivity | reflexivity |].
      apply (frame2_pending d' _ r c b title ls); [|lia | exact Hr1 | now exists r'].
      exists ln. now repeat split.
Qed.

(** ** Whole inputs *)

Lemma init_idle lines : idle (OrgParseIter_init lines) 0 lines.
Proof. now repeat split. Qed.

Lemma parse_outcome limit filename lines :
  nesting_within limit lines ->
  frame_outcome 0 (trace 0 lines)
    (fun fuel => parse_loop fuel (OrgParseIter_init lines)
                            (mkNode Parser filename []) 0 limit None None)
    (mkNode Parser filename []).
Proof.
  intros Hdepth.
  apply (parse_frame2 (S (length (trace 0 lines)))); [lia | | exact Hdepth].
  apply frame2_idle, init_idle.
Qed.

Lemma placed_not_marker_only rem qs :
  Forall2 placed rem qs -> ~ Exists (fun p => marker_only (snd p)) rem.
Proof.
  induction 1 as [|p q rem qs [Hl _] _ IH]; intros He; inversion He; subst.
  - unfold marker_only in *.
    match goal with H : snd p = _ |- _ => rewrite H in Hl end.
    now apply line_node_not_marker_only in Hl.
  - now apply IH.
Qed.

Lemma Exists_marker_trace lv lines :
  Exists (fun p => marker_only (snd p)) (trace lv lines)
  <-> Exists (fun l => rstrip l = ["#"]) lines.
Proof.
  revert lv. induction lines as [|l ls IH]; intros lv; cbn [trace].
  - split; intros H; inversion H.
  - split; intros H; inversion H; subst.
    + now apply Exists_cons_hd.
    + apply Exists_cons_tl. now apply (IH (level_after lv (rstrip l))).
    + now apply Exists_cons_hd.
    + apply Exists_cons_tl. now apply IH.
Qed.

(** The parse of an input without a marker-only line, nested no deeper
    than the interpreter has room for. *)
Lemma parse_structure limit filename lines :
  Forall (fun l => rstrip l <> ["#"]) lines ->
  nesting_within limit lines ->
  exists kids fuel0,
    (forall fuel, fuel0 <= fuel ->
       MinimalOrgParser fuel limit filename lines
         = Some (Ok (with_children (mkNode Parser filename []) kids)))
    /\ Forall2 placed (trace 0 lines) (forest_nodes kids 1).
Proof.
  intros Hgood Hdepth.
  destruct (parse_outcome limit filename lines Hdepth)
    as [[Hbad _] | (kids & self' & fuel0 & Hrun & (done & rest & Hrem & Hall & Hend))].
  - exfalso. apply Exists_marker_trace in Hbad.
    apply Exists_exists in Hbad. destruct Hbad as (l & Hin & Hl).
    rewrite Forall_forall in Hgood. now apply (Hgood l Hin).
  - destruct Hend as [[_ ->] | (d' & Hd & _)]; [|discriminate].
    rewrite app_nil_r in Hrem. subst done.
    exists kids, fuel0. split; [|exact Hall].
    intros fuel Hfuel. unfold MinimalOrgParser, parse_block. now rewrite Hrun.
Qed.

(** X13.  An input in which no line is the comment marker alone, and in
    which the nesting of headings stays within what the interpreter's
    recursion limit leaves room for, parses, given enough fuel, and the
    tree has exactly one node for every line, in the order of the lines:
    a text, comment or directive node without children one level below
    the nesting level in force at its line, a heading node at the depth
    that is the nesting level its line sets. *)
Theorem parse_one_node_per_line limit filename lines :
  Forall (fun l => rstrip l <> ["#"]) lines ->
  nesting_within limit lines ->
  exists root fuel0,
    (forall fuel, fuel0 <= fuel ->
       MinimalOrgParser fuel limit filename lines = Some (Ok root))
    /\ cls root = Parser /\ text root = filename
    /\ Forall2 placed (trace 0 lines) (nodes_below root 1)
    /\ length (nodes_below root 1) = length lines.
Proof.
  intros Hgood Hdepth. destruct (parse_structure limit filename lines Hgood Hdepth)
    as (kids & fuel0 & Hrun & Hall).
  exists (with_children (mkNode Parser filename []) kids), fuel0.
  split; [exact Hrun|]. split; [reflexivity|]. split; [reflexivity|].
  rewrite nodes_below_with_children. cbn [children app].
  split; [exact Hall|].
  apply Forall2_length in Hall. now rewrite <- Hall, trace_length.
Qed.

Ltac not_marker_only :=
  repeat (constructor; [vm_compute; discriminate|]); constructor.

Ltac nesting_checked :=
  unfold nesting_within; vm_compute;
  repeat (constructor; [repeat constructor|]); constructor.

Lemma parse_one_node_per_line_witness :
  exists root fuel0,
    (forall fuel, fuel0 <= fuel ->
       MinimalOrgParser fuel 1 (py "sample.org")
         [py "intro"; py "*** Deep  "; py "#note"; py "* Top"]
       = Some (Ok root))
    /\ cls root = Parser /\ text root = py "sample.org"
    /\ Forall2 placed
         (trace 0 [py "intro"; py "*** Deep  "; py "#note"; py "* Top"])
         (nodes_below root 1)
    /\ length (nodes_below root 1)
       = length [py "intro"; py "*** Deep  "; py "#note"; py "* Top"].
Proof.
  apply (parse_one_node_per_line 1 (py "sample.org")
           [py "intro"; py "*** Deep  "; py "#note"; py "* Top"]).
  - not_marker_only.
  - nesting_checked.
Defined.

(** X14.  An input with a line that is the comment marker alone, once
    its trailing whitespace is stripped, does not parse: if the nesting
    of headings stays within what the interpreter's recursion limit
    leaves room for, the parser raises [IndexError], given enough fuel,
    whatever the other lines are. *)
Theorem parse_raises_on_marker_only limit filename lines :
  Exists (fun l => rstrip l = ["#"]) lines ->
  nesting_within limit lines ->
  exists fuel0,
    forall fuel, fuel0 <= fuel ->
      MinimalOrgParser fuel limit filename lines = Some (Raise IndexError).
Proof.
  intros Hbad Hdepth.
  destruct (parse_outcome limit filename lines Hdepth)
    as [[_ (fuel0 & Hrun)]
       | (kids & self' & fuel0 & _ & (done & rest & Hrem & Hall & Hend))].
  - exists fuel0. intros fuel Hfuel.
    unfold MinimalOrgParser, parse_block. now rewrite Hrun.
  - exfalso. destruct Hend as [[_ ->] | (d' & Hd & _)]; [|discriminate].
    rewrite app_nil_r in Hrem. subst done.
    apply (placed_not_marker_only _ _ Hall). now apply Exists_marker_trace.
Qed.

Lemma parse_raises_on_marker_only_witness :
  exists fuel0,
    forall fuel, fuel0 <= fuel ->
      MinimalOrgParser fuel 1 (py "sample.org")
        [py "* Top"; py "text"; py "#  "]
        = Some (Raise IndexError).
Proof.
  apply (parse_raises_on_marker_only 1 (py "sample.org")
           [py "* Top"; py "text"; py "#  "]).
  - apply Exists_cons_tl, Exists_cons_tl, Exists_cons_hd. reflexivity.
  - nesting_checked.
Defined.

(** ** The serializer and the normal form of an input *)

Lemma dump_lines_nodes node :
  forall level,
    dump_lines node level
      = map (fun q => node_line (fst q) (snd q)) (nodes_below node level).
Proof.
  induction node as [c t chs IH] using OrgNode_forall_ind. intros level.
  cbn [dump_lines nodes_below].
  induction chs as [|ch chs IHchs]; [reflexivity|].
  inversion IH as [|? ? Hch Hchs]; subst.
  cbn [flat_map]. rewrite map_app. cbn [map fst snd].
  now rewrite (Hch (level + 1)), (IHchs Hchs).
Qed.

Lemma dumps_one_line_per_node_aux self level :
  dumps self level
    = join [newline]
        (map (fun q => node_line (fst q) (snd q)) (nodes_below self level)).
Proof.
  unfold dumps. now rewrite dumps_node_lines, dump_lines_nodes.
Qed.

(** X15.  [dumps] writes one line for every node below the node it is
    given, in document order, and nothing else: the text is these lines
    joined by newlines, where a heading at depth [d] starts with [d]
    markers and one space, the depth of the children of the given node
    being the level passed in. *)
Theorem dumps_one_line_per_node self level :
  dumps self level
    = join [newline]
        (map (fun q => node_line (fst q) (snd q)) (nodes_below self level)).
Proof. apply dumps_one_line_per_node_aux. Qed.

Lemma node_str_with_children node kids :
  node_str (with_children node kids) = node_str node.
Proof. destruct node. reflexivity. Qed.

Lemma placed_normal_line p q :
  placed p q -> node_line (fst q) (snd q) = normal_line p.
Proof.
  destruct p as [lv b], q as [d n]. intros [Hl Hd]. cbn [fst snd] in *.
  unfold normal_line, node_line. cbn [fst snd].
  destruct Hl as [b Hs Hr | cw Hne Hdp | cw name args Hdp | b r node kids Hr Hnode].
  - rewrite Hr. cbn. destruct b as [|x b']; [reflexivity|].
    cbn [startswith] in Hs. destruct (Ascii.eqb_spec x "#"); [discriminate|].
    destruct x as [[] [] [] [] [] [] [] []]; try reflexivity. congruence.
  - rewrite heading_run_hash, Hdp. reflexivity.
  - rewrite heading_run_hash, Hdp. reflexivity.
  - rewrite Hr, Hnode.
    destruct (OrgHeadlineNode_new _ _ Hnode) as [_ Hhd].
    rewrite is_headline_with_children, Hhd in Hd |- *. subst d.
    now rewrite node_str_with_children, <- app_assoc.
Qed.

Lemma placed_lines ps qs :
  Forall2 placed ps qs ->
  map (fun q => node_line (fst q) (snd q)) qs = map normal_line ps.
Proof.
  induction 1 as [|p q ps qs Hp _ IH]; [reflexivity|].
  cbn [map]. now rewrite (placed_normal_line _ _ Hp), IH.
Qed.

(** X16.  Parsing and serializing at depth 1 brings every line of an
    input into its normal form, line by line: for an input without a
    marker-only line, nested no deeper than the interpreter's recursion
    limit leaves room for, the result is the lines' normal forms joined
    by newlines, where the normal form of a line depends on the line and
    on the nesting level it is read into, and on nothing else. *)
Theorem dumps_parse_normal_form limit filename lines :
  Forall (fun l => rstrip l <> ["#"]) lines ->
  nesting_within limit lines ->
  exists root fuel0,
    (forall fuel, fuel0 <= fuel ->
       MinimalOrgParser fuel limit filename lines = Some (Ok root))
    /\ dumps root 1 = join [newline] (map normal_line (trace 0 lines)).
Proof.
  intros Hgood Hdepth. destruct (parse_structure limit filename lines Hgood Hdepth)
    as (kids & fuel0 & Hrun & Hall).
  exists (with_children (mkNode Parser filename []) kids), fuel0.
  split; [exact Hrun|].
  rewrite dumps_one_line_per_node_aux. f_equal.
  rewrite nodes_below_with_children. cbn [children app].
  induction Hall as [|p q rem qs Hp _ IH]; [reflexivity|].
  cbn [map]. now rewrite (placed_normal_line _ _ Hp), IH.
Qed.

Lemma dumps_parse_normal_form_witness :
  exists root fuel0,
    (forall fuel, fuel0 <= fuel ->
       MinimalOrgParser fuel 1 (py "sample.org")
         [py "intro"; py "*** Deep  "; py "#note"; py "*  TODO   x :a:"]
       = Some (Ok root))
    /\ dumps root 1
       = join [newline]
           (map normal_line
              (trace 0 [py "intro"; py "*** Deep  "; py "#note";
                        py "*  TODO   x :a:"])).
Proof.
  apply (dumps_parse_normal_form 1 (py "sample.org")
           [py "intro"; py "*** Deep  "; py "#note"; py "*  TODO   x :a:"]).
  - not_marker_only.
  - nesting_checked.
Defined.

(** X17.  The nesting level changes only when a heading line is read.  A
    call that takes a token from the pending buffer leaves the level as
    it is; a call that reads a line leaves it at [level_after]: the new
    level of a heading line, the old level for every other line. *)
Theorem level_changes_only_on_headings f self nfo self' :
  reachable f self -> next self = Ok (nfo, self') ->
  (hold self <> [] -> level self' = level self)
  /\ (forall l more,
        hold self = [] -> fileobj self = l :: more ->
        level self' = level_after (level self) (rstrip l)
        /\ (heading_run (rstrip l) = None -> level self' = level self)).
Proof.
  intros Hr Hn. destruct (reachable_inv _ _ Hr) as [Hc _]. split.
  - intros Hne. destruct (hold self) as [|x h0] eqn:Eh using rev_ind; [congruence|].
    rewrite (next_pop _ _ _ Eh) in Hn. now inversion Hn.
  - intros l more Hh Hf.
    assert (Hidle : idle self (level self) (l :: more)) by now repeat split.
    assert (Hlv : level self' = level_after (level self) (rstrip l)).
    { destruct (next_line_cases _ _ _ _ Hidle)
        as [[_ Hn']
           | [(nfo' & x & Hn' & Hrun & _)
             | [(name & args & Hn' & Hrun & _)
               | (r & Hrun & Hn')]]];
        rewrite Hn' in Hn.
      - discriminate.
      - inversion Hn; subst. now rewrite level_after_plain.
      - inversion Hn; subst. now rewrite level_after_plain.
      - unfold level_after. rewrite Hrun.
        destruct (new_level (level self) r <=? level self);
          inversion Hn; subst; reflexivity. }
    split; [exact Hlv|]. intros Hnone. now rewrite Hlv, level_after_plain.
Qed.

Lemma level_changes_only_on_headings_witness :
  (hold (after 2 (OrgParseIter_init example_lines)) <> [] ->
   level (after 3 (OrgParseIter_init example_lines))
     = level (after 2 (OrgParseIter_init example_lines)))
  /\ (forall l more,
        hold (after 2 (OrgParseIter_init example_lines)) = [] ->
        fileobj (after 2 (OrgParseIter_init example_lines)) = l :: more ->
        level (after 3 (OrgParseIter_init example_lines))
          = level_after (level (after 2 (OrgParseIter_init example_lines)))
                        (rstrip l)
        /\ (heading_run (rstrip l) = None ->
            level (after 3 (OrgParseIter_init example_lines))
              = level (after 2 (OrgParseIter_init example_lines)))).
Proof.
  apply (level_changes_only_on_headings example_lines
           (after 2 (OrgParseIter_init example_lines))
           (mkTokenInfo TEXT 3 (Some (py "text1")))
           (after 3 (OrgParseIter_init example_lines))).
  - apply reachable_after. eexists; eexists; reflexivity.
  - reflexivity.
Defined.

(** X18.  What a call of [__next__] can come to, in any state the
    tokenizer reaches.  It ends the iteration exactly when nothing is
    pending and no line is left; it raises [IndexError] exactly when
    nothing is pending and the line to be read is the comment marker
    alone; in every other case it returns a token.  No other exception
    is ever raised. *)
Theorem next_outcomes f self :
  reachable f self ->
  (next self = Raise StopIteration <-> hold self = [] /\ fileobj self = [])
  /\ (next self = Raise IndexError <->
      hold self = [] /\ exists l more, fileobj self = l :: more /\ rstrip l = ["#"])
  /\ (forall e, next self = Raise e -> e = StopIteration \/ e = IndexError)
  /\ ((hold self <> [] \/ exists l more, fileobj self = l :: more /\ rstrip l <> ["#"])
      -> exists nfo self', next self = Ok (nfo, self')).
Proof.
  intros Hr. destruct (reachable_inv _ _ Hr) as [Hc _].
  assert (Hstop : hold self = [] -> fileobj self = [] -> next self = Raise StopIteration)
    by (intros; now apply next_eof).
  assert (Hidx : hold self = [] ->
                 forall l more, fileobj self = l :: more -> rstrip l = ["#"] ->
                 next self = Raise IndexError).
  { intros Hh l more Hf Hb. now rewrite (next_read _ _ _ Hh Hc Hf), Hb. }
  destruct (next_total _ _ Hr)
    as [(nfo & self' & Hn) | [(Hn & Hh & Hf) | (Hn & l & more & Hf & Hb)]].
  - split.
    { split; intros H.
      - rewrite Hn in H. discriminate.
      - destruct H as [Hh Hf]. rewrite (Hstop Hh Hf) in Hn. discriminate. }
    split.
    { split; intros H.
      - rewrite Hn in H. discriminate.
      - destruct H as (Hh & l & more & Hf & Hb).
        rewrite (Hidx Hh l more Hf Hb) in Hn. discriminate. }
    split.
    { intros e He. rewrite Hn in He. discriminate. }
    intros _. now exists nfo, self'.
  - split.
    { split; intros H; [now split | exact Hn]. }
    split.
    { split; intros H.
      - rewrite Hn in H. discriminate.
      - destruct H as (_ & l & more & Hf' & _). congruence. }
    split.
    { intros e He. rewrite Hn in He. inversion He. now left. }
    intros [Hne | (l & more & Hf' & _)]; congruence.
  - assert (Hh : hold self = []).
    { destruct (hold self) as [|x h0] eqn:Eh using rev_ind; [reflexivity|].
      rewrite (next_pop _ _ _ Eh) in Hn. discriminate. }
    split.
    { split; intros H.
      - rewrite Hn in H. discriminate.
      - destruct H as [_ Hf']. congruence. }
    split.
    { split; intros H; [split; [exact Hh | now exists l, more] | exact Hn]. }
    split.
    { intros e He. rewrite Hn in He. inversion He. now right. }
    intros [Hne | (l' & more' & Hf' & Hb')]; [congruence|].
    rewrite Hf in Hf'. inversion Hf'; subst. contradiction.
Qed.

Lemma next_outcomes_witness :
  (next (after 1 (OrgParseIter_init [py "a"; py "# "])) = Raise StopIteration
   <-> hold (after 1 (OrgParseIter_init [py "a"; py "# "])) = []
       /\ fileobj (after 1 (OrgParseIter_init [py "a"; py "# "])) = [])
  /\ (next (after 1 (OrgParseIter_init [py "a"; py "# "])) = Raise IndexError
      <-> hold (after 1 (OrgParseIter_init [py "a"; py "# "])) = []
          /\ exists l more,
               fileobj (after 1 (OrgParseIter_init [py "a"; py "# "])) = l :: more
               /\ rstrip l = ["#"])
  /\ (forall e,
        next (after 1 (OrgParseIter_init [py "a"; py "# "])) = Raise e ->
        e = StopIteration \/ e = IndexError)
  /\ ((hold (after 1 (OrgParseIter_init [py "a"; py "# "])) <> []
       \/ exists l more,
            fileobj (after 1 (OrgParseIter_init [py "a"; py "# "])) = l :: more
            /\ rstrip l <> ["#"])
      -> exists nfo self',
           next (after 1 (OrgParseIter_init [py "a"; py "# "])) = Ok (nfo, self')).
Proof.
  apply (next_outcomes [py "a"; py "# "]).
  apply reachable_after. eexists; eexists; reflexivity.
Defined.

(** ** Reading back what was written *)

Lemma lstrip_app a b :
  lstrip (a ++ b) = match lstrip a with [] => lstrip b | y => y ++ b end.
Proof.
  induction a as [|c a IH]; cbn [app lstrip]; [reflexivity|].
  destruct (isspace c); [exact IH | reflexivity].
Qed.

Lemma rstrip_app p s :
  rstrip (p ++ s) = match rstrip s with [] => rstrip p | y => p ++ y end.
Proof.
  unfold rstrip. rewrite rev_app_distr, lstrip_app.
  destruct (lstrip (rev s)) as [|c y]; [reflexivity|].
  cbn [rev]. destruct (rev y ++ [c]) as [|c' y'] eqn:E.
  - now destruct (rev y).
  - rewrite <- E. change (c :: y ++ rev p) with ((c :: y) ++ rev p).
    rewrite rev_app_distr, rev_involutive. reflexivity.
Qed.

Lemma rstrip_app_fixed p s : s <> [] -> rstrip s = s -> rstrip (p ++ s) = p ++ s.
Proof.
  intros Hne Hs. rewrite rstrip_app, Hs. destruct s; [congruence | reflexivity].
Qed.

Lemma rstrip_snoc c (q : str) : isspace c = false -> rstrip (q ++ [c]) = q ++ [c].
Proof.
  intros Hc. apply rstrip_app_fixed; [discriminate|].
  unfold rstrip. cbn [rev app lstrip]. now rewrite Hc.
Qed.

Lemma strip_idem s : strip (strip s) = strip s.
Proof.
  destruct (strip_stripped s) as [Hl Hr]. unfold strip at 1. now rewrite Hr, Hl.
Qed.

Lemma directive_parts_some cw name args :
  directive_parts cw = Some (name, args) ->
  exists rest,
    cw = "+" :: name ++ ":" :: rest
    /\ forallb is_ctl_char name = true /\ args = strip rest.
Proof.
  unfold directive_parts. destruct cw as [|c w]; [discriminate|].
  destruct (Ascii.eqb c "+") eqn:Ec; [|discriminate].
  apply Ascii.eqb_eq in Ec. subst c.
  destruct (find ":" w 0) as [i|] eqn:Ef; [|discriminate].
  destruct (forallb is_ctl_char (firstn i w)) eqn:En; [|discriminate].
  intros H. inversion H; subst name args. exists (skipn (S i) w).
  split; [|now split]. f_equal.
  assert (Hi : exists x, nth_error w i = Some x /\ x = ":"%char).
  { clear En H. unfold find in Ef. cbn [skipn] in Ef. revert i Ef.
    induction w as [|x w IH]; intros i Ef; cbn [find_from] in Ef; [discriminate|].
    destruct (Ascii.eqb x ":") eqn:Ex.
    - inversion Ef; subst i. apply Ascii.eqb_eq in Ex. now exists x.
    - rewrite find_from_shift in Ef.
      destruct (find_from ":" w 0) as [j|] eqn:Ej; [|discriminate].
      inversion Ef; subst i. now apply IH. }
  destruct Hi as (x & Hx & ->).
  rewrite <- (firstn_skipn i w) at 1. f_equal.
  destruct (nth_error_skipn _ _ _ _ Hx) as [rest Hrest].
  rewrite Hrest. f_equal.
  replace (S i) with (i + 1) by lia. now rewrite skipn_add, Hrest.
Qed.

Lemma directive_parts_built name rest :
  forallb is_ctl_char name = true ->
  directive_parts ("+" :: name ++ ":" :: rest) = Some (name, strip rest).
Proof.
  intros Hn. unfold directive_parts. rewrite Ascii.eqb_refl.
  rewrite (find_first _ _ _ (ctl_word_no_colon _ Hn)).
  rewrite firstn_app, Nat.sub_diag, firstn_all, firstn_O, app_nil_r, Hn.
  replace (S (length name)) with (length name + 1) by lia.
  rewrite skipn_add, skipn_app, Nat.sub_diag, skipn_all. reflexivity.
Qed.

(** What [dumps] writes for a text, comment or directive line reads
    back as the same line: the written line, trailing whitespace
    stripped as the tokenizer does, is again neither a heading nor the
    marker alone, and its normal form, at any level, is the line that
    was written. *)
Lemma written_line_reads_back lv lv' b :
  rstrip b = b -> b <> ["#"] -> heading_run b = None ->
  heading_run (rstrip (normal_line (lv, b))) = None
  /\ rstrip (normal_line (lv, b)) <> ["#"]
  /\ normal_line (lv', rstrip (normal_line (lv, b))) = normal_line (lv, b).
Proof.
  intros Hb Hne Hr.
  assert (Hnl : forall l,
             normal_line (l, b)
             = match b with
               | "#"%char :: cw0 =>
                   match directive_parts cw0 with
                   | Some (name, args) => py "#+" ++ name ++ py ": " ++ args
                   | None => py "# " ++ lstrip cw0
                   end
               | _ => b
               end).
  { intros l. unfold normal_line. cbn [fst snd]. now rewrite Hr. }
  destruct b as [|x cw].
  - rewrite !Hnl. now rewrite Hb.
  - destruct (Ascii.eqb_spec x "#") as [-> | Hx].
    + rewrite !Hnl. clear Hnl.
      destruct cw as [|c w]; [congruence|].
      assert (Hcw : rstrip (c :: w) = c :: w).
      { apply (rstrip_fixed_suffix ["#"%char]). exact Hb. }
      destruct (directive_parts (c :: w)) as [[name args]|] eqn:Ed.
      * destruct (directive_parts_some _ _ _ Ed) as (rest & Hc & Hn & Ha).
        assert (Hargs : strip args = args) by (rewrite Ha; apply strip_idem).
        assert (Hra : rstrip args = args).
        { rewrite Ha. apply strip_stripped. }
        assert (Hout : exists tail,
                   rstrip (py "#+" ++ name ++ py ": " ++ args)
                     = "#" :: "+" :: name ++ ":" :: tail
                   /\ strip tail = args).
        { assert (Hsplit : py "#+" ++ name ++ py ": " ++ args
                           = (("#" :: "+" :: name) ++ [":"%char]) ++ " " :: args).
          { change (py "#+") with ["#"; "+"]. change (py ": ") with [":"; " "].
            cbn [app]. rewrite <- app_assoc. reflexivity. }
          assert (Hcolon : rstrip (("#" :: "+" :: name) ++ [":"%char])
                           = ("#" :: "+" :: name) ++ [":"%char])
            by (apply rstrip_snoc; reflexivity).
          rewrite Hsplit, rstrip_app.
          destruct args as [|a args'].
          - exists []. split; [|reflexivity].
            change (rstrip [" "%char]) with (@nil ascii). cbv iota.
            rewrite Hcolon. reflexivity.
          - exists (" " :: a :: args')%char. split.
            + assert (Hsp : rstrip (" " :: a :: args') = " " :: a :: args').
              { apply (rstrip_app_fixed [" "%char] (a :: args'));
                  [discriminate | exact Hra]. }
              rewrite Hsp. cbn [app]. rewrite <- app_assoc. reflexivity.
            + now rewrite strip_space_cons. }
        destruct Hout as (tail & Hout & Htail). rewrite Hout.
        split; [reflexivity|]. split; [discriminate|].
        unfold normal_line. cbn [fst snd]. rewrite heading_run_hash.
        now rewrite (directive_parts_built _ _ Hn), Htail.
      * assert (Hv : lstrip (c :: w) <> []).
        { intros He. apply lstrip_nil_blank, rstrip_blank in He.
          rewrite Hcw in He. discriminate. }
        assert (Hout : rstrip (py "# " ++ lstrip (c :: w))
                       = "#" :: " " :: lstrip (c :: w)).
        { rewrite rstrip_app_fixed; [reflexivity | exact Hv |].
          now apply rstrip_lstrip. }
        rewrite Hout. split; [reflexivity|]. split; [discriminate|].
        unfold normal_line. cbn [fst snd]. rewrite heading_run_hash.
        cbn [directive_parts]. change (Ascii.eqb " " "+") with false. cbv iota.
        change (lstrip (" " :: lstrip (c :: w))) with (lstrip (lstrip (c :: w))).
        now rewrite lstrip_idem.
    + assert (Hsame : forall l, normal_line (l, x :: cw) = x :: cw).
      { intros l. rewrite Hnl.
        destruct x as [[] [] [] [] [] [] [] []]; try reflexivity. congruence. }
      rewrite !Hsame, Hb. split; [exact Hr|]. split; [exact Hne|]. apply Hsame.
Qed.

Lemma trace_plain lv ls :
  Forall (fun l => heading_run (rstrip l) = None) ls ->
  trace lv ls = map (fun l => (lv, rstrip l)) ls.
Proof.
  induction 1 as [|l ls Hl _ IH]; [reflexivity|].
  cbn [trace map]. now rewrite (level_after_plain _ _ Hl), IH.
Qed.

Lemma parse_dumps_plain limit filename lines :
  Forall (fun l => rstrip l <> ["#"] /\ heading_run (rstrip l) = None) lines ->
  exists root fuel0,
    (forall fuel, fuel0 <= fuel ->
       MinimalOrgParser fuel limit filename lines = Some (Ok root))
    /\ dumps root 1
       = join [newline] (map (fun l => normal_line (0, rstrip l)) lines).
Proof.
  intros Hall.
  assert (Hgood : Forall (fun l => rstrip l <> ["#"]) lines)
    by (eapply Forall_impl; [|exact Hall]; now intros l [H _]).
  assert (Hplain : Forall (fun l => heading_run (rstrip l) = None) lines)
    by (eapply Forall_impl; [|exact Hall]; now intros l [_ H]).
  assert (Hdepth : nesting_within limit lines).
  { unfold nesting_within. rewrite (trace_plain _ _ Hplain).
    apply Forall_forall. intros p Hp. apply in_map_iff in Hp.
    destruct Hp as (l & <- & _). cbn [fst]. lia. }
  destruct (parse_structure limit filename lines Hgood Hdepth)
    as (kids & fuel0 & Hrun & Hp).
  exists (with_children (mkNode Parser filename []) kids), fuel0.
  split; [exact Hrun|].
  rewrite dumps_one_line_per_node_aux, nodes_below_with_children.
  cbn [children app]. rewrite (placed_lines _ _ Hp), (trace_plain _ _ Hplain).
  now rewrite map_map.
Qed.



(** X20.  The argument [level] of [parse_block] takes no part in the
    result: the tree it builds and the state it leaves the tokenizer in
    are the same for every starting value. *)
Theorem parse_block_level_irrelevant fuel :
  forall orgiter destnode lvl lvl' room prefix dname,
    parse_loop fuel orgiter destnode lvl room prefix dname
      = parse_loop fuel orgiter destnode lvl' room prefix dname.
Proof.
  induction fuel as [|fuel IH];
    intros orgiter destnode lvl lvl' room prefix dname; [reflexivity|].
  rewrite !parse_loop_S.
  destruct (next orgiter) as [[nfo o1]|e]; [|reflexivity].
  destruct (type nfo); try apply IH; try reflexivity.
  destruct (OrgHeadlineNode (the (value nfo))) as [child|e]; [|reflexivity].
  destruct room as [|room']; [reflexivity|].
  rewrite (IH o1 child (lvl + 1) (lvl' + 1)).
  destruct (parse_loop fuel o1 child (lvl' + 1) room' None None)
    as [[[child' o2]|e]|]; [apply IH | reflexivity | reflexivity].
Qed.

(** * What the serializer gives back *)

(** ** What a successful match consists of *)

Section MatcherSound.

Variable subject : str.

(** Whatever [rmatch] finds is a way for the pattern to match. *)
Lemma rmatch_sound r :
  forall k s g res,
    rmatch subject r k s g = Some res ->
    exists s' g', derives subject r s g s' g' /\ k s' g' = Some res.
Proof.
  induction r as [c| | | | | | |r1 IH1 r2 IH2|r1 IH1 r2 IH2|r1 IH1|r1 IH1|r1 IH1|n r1 IH1];
    intros k s g res; cbn [rmatch].
  - unfold one_char. destruct s as [|x s]; [discriminate|].
    destruct (Ascii.eqb x c) eqn:E; [|discriminate].
    apply Ascii.eqb_eq in E. subst x. intros H. exists s, g. split; [constructor | exact H].
  - unfold one_char. destruct s as [|x s]; [discriminate|].
    destruct (Ascii.eqb x newline) eqn:E; [discriminate|].
    apply Ascii.eqb_neq in E. intros H. exists s, g. split; [now constructor | exact H].
  - unfold one_char. destruct s as [|x s]; [discriminate|].
    destruct (isspace x) eqn:E; [|discriminate].
    intros H. exists s, g. split; [now constructor | exact H].
  - unfold one_char. destruct s as [|x s]; [discriminate|].
    destruct (isspace x) eqn:E; [discriminate|].
    intros H. exists s, g. split; [now constructor | exact H].
  - destruct (length s =? length subject) eqn:E; [|discriminate].
    apply Nat.eqb_eq in E. intros H. exists s, g. split; [now constructor | exact H].
  - destruct s as [|x [|y s]]; [| |discriminate].
    + intros H. exists [], g. split; [constructor | exact H].
    + destruct (Ascii.eqb x newline) eqn:E; [|discriminate].
      apply Ascii.eqb_eq in E. subst x. intros H.
      exists [newline], g. split; [constructor | exact H].
  - intros H. exists s, g. split; [constructor | exact H].
  - intros H. apply IH1 in H. destruct H as (s1 & g1 & D1 & H).
    apply IH2 in H. destruct H as (s2 & g2 & D2 & H).
    exists s2, g2. split; [now apply d_seq with (s1 := s1) (g1 := g1) | exact H].
  - destruct (rmatch subject r1 k s g) eqn:E.
    + intros H. inversion H; subst. apply IH1 in E.
      destruct E as (s' & g' & D & E). exists s', g'. split; [now apply d_alt_left | exact E].
    + intros H. apply IH2 in H.
      destruct H as (s' & g' & D & H). exists s', g'. split; [now apply d_alt_right | exact H].
  - destruct (rmatch subject r1 k s g) eqn:E.
    + intros H. inversion H; subst. apply IH1 in E.
      destruct E as (s' & g' & D & E). exists s', g'. split; [now apply d_opt_some | exact E].
    + intros H. exists s, g. split; [apply d_opt_none | exact H].
  - generalize (length s) as fuel. intros fuel. revert s g.
    induction fuel as [|fuel IHf]; intros s g.
    + intros H. exists s, g. split; [apply d_star_end | exact H].
    + match goal with |- context [rmatch subject r1 ?kk s g] =>
        destruct (rmatch subject r1 kk s g) eqn:E end.
      * intros H. inversion H; subst. apply IH1 in E.
        destruct E as (s1 & g1 & D1 & E).
        destruct (length s1 <? length s); [|discriminate].
        apply IHf in E. destruct E as (s2 & g2 & D2 & E).
        exists s2, g2. split; [now apply d_star_more with (s1 := s1) (g1 := g1) | exact E].
      * intros H. exists s, g. split; [apply d_star_end | exact H].
  - generalize (length s) as fuel. intros fuel. revert s g.
    induction fuel as [|fuel IHf]; intros s g.
    + destruct (k s g) eqn:E; [|discriminate].
      intros H. inversion H; subst. exists s, g. split; [apply d_lazy_end | exact E].
    + destruct (k s g) eqn:E.
      * intros H. inversion H; subst. exists s, g. split; [apply d_lazy_end | exact E].
      * intros H. apply IH1 in H. destruct H as (s1 & g1 & D1 & H).
        destruct (length s1 <? length s); [|discriminate].
        apply IHf in H. destruct H as (s2 & g2 & D2 & H).
        exists s2, g2. split; [now apply d_lazy_more with (s1 := s1) (g1 := g1) | exact H].
  - intros H. apply IH1 in H. destruct H as (s' & g' & D & H).
    exists s', (set_group n (firstn (length s - length s') s) g').
    split; [now apply d_group | exact H].
Qed.

Lemma derives_lit w :
  forall s g s' g',
    derives subject (rseq (map RChar w)) s g s' g' -> s = w ++ s' /\ g' = g.
Proof.
  induction w as [|c w IH]; intros s g s' g' D; cbn [map rseq fold_right] in D.
  - inversion D; subst. now split.
  - inversion D as [| | | | | | | |? ? ? ? s1 g1 ? ? D1 D2| | | | | | | | |]; subst.
    inversion D1; subst. apply IH in D2. destruct D2 as [-> ->]. now split.
Qed.

Lemma derives_star_chars r (p : ascii -> bool) :
  (forall s g s' g', derives subject r s g s' g' ->
                     exists x, s = x :: s' /\ g' = g /\ p x = true) ->
  forall rr s g s' g',
    derives subject rr s g s' g' -> rr = RStar r \/ rr = RLazyStar r ->
    g' = g /\ exists w, s = w ++ s' /\ forallb p w = true.
Proof.
  intros Hr rr s g s' g' D.
  induction D as [| | | | | | | | | | | | |r0 s g|r0 s g s1 g1 s2 g2 D1 _ D2 IH2
                 |r0 s g|r0 s g s1 g1 s2 g2 D1 _ D2 IH2|];
    intros [E | E]; try discriminate E.
  - split; [reflexivity|]. now exists [].
  - inversion E; subst r0. apply Hr in D1. destruct D1 as (x & -> & -> & Hx).
    destruct (IH2 (or_introl eq_refl)) as (-> & w & -> & Hw).
    split; [reflexivity|]. exists (x :: w). split; [reflexivity|].
    cbn [forallb]. now rewrite Hx, Hw.
  - split; [reflexivity|]. now exists [].
  - inversion E; subst r0. apply Hr in D1. destruct D1 as (x & -> & -> & Hx).
    destruct (IH2 (or_intror eq_refl)) as (-> & w & -> & Hw).
    split; [reflexivity|]. exists (x :: w). split; [reflexivity|].
    cbn [forallb]. now rewrite Hx, Hw.
Qed.

Lemma derives_spaces s g s' g' :
  derives subject (RStar RSpace) s g s' g' ->
  g' = g /\ exists w, s = w ++ s' /\ blank w = true.
Proof.
  intros D. apply (derives_star_chars RSpace isspace) with (rr := RStar RSpace);
    [|exact D | now left].
  intros s0 g0 s0' g0' D0. inversion D0; subst. now exists x.
Qed.

Lemma derives_plus_spaces s g s' g' :
  derives subject (RPlus RSpace) s g s' g' ->
  g' = g /\ exists w, s = w ++ s' /\ w <> [] /\ blank w = true.
Proof.
  unfold RPlus. intros D.
  inversion D as [| | | | | | | |? ? ? ? s1 g1 ? ? D1 D2| | | | | | | | |]; subst.
  inversion D1; subst. apply derives_spaces in D2.
  destruct D2 as (-> & w & -> & Hw). split; [reflexivity|].
  exists (x :: w). split; [reflexivity|]. split; [discriminate|].
  unfold blank in *. cbn [forallb].
  match goal with H : isspace x = true |- _ => now rewrite H, Hw end.
Qed.

Lemma derives_solid s g s' g' :
  derives subject (RStar RNonSpace) s g s' g' ->
  g' = g /\ exists w, s = w ++ s' /\ solid w = true.
Proof.
  intros D.
  apply (derives_star_chars RNonSpace (fun c => negb (isspace c)))
    with (rr := RStar RNonSpace); [|exact D | now left].
  intros s0 g0 s0' g0' D0. inversion D0; subst. exists x.
  split; [reflexivity|]. split; [reflexivity|].
  match goal with H : isspace x = false |- _ => now rewrite H end.
Qed.

Lemma derives_lazy_any s g s' g' :
  derives subject (RLazyStar RAny) s g s' g' ->
  g' = g /\ exists w, s = w ++ s' /\ ~ In newline w.
Proof.
  intros D.
  destruct (derives_star_chars RAny (fun c => negb (Ascii.eqb c newline)))
    with (rr := RLazyStar RAny) (s := s) (g := g) (s' := s') (g' := g')
    as (Hg & w & Hs & Hw); [|exact D | now right|].
  - intros s0 g0 s0' g0' D0. inversion D0; subst. exists x.
    split; [reflexivity|]. split; [reflexivity|].
    now apply negb_true_iff, Ascii.eqb_neq.
  - split; [exact Hg|]. exists w. split; [exact Hs|].
    intros Hin. rewrite forallb_forall in Hw. apply Hw in Hin.
    now rewrite Ascii.eqb_refl in Hin.
Qed.

End MatcherSound.

(** ** The order in which the matcher tries *)

Lemma rmatch_lazy_any_nil subject k g :
  rmatch subject (RLazyStar RAny) k [] g = k [] g.
Proof. cbn. now destruct (k [] g). Qed.

Lemma rmatch_lazy_any_cons subject k c s g :
  rmatch subject (RLazyStar RAny) k (c :: s) g
  = match k (c :: s) g with
    | Some res => Some res
    | None =>
        if Ascii.eqb c newline then None
        else rmatch subject (RLazyStar RAny) k s g
    end.
Proof.
  change (rmatch subject (RLazyStar RAny) k (c :: s) g) with
    (match k (c :: s) g with
     | Some res => Some res
     | None =>
         one_char (fun x => negb (Ascii.eqb x newline))
           (fun s' g' =>
              if length s' <? length (c :: s)
              then rmatch subject (RLazyStar RAny) k s' g' else None)
           (c :: s) g
     end).
  destruct (k (c :: s) g); [reflexivity|]. unfold one_char.
  destruct (Ascii.eqb c newline); [reflexivity|]. cbn [negb length].
  now replace (length s <? S (length s)) with true
    by (symmetry; apply Nat.ltb_lt; lia).
Qed.

(** The lazy repetition stops at the first place where the rest of the
    pattern matches. *)
Lemma lazy_any_first subject k s g res :
  rmatch subject (RLazyStar RAny) k s g = Some res ->
  exists F u,
    s = F ++ u /\ ~ In newline F /\ k u g = Some res
    /\ forall F1 F2, F = F1 ++ F2 -> F2 <> [] -> k (F2 ++ u) g = None.
Proof.
  induction s as [|c s IH].
  - rewrite rmatch_lazy_any_nil. intros H. exists [], [].
    split; [reflexivity|]. split; [now intros []|]. split; [exact H|].
    intros F1 F2 E Hne. symmetry in E. apply app_eq_nil in E. now destruct E.
  - rewrite rmatch_lazy_any_cons. destruct (k (c :: s) g) as [r|] eqn:E.
    + intros H. inversion H; subst r. exists [], (c :: s).
      split; [reflexivity|]. split; [now intros []|]. split; [exact E|].
      intros F1 F2 E' Hne. symmetry in E'. apply app_eq_nil in E'.
      now destruct E'.
    + destruct (Ascii.eqb_spec c newline) as [|Hc]; [discriminate|].
      intros H. apply IH in H. destruct H as (F & u & -> & HF & Hk & Hlazy).
      exists (c :: F), u. split; [reflexivity|].
      split; [intros [Hin | Hin]; [now apply Hc | now apply HF]|].
      split; [exact Hk|].
      intros F1 F2 E' Hne. destruct F1 as [|x F1].
      * cbn [app] in E'. subst F2. exact E.
      * cbn [app] in E'. inversion E'; subst. now apply Hlazy with (F1 := F1).
Qed.

Lemma rmatch_star_nonspace_cons subject k c s g :
  isspace c = false ->
  rmatch subject (RStar RNonSpace) k (c :: s) g
  = match rmatch subject (RStar RNonSpace) k s g with
    | Some res => Some res
    | None => k (c :: s) g
    end.
Proof.
  intros Hc.
  change (rmatch subject (RStar RNonSpace) k (c :: s) g) with
    (match
        one_char (fun x => negb (isspace x))
          (fun s' g' =>
             if length s' <? length (c :: s)
             then rmatch subject (RStar RNonSpace) k s' g' else None)
          (c :: s) g
      with
      | Some res => Some res
      | None => k (c :: s) g
      end).
  unfold one_char. rewrite Hc. cbn [negb length].
  now replace (length s <? S (length s)) with true
    by (symmetry; apply Nat.ltb_lt; lia).
Qed.

(** The greedy repetition gives back the closing colon. *)
Lemma star_nonspace_matched subject k Y g :
  solid Y = true -> matched (k [":"] g) = true ->
  matched (rmatch subject (RStar RNonSpace) k (Y ++ [":"]) g) = true.
Proof.
  intros HY Hk. induction Y as [|c Y IH]; cbn [app].
  - rewrite rmatch_star_nonspace_cons by reflexivity.
    rewrite matched_orelse, Hk. apply orb_true_r.
  - cbn in HY. apply andb_true_iff in HY. destruct HY as [Hc HY].
    apply negb_true_iff in Hc.
    rewrite rmatch_star_nonspace_cons by exact Hc.
    rewrite matched_orelse, (IH HY). reflexivity.
Qed.

Lemma rmatch_char subject c k s g :
  rmatch subject (RChar c) k (c :: s) g = k s g.
Proof. cbn [rmatch one_char]. now rewrite Ascii.eqb_refl. Qed.

(** What follows the title matches at a tag group that ends the text. *)
Lemma tail_matches_tags subject J g :
  solid J = true ->
  matched (rmatch subject RX_TAIL accept (":" :: J ++ [":"]) g) = true.
Proof.
  intros HJ. unfold RX_TAIL. cbn [rseq fold_right].
  rewrite rmatch_seq, rmatch_opt, matched_orelse. apply orb_true_iff. left.
  rewrite rmatch_group, rmatch_seq, rmatch_char, rmatch_seq, rmatch_group.
  apply star_nonspace_matched; [exact HJ | reflexivity].
Qed.

(** ** The parts of a heading title *)

Lemma firstn_consumed (c s' : str) :
  firstn (length (c ++ s') - length s') (c ++ s') = c.
Proof.
  rewrite length_app, Nat.add_sub, firstn_app, Nat.sub_diag, firstn_all.
  cbn [firstn]. apply app_nil_r.
Qed.

Lemma firstn_consumed2 (a b c : str) :
  firstn (length (a ++ b ++ c) - length c) (a ++ b ++ c) = a ++ b.
Proof. rewrite app_assoc. apply firstn_consumed. Qed.

Ltac derives_step :=
  match goal with
  | H : derives _ (rlit _) _ _ _ _ |- _ =>
      unfold rlit in H; apply derives_lit in H; destruct H as [? ?]; subst
  | H : derives _ (RPlus RSpace) _ _ _ _ |- _ =>
      apply derives_plus_spaces in H; destruct H as (? & ? & ? & ? & ?); subst
  | H : derives _ (RStar RSpace) _ _ _ _ |- _ =>
      apply derives_spaces in H; destruct H as (? & ? & ? & ?); subst
  | H : derives _ (RStar RNonSpace) _ _ _ _ |- _ =>
      apply derives_solid in H; destruct H as (? & ? & ? & ?); subst
  | H : derives _ (RLazyStar RAny) _ _ _ _ |- _ =>
      apply derives_lazy_any in H; destruct H as (? & ? & ? & ?); subst
  | H : derives _ (RSeq _ _) _ _ _ _ |- _ => inversion H; subst; clear H
  | H : derives _ (RAlt _ _) _ _ _ _ |- _ => inversion H; subst; clear H
  | H : derives _ (ROpt _) _ _ _ _ |- _ => inversion H; subst; clear H
  | H : derives _ (RGroup _ _) _ _ _ _ |- _ => inversion H; subst; clear H
  | H : derives _ (RChar _) _ _ _ _ |- _ => inversion H; subst; clear H
  | H : derives _ REmpty _ _ _ _ |- _ => inversion H; subst; clear H
  | H : derives _ REol _ _ _ _ |- _ => inversion H; subst; clear H
  | H : derives _ RBol _ _ _ _ |- _ => inversion H; subst; clear H
  end.

Lemma derives_keyword subject s g s' g' :
  derives subject RX_KEYWORD s g s' g' ->
  exists k1,
    s = k1 ++ s'
    /\ ((k1 = [] /\ g' = g)
        \/ (k1 <> [] /\ blank k1 = true /\ g' = set_group 1 k1 g)
        \/ (exists k w,
              k1 = k ++ w /\ (k = py "TODO" \/ k = py "DONE")
              /\ w <> [] /\ blank w = true
              /\ g' = set_group 1 k1 (set_group 2 k g))).
Proof.
  unfold RX_KEYWORD. intros D. repeat derives_step.
  - match goal with w : list ascii |- _ =>
      exists (py "TODO" ++ w); split; [now rewrite <- app_assoc|];
      right; right; exists (py "TODO"), w
    end.
    split; [reflexivity|].
    split; [now left|]. split; [assumption|]. split; [assumption|].
    now rewrite firstn_consumed2, (firstn_consumed (py "TODO")).
  - match goal with w : list ascii |- _ =>
      exists (py "DONE" ++ w); split; [now rewrite <- app_assoc|];
      right; right; exists (py "DONE"), w
    end.
    split; [reflexivity|].
    split; [now right|]. split; [assumption|]. split; [assumption|].
    now rewrite firstn_consumed2, (firstn_consumed (py "DONE")).
  - match goal with w : list ascii |- _ => exists w; split; [reflexivity|] end.
    right. left. split; [assumption|]. split; [assumption|].
    now rewrite firstn_consumed.
  - exists []. split; [reflexivity|]. now left.
Qed.

Lemma derives_priority subject s g s' g' :
  derives subject RX_PRIORITY s g s' g' ->
  exists p1,
    s = p1 ++ s'
    /\ ((p1 = [] /\ g' = g)
        \/ (exists c w,
              p1 = "[" :: "#" :: c :: "]" :: w
              /\ (c = "A" \/ c = "B" \/ c = "C")
              /\ w <> [] /\ blank w = true
              /\ g' = set_group 3 p1 (set_group 4 [c] g))).
Proof.
  unfold RX_PRIORITY. cbn [rseq fold_right]. intros D. repeat derives_step.
  1-3: match goal with
       | |- context [py "[#" ++ ?c :: "]" :: ?w ++ ?r] =>
           exists ("[" :: "#" :: c :: "]" :: w); split; [reflexivity|];
           right; exists c, w; split; [reflexivity|];
           split; [tauto|]; split; [assumption|]; split; [assumption|];
           change (py "[#" ++ c :: "]" :: w ++ r)
             with (("[" :: "#" :: c :: "]" :: w) ++ r);
           rewrite firstn_consumed;
           change (c :: "]" :: w ++ r) with ([c] ++ "]" :: w ++ r);
           now rewrite firstn_consumed
       end.
  exists []. split; [reflexivity|]. now left.
Qed.

Lemma blank_app a b : blank (a ++ b) = blank a && blank b.
Proof. apply forallb_app. Qed.

Lemma derives_tail subject s g s' g' :
  derives subject RX_TAIL s g s' g' ->
  (blank s = true /\ g' = g)
  \/ (exists X w,
        s = ":" :: X ++ ":" :: w /\ solid X = true /\ blank w = true
        /\ g' = set_group 6 (":" :: X ++ [":"]) (set_group 7 X g)).
Proof.
  unfold RX_TAIL. cbn [rseq fold_right]. intros D. repeat derives_step.
  1-2: match goal with
       | |- context [":" :: ?X ++ ":" :: ?w ++ ?e] =>
           right; exists X, (w ++ e); split; [reflexivity|];
           split; [assumption|];
           split; [rewrite blank_app; apply andb_true_iff; now split|];
           rewrite (firstn_consumed X (":" :: w ++ e));
           replace (":" :: X ++ ":" :: w ++ e)
             with ((":" :: X ++ [":"]) ++ w ++ e)
             by (cbn [app]; now rewrite <- app_assoc);
           now rewrite firstn_consumed
       end.
  all: left; split; [|reflexivity]; rewrite blank_app; apply andb_true_iff;
    now split.
Qed.

(** A match of [RX_HEADLINE] splits the title into four parts, and the
    groups hold what the parts say; the title text, the third part, is
    the shortest after which the rest of the pattern matches. *)
Lemma headline_run t g :
  re_match RX_HEADLINE t = Some g ->
  exists k1 p1 F u,
    t = k1 ++ p1 ++ F ++ u
    /\ keyword_part k1 (g 2) /\ priority_part p1 (g 4)
    /\ g 5 = Some F /\ ~ In newline F
    /\ tail_part u (g 7)
    /\ forall F1 F2 g0,
         F = F1 ++ F2 -> F2 <> [] ->
         matched (rmatch t RX_TAIL accept (F2 ++ u) g0) = false.
Proof.
  intros H. pose proof (headline_group5 _ _ H) as H5.
  unfold re_match in H. fold accept in H. rewrite RX_HEADLINE_parts in H.
  rewrite rmatch_seq, rmatch_bol in H.
  rewrite rmatch_seq in H. apply rmatch_sound in H.
  destruct H as (s1 & g1 & Dk & H). cbn beta in H.
  rewrite rmatch_seq in H. apply rmatch_sound in H.
  destruct H as (s2 & g2 & Dp & H). cbn beta in H.
  apply derives_keyword in Dk. destruct Dk as (k1 & Hk & Hkw).
  apply derives_priority in Dp. destruct Dp as (p1 & Hp & Hpr).
  assert (K : keyword_part k1 (g1 2)
              /\ g1 4 = None /\ g1 5 = None /\ g1 7 = None)
    by (destruct Hkw as [[-> ->] | [(Hne & Hb & ->) | (kk & ww & -> & Hk' & Hne & Hb & ->)]];
        repeat split; try reflexivity;
        [apply kw_absent | now apply kw_blank | now apply kw_word]).
  destruct K as (K2 & K4 & K5 & K7).
  assert (P : priority_part p1 (g2 4)
              /\ g2 2 = g1 2 /\ g2 5 = None /\ g2 7 = None)
    by (destruct Hpr as [[-> ->] | (cc & ww & -> & Hc & Hne & Hb & ->)];
        [rewrite K4; repeat split; try assumption; apply prio_absent
        | repeat split; try assumption; now apply prio_cookie]).
  destruct P as (P4 & P2 & P5 & P7).
  rewrite rmatch_seq in H. unfold RX_TITLE in H. rewrite rmatch_opt in H.
  match type of H with
  | match ?m with _ => _ end = _ => destruct m as [res|] eqn:E
  end.
  - inversion H; subst res; clear H. rewrite rmatch_group in E.
    apply lazy_any_first in E.
    destruct E as (F & u & Hs2 & HF & Hku & Hlazy). cbn beta in Hku.
    rewrite Hs2, firstn_consumed in Hku.
    pose proof Hku as Hrun. apply rmatch_sound in Hku.
    destruct Hku as (s' & g' & Dt & Hacc). unfold accept in Hacc.
    inversion Hacc; subst g'; clear Hacc.
    apply derives_tail in Dt.
    exists k1, p1, F, u. subst s1 s2.
    split; [exact Hk|].
    assert (Hgroups : g 2 = g1 2 /\ g 4 = g2 4 /\ g 5 = Some F
                      /\ tail_part u (g 7)).
    { destruct Dt as [[Hu ->] | (X & w & Hu & HX & Hw & ->)];
        unfold set_group; cbn [Nat.eqb].
      - repeat split; try assumption. rewrite P7. now apply tail_blank.
      - repeat split; try assumption. rewrite Hu. now apply tail_tags. }
    destruct Hgroups as (G2 & G4 & G5 & G7).
    split; [now rewrite G2|]. split; [now rewrite G4|].
    split; [exact G5|]. split; [exact HF|]. split; [exact G7|].
    intros F1 F2 g0 EF Hne.
    pose proof (Hlazy F1 F2 EF Hne) as Hnone. cbn beta in Hnone.
    rewrite (matched_tail t (F2 ++ u) g0
               (set_group 5
                  (firstn (length (F ++ u) - length (F2 ++ u)) (F ++ u)) g2)).
    now rewrite Hnone.
  - exfalso. apply H5. apply rmatch_sound in H.
    destruct H as (s' & g' & Dt & Hacc). unfold accept in Hacc.
    inversion Hacc; subst g'; clear Hacc.
    apply derives_tail in Dt.
    destruct Dt as [[Hu ->] | (X & w & Hu & HX & Hw & ->)]; exact P5.
Qed.

Lemma headline_parts t g :
  re_match RX_HEADLINE t = Some g ->
  exists k1 p1 F u,
    t = k1 ++ p1 ++ F ++ u
    /\ keyword_part k1 (g 2) /\ priority_part p1 (g 4)
    /\ g 5 = Some F /\ ~ In newline F
    /\ tail_part u (g 7).
Proof.
  intros H. destruct (headline_run _ _ H)
    as (k1 & p1 & F & u & H1 & H2 & H3 & H4 & H5 & H6 & _).
  now exists k1, p1, F, u.
Qed.

(** ** Titles that are written back as they were *)

Lemma starts_blank_lstrip s : starts_blank s = false <-> lstrip s = s.
Proof.
  rewrite lstrip_fixed_iff. destruct s as [|c s']; cbn [starts_blank].
  - split; [now left | reflexivity].
  - split.
    + intros Hc. right. now exists c, s'.
    + intros [H | (c' & t & H & Hc)]; [discriminate|]. now inversion H; subst.
Qed.

Lemma starts_blank_app (w rest : str) :
  w <> [] -> blank w = true -> starts_blank (w ++ rest) = true.
Proof.
  destruct w as [|c w']; [congruence|]. intros _ Hb. cbn in Hb |- *.
  now apply andb_true_iff in Hb.
Qed.

Lemma one_space_blank (w rest : str) :
  w <> [] -> blank w = true -> one_space (w ++ rest) = true ->
  w = [" "] /\ starts_blank rest = false.
Proof.
  destruct w as [|c w']; [congruence|]. intros _ Hb H.
  cbn [app one_space] in H. apply andb_true_iff in H. destruct H as [Hc Hr].
  apply Ascii.eqb_eq in Hc. subst c. apply negb_true_iff in Hr.
  destruct w' as [|c' w''].
  - now split.
  - cbn in Hb. apply andb_true_iff in Hb. destruct Hb as [Hc' _].
    cbn in Hr. congruence.
Qed.

Lemma rstrip_blank_end (a u : str) :
  rstrip (a ++ u) = a ++ u -> blank u = true -> u = [].
Proof.
  intros H Hb. apply rstrip_fixed_suffix in H.
  now rewrite (rstrip_blank _ Hb) in H.
Qed.

Lemma rstrip_split s : exists w, s = rstrip s ++ w /\ blank w = true.
Proof.
  destruct (lstrip_split (rev s)) as (p & Hp & Hb).
  exists (rev p). split.
  - unfold rstrip. rewrite <- rev_app_distr, <- Hp. now rewrite rev_involutive.
  - unfold blank. apply forallb_forall. intros x Hx. apply in_rev in Hx.
    rewrite forallb_forall in Hb. now apply Hb.
Qed.

Lemma strip_no_lead s : starts_blank s = false -> strip s = rstrip s.
Proof.
  intros Hs. unfold strip. apply starts_blank_lstrip.
  destruct (rstrip_split s) as (w & Hw & _).
  destruct (rstrip s) as [|c r] eqn:E; [reflexivity|].
  rewrite Hw in Hs. exact Hs.
Qed.

Lemma marked_keyword k r :
  k = py "TODO" \/ k = py "DONE" ->
  marked keywords (k ++ r) = if starts_blank r then Some r else None.
Proof. intros [-> | ->]; reflexivity. Qed.

Lemma marked_cookie c r :
  c = "A" \/ c = "B" \/ c = "C" ->
  marked cookies ("[" :: "#" :: c :: "]" :: r)
    = if starts_blank r then Some r else None.
Proof. intros [-> | [-> | ->]]; reflexivity. Qed.

Lemma marked_keyword_bracket r : marked keywords ("[" :: r) = None.
Proof. reflexivity. Qed.

Lemma done_keyword k :
  k = py "TODO" \/ k = py "DONE" ->
  (match
      (if str_eqb k (py "DONE") then Some true
       else if str_eqb k (py "TODO") then Some false else None)
    with
    | None => []
    | Some false => py "TODO "
    | Some true => py "DONE "
    end) = k ++ [" "].
Proof. intros [-> | ->]; reflexivity. Qed.

(** What the pattern takes for keyword and priority cookie of a title
    that is [single_spaced] is written back as it was, and the rest of
    the title does not start with whitespace. *)
Lemma headline_front_written t k1 p1 rest v2 v4 :
  t = k1 ++ p1 ++ rest -> lstrip t = t -> single_spaced t = true ->
  keyword_part k1 v2 -> priority_part p1 v4 ->
  k1 = (match
           (match v2 with
            | Some sdone =>
                if str_eqb sdone (py "DONE") then Some true
                else if str_eqb sdone (py "TODO") then Some false
                else None
            | None => None
            end)
         with
         | None => []
         | Some false => py "TODO "
         | Some true => py "DONE "
         end)
  /\ p1 = (match v4 with
           | None => []
           | Some p => py "[#" ++ p ++ py "] "
           end)
  /\ starts_blank rest = false.
Proof.
  intros Ht Hl Hs Hk Hp. apply starts_blank_lstrip in Hl.
  assert (Hcookie :
            forall r,
              starts_blank r = false ->
              match marked cookies r with
              | Some r2 => one_space r2
              | None => true
              end = true ->
              r = p1 ++ rest ->
              p1 = (match v4 with
                    | None => []
                    | Some p => py "[#" ++ p ++ py "] "
                    end)
              /\ starts_blank rest = false).
  { intros r Hr Hc ->.
    destruct Hp as [|c w Hc' Hne Hb].
    - now split.
    - cbn [app] in Hc. rewrite (marked_cookie c _ Hc') in Hc.
      rewrite (starts_blank_app w rest Hne Hb) in Hc.
      destruct (one_space_blank _ _ Hne Hb Hc) as [-> Hrest].
      now split. }
  destruct Hk as [|w Hne Hb|k w Hk Hne Hb].
  - (* no keyword *)
    split; [reflexivity|]. cbn [app] in Ht.
    destruct Hp as [|c w Hc' Hne Hb].
    + split; [reflexivity|]. now rewrite Ht in Hl.
    + apply (Hcookie t); [exact Hl | | exact Ht].
      unfold single_spaced in Hs. rewrite Ht in Hs |- *. cbn [app] in Hs |- *.
      now rewrite marked_keyword_bracket in Hs.
  - (* whitespace in front *)
    exfalso. rewrite Ht in Hl.
    now rewrite (starts_blank_app w _ Hne Hb) in Hl.
  - (* a keyword *)
    unfold single_spaced in Hs. rewrite Ht, <- !app_assoc in Hs.
    rewrite (marked_keyword k _ Hk) in Hs.
    rewrite (starts_blank_app w _ Hne Hb) in Hs.
    apply andb_true_iff in Hs. destruct Hs as [H1 H2].
    destruct (one_space_blank _ _ Hne Hb H1) as [-> Hrest].
    cbn [app tl] in H2.
    split; [symmetry; exact (done_keyword k Hk)|].
    now apply (Hcookie (p1 ++ rest)).
Qed.

(** The title that a heading node writes is the title it was built
    from, up to the whitespace in front of the tag group, when the
    title has no whitespace at its ends and is [single_spaced]. *)
Lemma headline_round_trip t node :
  lstrip t = t -> rstrip t = t -> single_spaced t = true ->
  OrgHeadlineNode t = Ok node -> same_title t (node_str node).
Proof.
  intros Hl Hr Hs Hn. unfold OrgHeadlineNode in Hn.
  destruct (re_match RX_HEADLINE t) as [g|] eqn:E.
  2:{ inversion Hn; subst. left. unfold node_str. cbn. now rewrite app_nil_r. }
  destruct (headline_parts _ _ E) as (k1 & p1 & F & u & Ht & Hk & Hp & H5 & HF & Hu).
  rewrite H5 in Hn. cbv zeta in Hn. injection Hn as Hn. subst node.
  destruct (headline_front_written t k1 p1 (F ++ u) (g 2) (g 4) Ht Hl Hs Hk Hp)
    as (Hk1 & Hp1 & Hrest).
  unfold node_str. cbn [cls text].
  match goal with
  | |- same_title t (?K ++ ?P ++ _) =>
      replace K with k1 by exact Hk1; replace P with p1 by exact Hp1
  end.
  assert (Hend : rstrip (F ++ u) = F ++ u).
  { rewrite Ht, app_assoc in Hr. now apply rstrip_fixed_suffix in Hr. }
  inversion Hu as [w Hw Eu Eg | X w HX Hw Eu Eg].
  - (* no tag group *)
    subst w. assert (u = []) by (now apply (rstrip_blank_end F)). subst u.
    rewrite !app_nil_r in *. rewrite (strip_no_lead _ Hrest), Hend.
    left. exact Ht.
  - (* a tag group *)
    assert (w = []).
    { rewrite <- Eu in Hend.
      replace (F ++ ":" :: X ++ ":" :: w) with ((F ++ ":" :: X ++ [":"]) ++ w)
        in Hend by (rewrite <- !app_assoc; cbn [app]; now rewrite <- app_assoc).
      now apply rstrip_blank_end in Hend. }
    subst w.
    assert (HsF : starts_blank F = false).
    { destruct F as [|c F']; [reflexivity | exact Hrest]. }
    rewrite (strip_no_lead _ HsF).
    destruct (rstrip_split F) as (wF & HwF & HbF).
    destruct (split ":" X) as [|tag tags] eqn:Etags;
      [now apply split_acc_nonempty in Etags|].
    rewrite <- Etags. unfold split. change (py ":") with [":"%char] at 1.
    rewrite join_split_acc. cbn [rev app].
    right. exists (k1 ++ p1 ++ rstrip F), wF, [" "], (":" :: X ++ [":"]).
    split.
    { rewrite Ht, <- Eu, HwF at 1. now rewrite <- !app_assoc. }
    split; [now rewrite <- !app_assoc|].
    split; [exact HbF|]. split; [reflexivity|]. now exists X.
Qed.

(** ** Lines that are written back as they were *)

Lemma same_title_refl a : same_title a a.
Proof. now left. Qed.

Lemma plain_line_kind b :
  plain_line b -> heading_run b = None /\ startswith b "#" = false.
Proof.
  intros [|c t Hs Hh|r Hr|r c t Hr Hc Hsp].
  - now split.
  - split.
    + unfold heading_run. cbn [startswith].
      destruct (Ascii.eqb_spec c "*"); [congruence | reflexivity].
    + cbn [startswith]. destruct (Ascii.eqb_spec c "#"); [congruence | reflexivity].
  - destruct r as [|r]; [lia|]. split; [|reflexivity].
    unfold heading_run. cbn [repeat startswith]. rewrite Ascii.eqb_refl.
    change ("*" :: repeat "*" r) with (repeat "*"%char (S r)).
    rewrite prefix_len_stars_end.
    replace (nth_error (repeat "*"%char (S r)) (S r)) with (@None ascii);
      [reflexivity|].
    symmetry. apply nth_error_None. now rewrite repeat_length.
  - destruct r as [|r]; [lia|]. split; [|reflexivity].
    unfold heading_run. cbn [repeat startswith app]. rewrite Ascii.eqb_refl.
    change ("*" :: repeat "*" r ++ c :: t) with (repeat "*"%char (S r) ++ c :: t).
    assert (Hst : is_star c = false).
    { unfold is_star. destruct (Ascii.eqb_spec c "*"); [congruence | reflexivity]. }
    rewrite (prefix_len_stars _ _ _ Hst), nth_error_stars. now rewrite Hsp.
Qed.

Lemma normal_line_plain lv b : plain_line b -> normal_line (lv, b) = b.
Proof.
  intros Hp. destruct (plain_line_kind b Hp) as [Hr Hs].
  unfold normal_line. cbn [fst snd]. rewrite Hr.
  destruct b as [|x b']; [reflexivity|].
  cbn [startswith] in Hs. destruct (Ascii.eqb_spec x "#"); [discriminate|].
  destruct x as [[] [] [] [] [] [] [] []]; try reflexivity. congruence.
Qed.

Lemma heading_run_stars r c t :
  1 <= r -> isspace c = true -> heading_run (repeat "*" r ++ c :: t) = Some r.
Proof.
  intros Hr Hc. destruct r as [|r]; [lia|].
  unfold heading_run. cbn [repeat startswith app]. rewrite Ascii.eqb_refl.
  change ("*" :: repeat "*" r ++ c :: t) with (repeat "*"%char (S r) ++ c :: t).
  rewrite (prefix_len_stars _ _ _ (isspace_not_star _ Hc)), nth_error_stars.
  now rewrite Hc.
Qed.

Lemma new_level_next lv r : r <= lv + 1 -> new_level lv r = r.
Proof.
  intros H. destruct (new_level_cases lv r) as (H1 & H2 & H3).
  destruct (Nat.lt_trichotomy lv r) as [Hlt | [Heq | Hgt]].
  - rewrite H1 by exact Hlt. lia.
  - rewrite H3 by now symmetry. now symmetry.
  - now apply H2.
Qed.

Lemma tag_group_stripped p g : tag_group g -> rstrip (p ++ g) = p ++ g.
Proof.
  intros (X & -> & _).
  replace (p ++ ":" :: X ++ [":"]) with ((p ++ ":" :: X) ++ [":"%char])
    by (rewrite <- app_assoc; reflexivity).
  now apply rstrip_snoc.
Qed.

(** The normal form of a line of a canonical input is the line, up to
    trailing whitespace and the whitespace in front of a tag group. *)
Lemma canonical_lines lv ls :
  canonical lv ls -> Forall2 same_line ls (map normal_line (trace lv ls)).
Proof.
  induction 1 as [lv
                 |lv l ls Hp _ IH
                 |lv l t ls Hb Ht _ IH
                 |lv l name rest ls Hb Hn Hrest _ IH
                 |lv l r title ls Hb Hr1 Hr2 Hl Hs _ IH];
    cbn [trace map]; [constructor| | | |].
  - (* text *)
    destruct (plain_line_kind _ Hp) as [Hr _].
    rewrite (level_after_plain _ _ Hr). constructor; [|exact IH].
    unfold same_line. rewrite (normal_line_plain _ _ Hp), rstrip_idem.
    apply same_title_refl.
  - (* comment *)
    assert (Hr : heading_run (rstrip l) = None)
      by (rewrite Hb; apply heading_run_hash).
    rewrite (level_after_plain _ _ Hr). constructor; [|exact IH].
    unfold same_line.
    assert (Hnl : normal_line (lv, rstrip l) = rstrip l).
    { rewrite Hb. unfold normal_line. cbn [fst snd]. rewrite heading_run_hash.
      cbn [directive_parts]. change (Ascii.eqb " " "+") with false. cbv iota.
      change (lstrip (" " :: t)) with (lstrip t). now rewrite Ht. }
    rewrite Hnl, rstrip_idem. apply same_title_refl.
  - (* directive *)
    assert (Hr : heading_run (rstrip l) = None)
      by (rewrite Hb; apply heading_run_hash).
    rewrite (level_after_plain _ _ Hr). constructor; [|exact IH].
    unfold same_line.
    assert (Hnl : normal_line (lv, rstrip l)
                  = py "#+" ++ name ++ py ": " ++ strip rest).
    { rewrite Hb. unfold normal_line. cbn [fst snd]. rewrite heading_run_hash.
      now rewrite (directive_parts_built _ _ Hn). }
    rewrite Hnl.
    assert (Hcolon : rstrip (("#" :: "+" :: name) ++ [":"%char])
                     = ("#" :: "+" :: name) ++ [":"%char])
      by (apply rstrip_snoc; reflexivity).
    assert (Hsplit : forall args,
               py "#+" ++ name ++ py ": " ++ args
               = (("#" :: "+" :: name) ++ [":"%char]) ++ " " :: args).
    { intros args. change (py "#+") with ["#"; "+"].
      change (py ": ") with [":"; " "]. cbn [app].
      rewrite <- app_assoc. reflexivity. }
    left. rewrite Hsplit, rstrip_app.
    destruct Hrest as [-> | (args & -> & Hargs)].
    + change (strip []) with (@nil ascii).
      change (rstrip [" "%char]) with (@nil ascii). cbv iota.
      rewrite Hcolon, Hb. reflexivity.
    + assert (Hra : rstrip (" " :: args) = " " :: args).
      { apply (rstrip_fixed_suffix ("#" :: "+" :: name ++ [":"%char])).
        replace (("#" :: "+" :: name ++ [":"%char]) ++ " " :: args)
          with (rstrip l)
          by (rewrite Hb; cbn [app]; now rewrite <- app_assoc).
        apply rstrip_idem. }
      destruct args as [|a args'].
      { vm_compute in Hra. discriminate Hra. }
      assert (Hra' : rstrip (a :: args') = a :: args').
      { now apply (rstrip_fixed_suffix [" "%char]). }
      assert (Hstrip : strip (" " :: a :: args') = a :: args').
      { rewrite strip_space_cons by reflexivity. unfold strip.
        now rewrite Hra'. }
      rewrite Hstrip, Hra, Hb. cbn [app]. now rewrite <- app_assoc.
  - (* heading *)
    assert (Hrun : heading_run (rstrip l) = Some r)
      by (rewrite Hb; now apply heading_run_stars).
    unfold level_after. rewrite Hrun, (new_level_next _ _ Hr2).
    constructor; [|exact IH].
    unfold same_line.
    destruct (OrgHeadlineNode_never_raises title) as (node & Hnode & _).
    assert (Hnl : normal_line (r, rstrip l)
                  = repeat "*" r ++ " " :: node_str node).
    { unfold normal_line. cbn [fst snd]. rewrite Hrun, Hb, skipn_stars.
      change (lstrip (" " :: title)) with (lstrip title).
      now rewrite Hl, Hnode. }
    assert (Hrt : rstrip title = title).
    { apply (rstrip_fixed_suffix (repeat "*" r ++ [" "%char])).
      rewrite <- app_assoc. cbn [app]. rewrite <- Hb. apply rstrip_idem. }
    rewrite Hnl, Hb.
    destruct (headline_round_trip _ _ Hl Hrt Hs Hnode)
      as [<- | (p & w & w' & g & Ha & Hb' & Hw & Hw' & Hg)].
    + rewrite <- Hb, rstrip_idem. apply same_title_refl.
    + right. exists (repeat "*" r ++ " " :: p), w, w', g.
      split; [rewrite Ha; now rewrite <- app_assoc|].
      split; [|now repeat split].
      rewrite Hb'.
      replace (repeat "*" r ++ " " :: p ++ w' ++ g)
        with ((repeat "*" r ++ " " :: p ++ w') ++ g)
        by (rewrite <- !app_assoc; cbn [app]; now rewrite <- app_assoc).
      rewrite (tag_group_stripped _ _ Hg).
      rewrite <- !app_assoc. cbn [app]. now rewrite <- app_assoc.
Qed.

Lemma canonical_no_marker lv ls :
  canonical lv ls -> Forall (fun l => rstrip l <> ["#"]) ls.
Proof.
  induction 1 as [lv
                 |lv l ls Hp _ IH
                 |lv l t ls Hb Ht _ IH
                 |lv l name rest ls Hb Hn Hrest _ IH
                 |lv l r title ls Hb Hr1 Hr2 Hl Hs _ IH];
    constructor; try exact IH; intros E.
  - rewrite E in Hp. apply plain_line_kind in Hp. now destruct Hp as [_ Hp].
  - rewrite E in Hb. discriminate Hb.
  - rewrite E in Hb. discriminate Hb.
  - rewrite E in Hb. destruct r as [|r]; [lia | discriminate Hb].
Qed.

(** ** The round trip *)



Lemma same_title_end a b :
  same_title a b -> a = b \/ exists q, rev a = ":" :: q.
Proof.
  intros [H | (p & w & w' & g & -> & _ & _ & _ & X & -> & _)]; [now left|].
  right. rewrite !rev_app_distr. cbn [rev]. rewrite rev_app_distr. cbn.
  eexists. reflexivity.
Qed.


(** ** Tags that are read back *)

Lemma blank_in (w : str) c : blank w = true -> In c w -> isspace c = true.
Proof. unfold blank. rewrite forallb_forall. intros H Hin. now apply H. Qed.

Lemma solid_in (w : str) c : solid w = true -> In c w -> isspace c = false.
Proof.
  unfold solid. rewrite forallb_forall. intros H Hin.
  apply H in Hin. now apply negb_true_iff in Hin.
Qed.

Lemma solid_app a b : solid (a ++ b) = solid a && solid b.
Proof. apply forallb_app. Qed.

Lemma solid_join tags :
  Forall (fun t => solid t = true) tags -> solid (join [":"] tags) = true.
Proof.
  induction 1 as [|t tags Ht Hts IH]; [reflexivity|].
  destruct tags as [|t' tags]; [exact Ht|].
  rewrite join_cons by discriminate. rewrite !solid_app, Ht, IH. reflexivity.
Qed.

Lemma ends_with (l : str) :
  l <> [] -> exists l' c, l = l' ++ [c].
Proof.
  intros H. destruct (exists_last H) as (l' & c & E). now exists l', c.
Qed.

(** Keyword and priority cookie end in whitespace, if there are any. *)
Lemma front_ends_blank k1 p1 v2 v4 :
  keyword_part k1 v2 -> priority_part p1 v4 ->
  k1 ++ p1 = [] \/ exists q c, k1 ++ p1 = q ++ [c] /\ isspace c = true.
Proof.
  intros Hk Hp.
  assert (Hlast : forall (a w : str),
             w <> [] -> blank w = true ->
             exists q c, a ++ w = q ++ [c] /\ isspace c = true).
  { intros a w Hne Hb. destruct (ends_with w Hne) as (w' & c & ->).
    exists (a ++ w'), c. split; [now rewrite app_assoc|].
    apply (blank_in _ _ Hb), in_or_app. right. now left. }
  destruct Hp as [|c w Hc Hne Hb].
  - rewrite app_nil_r. destruct Hk as [|w Hne Hb|k w Hk Hne Hb].
    + now left.
    + right. now apply (Hlast [] w).
    + right. now apply Hlast.
  - right. change ("[" :: "#" :: c :: "]" :: w) with (["["; "#"; c; "]"] ++ w).
    rewrite app_assoc. now apply Hlast.
Qed.

(** A tag group after a space at the end of a title is what the pattern
    takes for the tags. *)
Lemma tag_group_found t g pre J :
  re_match RX_HEADLINE t = Some g ->
  t = pre ++ " " :: ":" :: J ++ [":"] -> solid J = true ->
  g 7 = Some J.
Proof.
  intros Hm Ht HJ.
  destruct (headline_run _ _ Hm)
    as (k1 & p1 & F & u & Hparts & Hk & Hp & _ & _ & Hu & Hlazy).
  set (G := ":" :: J ++ [":"]) in *.
  assert (HG : solid G = true).
  { unfold G. change (":" :: J ++ [":"]) with ([":"%char] ++ J ++ [":"%char]).
    now rewrite !solid_app, HJ. }
  assert (Hcolon : In ":"%char G) by (now left).
  (* the title text and what follows it hold the tag group *)
  assert (Hrest : exists m,
             F ++ u = m ++ G /\ (m = [] \/ exists m', m = m' ++ [" "%char])).
  { assert (E : (k1 ++ p1) ++ F ++ u = (pre ++ [" "%char]) ++ G).
    { rewrite <- !app_assoc. cbn [app]. now rewrite <- Hparts, Ht. }
    apply app_eq_app in E.
    destruct E as (l & [[E1 E2] | [E1 E2]]).
    - destruct l as [|x l].
      + exists []. split; [now rewrite E2 | now left].
      + exfalso.
        destruct (front_ends_blank _ _ _ _ Hk Hp) as [Hnil | (q & c & Hq & Hc)].
        * rewrite Hnil in E1. symmetry in E1. apply app_eq_nil in E1.
          destruct E1 as [_ E1]. discriminate E1.
        * destruct (ends_with (x :: l) ltac:(discriminate)) as (l' & c' & El).
          rewrite El, app_assoc in E1. rewrite Hq in E1.
          apply app_inj_tail in E1. destruct E1 as [_ <-].
          assert (Hin : In c G).
          { rewrite E2, El. apply in_or_app. left. apply in_or_app.
            right. now left. }
          rewrite (solid_in _ _ HG Hin) in Hc. discriminate Hc.
    - exists l. split; [exact E2|].
      destruct l as [|x l]; [now left|]. right.
      destruct (ends_with (x :: l) ltac:(discriminate)) as (l' & c' & El).
      rewrite El, app_assoc in E1. apply app_inj_tail in E1.
      destruct E1 as [_ <-]. now exists l'. }
  destruct Hrest as (m & Hrest & Hm').
  assert (HuG : u = G).
  { apply app_eq_app in Hrest.
    destruct Hrest as (l & [[E1 E2] | [E1 E2]]).
    - destruct l as [|x l]; [now rewrite E2|]. exfalso.
      pose proof (Hlazy m (x :: l) no_groups E1 ltac:(discriminate)) as Hno.
      rewrite <- E2 in Hno. unfold G in Hno.
      now rewrite (tail_matches_tags t J no_groups HJ) in Hno.
    - destruct l as [|x l]; [exact E2|]. exfalso.
      destruct Hm' as [-> | (m' & ->)].
      { symmetry in E1. apply app_eq_nil in E1. destruct E1 as [_ E1].
        discriminate E1. }
      destruct (ends_with (x :: l) ltac:(discriminate)) as (l' & c' & El).
      rewrite El, app_assoc in E1. apply app_inj_tail in E1.
      destruct E1 as [_ <-]. rewrite El in E2.
      inversion Hu as [w Hw Eu Eg | X w HX Hw Eu Eg].
      + subst w. assert (Hin : In ":"%char u).
        { rewrite E2. apply in_or_app. now right. }
        pose proof (blank_in _ _ Hw Hin) as Hc. discriminate Hc.
      + rewrite <- Eu in E2.
        replace (":" :: X ++ ":" :: w) with ((":" :: X ++ [":"%char]) ++ w) in E2
          by (cbn [app]; now rewrite <- app_assoc).
        apply app_eq_app in E2.
        destruct E2 as (z & [[E3 E4] | [E3 E4]]).
        * assert (Hin : In " "%char (":" :: X ++ [":"%char])).
          { rewrite E3. apply in_or_app. left. apply in_or_app. right. now left. }
          destruct Hin as [Hin | Hin]; [discriminate Hin|].
          apply in_app_or in Hin. destruct Hin as [Hin | [Hin | []]];
            [|discriminate Hin].
          pose proof (solid_in _ _ HX Hin) as Hc. discriminate Hc.
        * assert (Hin : In ":"%char w).
          { rewrite E4. apply in_or_app. now right. }
          pose proof (blank_in _ _ Hw Hin) as Hc. discriminate Hc. }
  rewrite HuG in Hu. unfold G in Hu.
  inversion Hu as [w Hw Eu Eg | X w HX Hw Eu Eg].
  - subst w. pose proof (blank_in _ _ Hw Hcolon) as Hc. discriminate Hc.
  - destruct w as [|x w].
    + apply app_inj_tail in Eu. now destruct Eu as [-> _].
    + exfalso.
      destruct (ends_with (x :: w) ltac:(discriminate)) as (w' & c & Ew).
      rewrite Ew in Eu, Hw.
      replace (X ++ ":" :: w' ++ [c]) with ((X ++ ":" :: w') ++ [c]) in Eu
        by (now rewrite <- app_assoc).
      apply app_inj_tail in Eu. destruct Eu as [_ ->].
      assert (Hin : In ":"%char (w' ++ [":"%char]))
        by (apply in_or_app; right; now left).
      pose proof (blank_in _ _ Hw Hin) as Hc. discriminate Hc.
Qed.

Lemma solid_no_newline (w : str) : solid w = true -> ~ In newline w.
Proof. intros H Hin. pose proof (solid_in _ _ H Hin) as Hc. discriminate Hc. Qed.

(** X7.  The tags of a heading node survive [__str__] and [__init__]:
    if the node has at least one tag, no tag contains whitespace or a
    colon, and neither its text nor its priority contains a newline,
    then the node built from the title that [__str__] writes has the
    same tags, in the same order, empty tags included. *)
Theorem headline_tags_read_back done priority txt tags :
  tags <> [] ->
  Forall (fun t => ~ In ":"%char t) tags ->
  Forall (fun t => solid t = true) tags ->
  ~ In newline txt -> ~ In newline (the priority) ->
  exists done' priority' txt',
    OrgHeadlineNode (node_str (mkNode (Headline done priority tags) txt []))
      = Ok (mkNode (Headline done' priority' tags) txt' []).
Proof.
  intros Hne Hcolon Hsolid Htxt Hprio.
  set (J := join [":"%char] tags).
  assert (HJ : solid J = true) by (now apply solid_join).
  set (front := (match done with
                 | None => []
                 | Some false => py "TODO "
                 | Some true => py "DONE "
                 end)
                ++ (match priority with
                    | None => []
                    | Some p => py "[#" ++ p ++ py "] "
                    end)).
  assert (Hstr : node_str (mkNode (Headline done priority tags) txt [])
                 = (front ++ txt) ++ " " :: ":" :: J ++ [":"%char]).
  { unfold node_str, front, J. cbn [cls text].
    destruct tags as [|t tags']; [congruence|].
    rewrite <- !app_assoc. reflexivity. }
  assert (Hnl : ~ In newline
                  (node_str (mkNode (Headline done priority tags) txt []))).
  { rewrite Hstr. intros Hin.
    apply in_app_or in Hin. destruct Hin as [Hin | Hin].
    - apply in_app_or in Hin. destruct Hin as [Hin | Hin]; [|now apply Htxt].
      unfold front in Hin. apply in_app_or in Hin. destruct Hin as [Hin | Hin].
      + destruct done as [[|]|]; cbn in Hin;
          repeat (destruct Hin as [Hin | Hin]; [discriminate Hin|]); exact Hin.
      + destruct priority as [p|]; [|exact Hin].
        apply in_app_or in Hin. destruct Hin as [Hin | Hin].
        * cbn in Hin.
          repeat (destruct Hin as [Hin | Hin]; [discriminate Hin|]); exact Hin.
        * apply in_app_or in Hin. destruct Hin as [Hin | Hin].
          -- now apply Hprio.
          -- cbn in Hin.
             repeat (destruct Hin as [Hin | Hin]; [discriminate Hin|]); exact Hin.
    - destruct Hin as [Hin | [Hin | Hin]]; [discriminate Hin | discriminate Hin |].
      apply in_app_or in Hin. destruct Hin as [Hin | Hin].
      + now apply (solid_no_newline _ HJ).
      + destruct Hin as [Hin | []]. discriminate Hin. }
  pose proof (headline_pattern_matches _ Hnl) as Hm.
  destruct (re_match RX_HEADLINE
              (node_str (mkNode (Headline done priority tags) txt [])))
    as [g|] eqn:E; [|discriminate Hm].
  pose proof (tag_group_found _ _ _ _ E Hstr HJ) as H7.
  destruct (g 5) as [title|] eqn:E5; [|now apply headline_group5 in E].
  unfold OrgHeadlineNode. rewrite E, E5, H7. cbv zeta.
  eexists. eexists. eexists. do 2 f_equal. f_equal.
  unfold J. apply split_join_tags; assumption.
Qed.

Lemma headline_tags_read_back_witness :
  exists done' priority' txt',
    OrgHeadlineNode
      (node_str (mkNode (Headline (Some false) (Some (py "A"))
                                  [py "work"; []; py "urgent"])
                        (py "Buy: milk") []))
      = Ok (mkNode (Headline done' priority' [py "work"; []; py "urgent"])
                   txt' []).
Proof.
  apply (headline_tags_read_back (Some false) (Some (py "A")) (py "Buy: milk")
           [py "work"; []; py "urgent"]).
  - discriminate.
  - repeat constructor; not_in_list.
  - repeat constructor.
  - not_in_list.
  - not_in_list.
Defined.
